(** * GopherJS: name allocation (compiler/utils.go) and the JavaScript
      value bridge ($externalize / $internalize of the prelude).

    The development is a shallow embedding: every Go or JavaScript function
    that a property below talks about is transcribed into a Rocq function
    with the same name and the same case structure, and the properties are
    proved about these transcriptions. *)

From Stdlib Require Import ZArith List String Ascii Lia Bool DecimalString DecimalZ.
From stdpp Require Import base gmap strings list.

Set Warnings "-register-all".

(** Outcome of running a transcribed function.  Go panics and JavaScript
    exceptions abort the whole call chain, unbounded loops and recursion are
    cut by a fuel argument. *)
Inductive res (A : Type) : Type :=
| Ok (a : A)
| Panic (msg : string)      (* Go panic / $throwRuntimeError / $panic *)
| TypeError (msg : string)  (* exception raised by the JavaScript engine itself *)
| OutOfFuel                 (* the loop or recursion did not finish within the fuel *)
| Unmodelled (what : string).
    (* the run leaves the fragment of JavaScript that the embedding covers *)
Arguments Ok {A} a.
Arguments Panic {A} msg.
Arguments TypeError {A} msg.
Arguments OutOfFuel {A}.
Arguments Unmodelled {A} what.

Definition bind {A B} (m : res A) (k : A -> res B) : res B :=
  match m with
  | Ok a => k a
  | Panic e => Panic e
  | TypeError e => TypeError e
  | OutOfFuel => OutOfFuel
  | Unmodelled w => Unmodelled w
  end.

(** [res] is used through stdpp's monad notations [x ← m; k]. *)
#[global] Instance res_ret : MRet res := fun A a => Ok a.
#[global] Instance res_bind : MBind res := fun A B k m => bind m k.

(** A Go [int] is a 64-bit two's complement integer on the platforms the
    compiler runs on. *)
Definition int64 (z : Z) : Z := (z + 2 ^ 63) mod 2 ^ 64 - 2 ^ 63.

(* ===================================================================== *)
(** * Part I: compiler/utils.go *)
(* ===================================================================== *)
Module Naming.
Local Open Scope string_scope.
Local Open Scope Z_scope.

(** ** Strings (Go strings are byte sequences; [ascii] is a byte) *)

Definition byte_of (n : Z) : ascii := ascii_of_N (Z.to_N n).
Definition code_of (c : ascii) : Z := Z.of_N (N_of_ascii c).

(** [const midDot = "·"]: the two bytes of U+00B7 in UTF-8. *)
Definition midDot : string := String (byte_of 194) (String (byte_of 183) "").

(** *** net/url.QueryEscape (Go standard library, mode encodeQueryComponent) *)

Definition isAlnum (c : ascii) : bool :=
  let n := code_of c in
  (97 <=? n) && (n <=? 122) || (65 <=? n) && (n <=? 90) || (48 <=? n) && (n <=? 57).

Definition shouldEscape (c : ascii) : bool :=
  if isAlnum c then false
  else if (code_of c =? 45) || (code_of c =? 95) || (code_of c =? 46) || (code_of c =? 126)
       then false (* '-', '_', '.', '~' *)
       else true.

Definition upperhex (n : Z) : ascii :=
  if n <? 10 then byte_of (48 + n) else byte_of (65 + (n - 10)).

Fixpoint QueryEscape (s : string) : string :=
  match s with
  | EmptyString => EmptyString
  | String c s' =>
      if code_of c =? 32 then String "+" (QueryEscape s')
      else if shouldEscape c
           then String "%" (String (upperhex (Z.shiftr (code_of c) 4))
                  (String (upperhex (Z.land (code_of c) 15)) (QueryEscape s')))
           else String c (QueryEscape s')
  end.

(** *** strings.ReplaceAll for a non-empty [old]: non-overlapping matches,
    left to right.  [skip] counts the bytes of a match still to be dropped. *)
Fixpoint replaceFrom (old new : string) (skip : nat) (s : string) : string :=
  match s with
  | EmptyString => EmptyString
  | String c s' =>
      match skip with
      | S k => replaceFrom old new k s'
      | O => if String.prefix old s
             then new ++ replaceFrom old new (String.length old - 1) s'
             else String c (replaceFrom old new 0 s')
      end
  end.

Definition ReplaceAll (s old new : string) : string := replaceFrom old new 0 s.

(** [func encodeIdent(name string) string] *)
Definition encodeIdent (name : string) : string :=
  let name := QueryEscape name in
  let name := ReplaceAll name "%C2%B7" midDot in
  let name := ReplaceAll name "%" "$" in
  name.

(** [%d] of fmt.Sprintf *)
Definition fmtInt (n : Z) : string := NilEmpty.string_of_int (Z.to_int n).

(** ** Objects of go/types, as far as utils.go inspects them *)

Definition typ := nat.      (* a types.Type, compared by identity *)
Definition pkgId := nat.    (* a types.Package, by identity *)

Record object := {
  oid : nat;                     (* identity of the types.Object *)
  oName : string;                (* o.Name() *)
  oPkg : pkgId;                  (* o.Pkg() *)
  oPkgPath : string;             (* o.Pkg().Path() *)
  oExported : bool;              (* o.Exported() *)
  oIsTypeName : bool;            (* o is a types.TypeName *)
  oIsVar : bool;                 (* o is a types.Var *)
  oIsConst : bool;               (* o is a types.Const *)
  oParentIsPkgScope : bool;      (* o.Parent() != nil && o.Parent().Parent() == types.Universe *)
  oNestingFunc : option nat      (* typeparams.FindNestingFunc(o), by identity *)
}.

(** typeparams.Instance *)
Record Instance := {
  Object : option object;
  TArgs : list typ;
  TNest : list typ
}.

(** ** funcContext and the package context it points to *)

Inductive funcContext := FuncContext {
  allVars : gmap string Z;
  localVars : list string;
  objectNames : gmap nat string;
  instance : Instance;
  parent : option funcContext
}.

(** One recorded call of DeclareDCEDep: the entity with its nesting and
    direct type arguments. *)
Record dceDep := { depObject : nat; depTNest : list typ; depTArgs : list typ }.

Record pkgContext := {
  minify : bool;
  Pkg : pkgId;
  pkgVars : gmap string string;
  escapingVars : gset nat;
  dceDeps : list dceDep
}.

Definition isRoot (fc : funcContext) : bool :=
  match parent fc with None => true | Some _ => false end.

Fixpoint root (fc : funcContext) : funcContext :=
  match parent fc with
  | None => fc
  | Some p => root p
  end.

Definition lookupVar (m : gmap string Z) (name : string) : Z := default 0 (m !! name).

(** The inner loop of the minified branch: builds the candidate for index
    [j], most significant letter first. *)
Fixpoint minifiedLoop (fuel : nat) (offset j : Z) (name : string) : res string :=
  match fuel with
  | O => OutOfFuel
  | S fuel' =>
      let name := String (byte_of (offset + Z.rem j 26)) name in
      let j := Z.quot j 26 - 1 in
      if j =? -1 then Ok name else minifiedLoop fuel' offset j name
  end.

Definition minifiedCandidate (pkgLevel : bool) (i : Z) : res string :=
  let offset := if pkgLevel then 65 (* 'A' *) else 97 (* 'a' *) in
  minifiedLoop (S (Z.to_nat i)) offset i "".

(** The outer loop of the minified branch: first index whose candidate has
    count 0 in [allVars]. *)
Fixpoint minifiedSearch (fuel : nat) (vars : gmap string Z) (pkgLevel : bool) (i : Z)
  : res string :=
  match fuel with
  | O => OutOfFuel
  | S fuel' =>
      match minifiedCandidate pkgLevel i with
      | Ok name =>
          if lookupVar vars name =? 0 then Ok name
          else minifiedSearch fuel' vars pkgLevel (int64 (i + 1))
      | Panic e => Panic e
      | TypeError e => TypeError e
      | OutOfFuel => OutOfFuel
      | Unmodelled w => Unmodelled w
      end
  end.

(** [c2.allVars[name] = n + 1] for [c2] and all its ancestors. *)
Fixpoint reserveUp (name : string) (v : Z) (c2 : funcContext) : funcContext :=
  {| allVars := <[name := v]> (allVars c2);
     localVars := localVars c2;
     objectNames := objectNames c2;
     instance := instance c2;
     parent := match parent c2 with
               | None => None
               | Some p => Some (reserveUp name v p)
               end |}.

(** [funcContext.newVariable(name string, pkgLevel bool) string].
    The package context is only read (for the [minify] flag). *)
Definition newVariable (pc : pkgContext) (fc : funcContext) (name : string) (pkgLevel : bool)
  : res (string * funcContext) :=
  if String.eqb name "" then Panic "newVariable: empty name"
  else
    let name := encodeIdent name in
    name ← (if minify pc
            then minifiedSearch (S (size (allVars fc))) (allVars fc) pkgLevel 0
            else Ok name);
     let n := lookupVar (allVars fc) name in
     let vars := <[name := int64 (n + 1)]> (allVars fc) in
     let varName := if 0 <? n then name ++ "$" ++ fmtInt n else name in
     if pkgLevel then
       Ok (varName,
           {| allVars := vars; localVars := localVars fc;
              objectNames := objectNames fc; instance := instance fc;
              parent := match parent fc with
                        | None => None
                        | Some p => Some (reserveUp name (int64 (n + 1)) p)
                        end |})
     else
       Ok (varName,
           {| allVars := vars; localVars := localVars fc ++ [varName];
              objectNames := objectNames fc; instance := instance fc;
              parent := parent fc |}).

(** [funcContext.newLocalVariable(name string) string] *)
Definition newLocalVariable (pc : pkgContext) (fc : funcContext) (name : string) :=
  newVariable pc fc name false.

(** [func isVarOrConst(o types.Object) bool] *)
Definition isVarOrConst (o : object) : bool := oIsVar o || oIsConst o.

(** [func isPkgLevel(o types.Object) bool] *)
Definition isPkgLevel (o : object) : bool := oParentIsPkgScope o || oIsTypeName o.

(** The double quote character, for the generated [$packages] lookup. *)
Definition dquote : string := String (byte_of 34) "".

(** [funcContext.pkgVar(pkg)], applied to the package of [o]. *)
Definition pkgVar (pc : pkgContext) (o : object) : string :=
  if Nat.eqb (oPkg o) (Pkg pc) then "$pkg"
  else match pkgVars pc !! oPkgPath o with
       | Some v => v
       | None => "$packages[" ++ dquote ++ oPkgPath o ++ dquote ++ "]"
       end.

(** [funcContext.assignedObjectName(o)]: the ancestors are asked first, the
    context's own table last; [None] is the Go result [found == false]. *)
Fixpoint assignedObjectName (fc : funcContext) (o : object) : option string :=
  match (match parent fc with
         | None => None
         | Some p => assignedObjectName p o
         end) with
  | Some name => Some name
  | None => objectNames fc !! oid o
  end.

(** [fc.root().objectNames[o] = name] *)
Fixpoint setRootObjectName (fc : funcContext) (o : object) (name : string) : funcContext :=
  match parent fc with
  | None =>
      {| allVars := allVars fc; localVars := localVars fc;
         objectNames := <[oid o := name]> (objectNames fc);
         instance := instance fc; parent := None |}
  | Some p =>
      {| allVars := allVars fc; localVars := localVars fc;
         objectNames := objectNames fc;
         instance := instance fc; parent := Some (setRootObjectName p o name) |}
  end.

(** [fc.objectNames[o] = name] *)
Definition setObjectName (fc : funcContext) (o : object) (name : string) : funcContext :=
  {| allVars := allVars fc; localVars := localVars fc;
     objectNames := <[oid o := name]> (objectNames fc);
     instance := instance fc; parent := parent fc |}.

(** Modelled from the spec: [pkgCtx.DeclareDCEDep] is declared outside the
    files at hand; by section 4.3 it inserts one edge from the current
    code-generation context to the entity with the given nesting and direct
    type arguments.  The edges are kept in call order. *)
Definition DeclareDCEDep (pc : pkgContext) (o : object) (tNest tArgs : list typ) : pkgContext :=
  {| minify := minify pc; Pkg := Pkg pc; pkgVars := pkgVars pc;
     escapingVars := escapingVars pc;
     dceDeps := dceDeps pc ++ [{| depObject := oid o; depTNest := tNest; depTArgs := tArgs |}] |}.

(** [typeparams.FindNestingFunc(o) == fc.instance.Object]: the left side is a
    function pointer, the right side an interface value, so the comparison
    holds only when both name the same function object. *)
Definition nestedInInstance (fc : funcContext) (o : object) : bool :=
  match oNestingFunc o, Object (instance fc) with
  | Some f, Some g => Nat.eqb f (oid g)
  | _, _ => false
  end.

(** [funcContext.objectName(o types.Object) string] *)
Definition objectName (pc : pkgContext) (fc : funcContext) (o : object)
  : res (string * funcContext * pkgContext) :=
  let pc1 :=
    if isPkgLevel o then
      let nestTArgs := if nestedInInstance fc o then TArgs (instance fc) else [] in
      DeclareDCEDep pc o nestTArgs []
    else pc in
  if isPkgLevel o && (negb (Nat.eqb (oPkg o) (Pkg pc)) || (isVarOrConst o && oExported o))
  then Ok (pkgVar pc o ++ "." ++ oName o, fc, pc1)
  else
    '(name, fc1) ←
      match assignedObjectName fc o with
      | Some name => Ok (name, fc)
      | None =>
          let pkgLevel := isPkgLevel o in
          '(name, fc1) ← newVariable pc fc (oName o) pkgLevel;
          if pkgLevel then Ok (name, setRootObjectName fc1 o name)
          else Ok (name, setObjectName fc1 o name)
      end;
    if oIsVar o && bool_decide (oid o ∈ escapingVars pc)
    then Ok (name ++ "[0]", fc1, pc1)
    else Ok (name, fc1, pc1).


Section InstanceSet.
  (** The instance registry of the package context and the debug label of an
      instance are provided by the typeparams package. *)
Variable instanceSetID : Instance -> Z.
Variable TypeParamsString : Instance -> string -> string -> string.

End InstanceSet.

(** A run of allocation requests against one scope, in order. *)
Fixpoint allocate (pc : pkgContext) (fc : funcContext) (reqs : list (string * bool))
  : res (list string * funcContext) :=
  match reqs with
  | [] => Ok ([], fc)
  | (name, pkgLevel) :: reqs' =>
      '(v, fc1) ← newVariable pc fc name pkgLevel;
      '(vs, fc2) ← allocate pc fc1 reqs';
      Ok (v :: vs, fc2)
  end.

(** ** The letter sequence A, B, ..., Z, AA, AB, ... of the minified mode,
    written as a successor on strings: advance the last letter; after the
    26th letter it wraps to the first one and the carry moves one place to
    the left; a carry out of the leftmost place prepends the first letter. *)
Fixpoint bump (first : Z) (rs : list ascii) : list ascii :=
  match rs with
  | [] => [byte_of first]
  | c :: rs' =>
      if code_of c <? first + 25 then byte_of (code_of c + 1) :: rs'
      else byte_of first :: bump first rs'
  end.

Definition alphaNext (first : Z) (s : string) : string :=
  string_of_list_ascii (rev (bump first (rev (list_ascii_of_string s)))).

Definition alphaNth (first : Z) (K : nat) : string :=
  Nat.iter K (alphaNext first) (String (byte_of first) "").

Definition firstLetter (pkgLevel : bool) : Z := if pkgLevel then 65 else 97.

(** ** Vocabulary of the proofs about the letter sequence *)

(** Bijective base-26 numerals, least significant digit first: [val] is the
    index a numeral stands for, [bumpd] its successor. *)
Fixpoint val (ds : list Z) : Z :=
  match ds with
  | [] => -1
  | d :: ds' => d + 26 * (val ds' + 1)
  end.

Fixpoint bumpd (ds : list Z) : list Z :=
  match ds with
  | [] => [0]
  | d :: ds' => if d <? 25 then d + 1 :: ds' else 0 :: bumpd ds'
  end.

Definition digits (ds : list Z) : Prop := Forall (fun d => 0 <= d < 26) ds.

Definition render (first : Z) (ds : list Z) : list ascii :=
  map (fun d => byte_of (first + d)) ds.

Definition numeral (K : nat) : list Z := Nat.iter K bumpd [0].

Definition letterBase (first : Z) : Prop := 0 <= first /\ first + 25 < 256.

Definition spell (first : Z) (ds : list Z) : string :=
  string_of_list_ascii (rev (render first ds)).

(** The count table of a fresh scope after [K] minified allocations. *)
Fixpoint firstNames (first : Z) (K : nat) : gmap string Z :=
  match K with
  | O => ∅
  | S K' => <[alphaNth first K' := 1]> (firstNames first K')
  end.

(** ** The edges [objectName] and [instName] hand to [DeclareDCEDep] *)



(** ** Sample contexts *)

Definition noInstance : Instance := {| Object := None; TArgs := []; TNest := [] |}.

Definition freshScope : funcContext :=
  {| allVars := ∅; localVars := []; objectNames := ∅; instance := noInstance; parent := None |}.

Definition pcNatural : pkgContext :=
  {| minify := false; Pkg := 0%nat; pkgVars := ∅; escapingVars := ∅; dceDeps := [] |}.

Definition pcMinified : pkgContext :=
  {| minify := true; Pkg := 0%nat; pkgVars := ∅; escapingVars := ∅; dceDeps := [] |}.


(** A package-level function [f] of the package being compiled. *)
Definition funcF : object :=
  {| oid := 8%nat; oName := "f"; oPkg := 0%nat; oPkgPath := "main"; oExported := false;
     oIsTypeName := false; oIsVar := false; oIsConst := false;
     oParentIsPkgScope := true; oNestingFunc := None |}.


End Naming.
(* ===================================================================== *)
(** * Part II: the value bridge of the prelude ($externalize, $internalize) *)
(* ===================================================================== *)
Module Bridge.
Local Open Scope Z_scope.

(** ** JavaScript strings and numbers

    A JavaScript string is its sequence of UTF-16 code units.  A compiled Go
    string is a JavaScript string whose code units are the bytes of the Go
    string. *)
Abbreviation jsstring := (list Z) (only parsing).

(** The code units of an ASCII literal. *)
Fixpoint str (s : string) : jsstring :=
  match s with
  | EmptyString => []
  | String c s' => Z.of_N (N_of_ascii c) :: str s'
  end.

(** A Number is NaN, an infinity, or the finite decimal [m / 10^e].  The
    operations below keep finite numbers normalised: [e = 0] or [m] is not a
    multiple of ten.  Negative zero is identified with zero.  A finite
    decimal stands for the Number whose shortest decimal form it is. *)
Inductive number :=
| NaN
| Infinity (neg : bool)
| Fin (m : Z) (e : nat).

#[global] Instance number_eq_dec : EqDecision number.
Proof. solve_decision. Defined.

Fixpoint normalise (m : Z) (e : nat) : number :=
  match e with
  | O => Fin m O
  | S e' => if m mod 10 =? 0 then normalise (m / 10) e' else Fin m e
  end.

Definition ofInt (z : Z) : number := Fin z 0.

(** Nearest Number to an integer: integers of more than 53 significant bits
    are rounded to 53 bits, ties to even; from 2^1024 on the result is an
    infinity. *)
Definition roundInt (z : Z) : number :=
  let a := Z.abs z in
  if a <? 2 ^ 53 then Fin z 0
  else
    let k := Z.log2 a - 52 in
    let q := Z.shiftr a k in
    let r := Z.land a (Z.ones k) in
    let half := Z.shiftl 1 (k - 1) in
    let q' := if (half <? r) || ((r =? half) && Z.odd q) then q + 1 else q in
    let a' := Z.shiftl q' k in
    if 2 ^ 1024 <=? a' then Infinity (z <? 0) else Fin (Z.sgn z * a') 0.

(** Integer part, towards zero. *)
Definition truncate (m : Z) (e : nat) : Z := Z.quot m (10 ^ Z.of_nat e).

(** ToInt32 and ToUint32. *)
Definition wrapU (w : Z) (z : Z) : Z := z mod 2 ^ w.
Definition wrapS (w : Z) (z : Z) : Z :=
  let u := z mod 2 ^ w in if u <? 2 ^ (w - 1) then u else u - 2 ^ w.

Definition toInt32 (n : number) : Z :=
  match n with
  | Fin m e => wrapS 32 (truncate m e)
  | _ => 0
  end.

Definition toUint32 (n : number) : Z :=
  match n with
  | Fin m e => wrapU 32 (truncate m e)
  | _ => 0
  end.

(** [x << k], [x >> k] and [x >>> k] for a shift count [0 <= k < 32]. *)
Definition shl (x : number) (k : Z) : number := ofInt (wrapS 32 (Z.shiftl (toInt32 x) k)).
Definition sar (x : number) (k : Z) : number := ofInt (Z.shiftr (toInt32 x) k).
Definition shr (x : number) (k : Z) : number := ofInt (Z.shiftr (toUint32 x) k).

(** Math.ceil and Math.floor *)
Definition ceil (n : number) : number :=
  match n with
  | Fin m e => Fin (- ((- m) / 10 ^ Z.of_nat e)) 0
  | _ => n
  end.

Definition floor (n : number) : number :=
  match n with
  | Fin m e => Fin (m / 10 ^ Z.of_nat e) 0
  | _ => n
  end.

(** *** Decimal digits *)

Fixpoint uintDigits (d : Decimal.uint) : list Z :=
  match d with
  | Decimal.Nil => []
  | Decimal.D0 d => 0 :: uintDigits d
  | Decimal.D1 d => 1 :: uintDigits d
  | Decimal.D2 d => 2 :: uintDigits d
  | Decimal.D3 d => 3 :: uintDigits d
  | Decimal.D4 d => 4 :: uintDigits d
  | Decimal.D5 d => 5 :: uintDigits d
  | Decimal.D6 d => 6 :: uintDigits d
  | Decimal.D7 d => 7 :: uintDigits d
  | Decimal.D8 d => 8 :: uintDigits d
  | Decimal.D9 d => 9 :: uintDigits d
  end.

(** The decimal digits of a positive integer, most significant first; no
    digits for 0. *)
Definition digitsOf (a : Z) : list Z :=
  match a with
  | Zpos p => uintDigits (Pos.to_uint p)
  | _ => []
  end.

Definition digitChars (ds : list Z) : jsstring := map (fun d => 48 + d) ds.

Fixpoint dropTrailingZeros (ds : list Z) : list Z :=
  match ds with
  | [] => []
  | d :: ds' =>
      match dropTrailingZeros ds' with
      | [] => if d =? 0 then [] else [d]
      | r => d :: r
      end
  end.

(** Number::toString(x) of ECMAScript (radix 10).  For a finite non-zero
    [x = m / 10^e] the digits [s] are the digits of [|m|] without trailing
    zeros, [k] is their number and [n] the position of the decimal point.
    The digits are those of the decimal as it is given, which are the digits
    JavaScript prints when the decimal is the shortest form of its Number;
    that is so for every integer below 2^53 in absolute value.  For an
    integer from 2^53 on, JavaScript prints the shortest digits that read
    back as the same Number, which this definition does not compute. *)
Definition numberToString (x : number) : jsstring :=
  match x with
  | NaN => str "NaN"
  | Infinity neg => (if neg then str "-" else []) ++ str "Infinity"
  | Fin m e =>
      if m =? 0 then str "0"
      else
        let sign := if m <? 0 then str "-" else [] in
        let all := digitsOf (Z.abs m) in
        let s := dropTrailingZeros all in
        let k := Z.of_nat (length s) in
        let n := Z.of_nat (length all) - Z.of_nat e in
        sign ++
        (if (k <=? n) && (n <=? 21) then
           digitChars s ++ repeat 48 (Z.to_nat (n - k))
         else if (0 <? n) && (n <=? 21) then
           digitChars (take (Z.to_nat n) s) ++ str "." ++ digitChars (drop (Z.to_nat n) s)
         else if (-6 <? n) && (n <=? 0) then
           str "0." ++ repeat 48 (Z.to_nat (- n)) ++ digitChars s
         else
           let ex := (if n - 1 <? 0 then str "-" else str "+")
                       ++ digitChars (match digitsOf (Z.abs (n - 1)) with [] => [0] | ds => ds end) in
           match s with
           | [d] => digitChars [d] ++ str "e" ++ ex
           | d :: ds => digitChars [d] ++ str "." ++ digitChars ds ++ str "e" ++ ex
           | [] => []
           end)
  end.

(** *** parseInt(string) with no radix argument *)

(** WhiteSpace and LineTerminator code units. *)
Definition isWhiteSpace (c : Z) : bool :=
  (c =? 9) || (c =? 10) || (c =? 11) || (c =? 12) || (c =? 13) || (c =? 32) || (c =? 160)
  || (c =? 5760) || ((8192 <=? c) && (c <=? 8202)) || (c =? 8232) || (c =? 8233)
  || (c =? 8239) || (c =? 8287) || (c =? 12288) || (c =? 65279).

Fixpoint skipWhiteSpace (s : jsstring) : jsstring :=
  match s with
  | c :: s' => if isWhiteSpace c then skipWhiteSpace s' else s
  | [] => []
  end.

(** The value of a code unit as a digit of the radix, if it is one. *)
Definition digitValue (radix : Z) (c : Z) : option Z :=
  let v := if (48 <=? c) && (c <=? 57) then c - 48
           else if (97 <=? c) && (c <=? 122) then c - 97 + 10
           else if (65 <=? c) && (c <=? 90) then c - 65 + 10
           else radix in
  if v <? radix then Some v else None.

(** Longest prefix of digits: its value, or [None] when it is empty. *)
Fixpoint readDigits (radix : Z) (acc : option Z) (s : jsstring) : option Z :=
  match s with
  | c :: s' =>
      match digitValue radix c with
      | Some d => readDigits radix (Some (default 0 acc * radix + d)) s'
      | None => acc
      end
  | [] => acc
  end.

Definition parseIntString (input : jsstring) : number :=
  let s := skipWhiteSpace input in
  let (neg, s) := match s with
                  | 45 :: s' => (true, s')       (* "-" *)
                  | 43 :: s' => (false, s')      (* "+" *)
                  | _ => (false, s)
                  end in
  let (radix, s) := match s with
                    | 48 :: 120 :: s' => (16, s')   (* "0x" *)
                    | 48 :: 88 :: s' => (16, s')    (* "0X" *)
                    | _ => (10, s)
                    end in
  match readDigits radix None s with
  | None => NaN
  | Some mathInt => roundInt (if neg then - mathInt else mathInt)
  end.

(** *** parseFloat(string): the longest prefix that is a StrDecimalLiteral *)

Fixpoint spanDigits (s : jsstring) : list Z * jsstring :=
  match s with
  | c :: s' =>
      if (48 <=? c) && (c <=? 57)
      then let (ds, rest) := spanDigits s' in (c - 48 :: ds, rest)
      else ([], s)
  | [] => ([], [])
  end.

Definition digitsValue (ds : list Z) : Z := fold_left (fun a d => a * 10 + d) ds 0.

Definition isPrefix (p s : jsstring) : bool := bool_decide (take (length p) s = p).

(** The exponent part ["e" sign digits] and the input after it; exponent 0
    and the input unchanged when there is no well-formed exponent part. *)
Definition scanExponent (s : jsstring) : Z * jsstring :=
  match s with
  | c :: s' =>
      if (c =? 101) || (c =? 69) then
        let (neg, s'') := match s' with
                          | 45 :: r => (true, r)
                          | 43 :: r => (false, r)
                          | _ => (false, s')
                          end in
        match spanDigits s'' with
        | ([], _) => (0, s)
        | (ds, rest) => (if neg then - digitsValue ds else digitsValue ds, rest)
        end
      else (0, s)
  | [] => (0, s)
  end.

(** [ip.fp * 10^ex] as a normalised finite decimal. *)
Definition decimalValue (neg : bool) (ip fp : list Z) (ex : Z) : number :=
  let m := digitsValue (ip ++ fp) in
  let m := if neg then - m else m in
  let e := Z.of_nat (length fp) - ex in
  if e <? 0 then Fin (m * 10 ^ (- e)) 0 else normalise m (Z.to_nat e).

(** The longest prefix that is a StrDecimalLiteral: its value and the rest of
    the input. *)
Definition scanDecimal (s : jsstring) : option (number * jsstring) :=
  let (neg, s) := match s with
                  | 45 :: s' => (true, s')
                  | 43 :: s' => (false, s')
                  | _ => (false, s)
                  end in
  if isPrefix (str "Infinity") s then Some (Infinity neg, drop 8 s)
  else
    let (ip, s1) := spanDigits s in
    let (fp, s2) := match s1 with
                    | 46 :: r => spanDigits r     (* "." *)
                    | _ => ([], s1)
                    end in
    match ip, fp with
    | [], [] => None
    | _, _ => let (ex, s3) := scanExponent s2 in Some (decimalValue neg ip fp ex, s3)
    end.

(** [parseFloat] on a string: the decimal is taken as it is written.
    JavaScript rounds it to the nearest Number, which is the same Number for
    a decimal of at most 15 significant digits; the rounding of longer
    decimals is not computed. *)
Definition parseFloatString (input : jsstring) : number :=
  match scanDecimal (skipWhiteSpace input) with
  | Some (n, _) => n
  | None => NaN
  end.

(** StringToNumber: the whole string, white space trimmed, must be a numeric
    literal; the empty string is 0. *)
Definition allDigits (radix : Z) (s : jsstring) : option Z :=
  match s with
  | [] => None
  | _ => if forallb (fun c => bool_decide (is_Some (digitValue radix c))) s
         then readDigits radix None s else None
  end.

Definition stringToNumber (input : jsstring) : number :=
  let s := skipWhiteSpace input in
  match skipWhiteSpace (rev s) with
  | [] => Fin 0 0
  | rs =>
      let s := rev rs in
      let radixLiteral (radix : Z) (digits : jsstring) :=
        match allDigits radix digits with
        | Some v => roundInt v
        | None => NaN
        end in
      match s with
      | 48 :: 120 :: r | 48 :: 88 :: r => radixLiteral 16 r   (* 0x *)
      | 48 :: 111 :: r | 48 :: 79 :: r => radixLiteral 8 r    (* 0o *)
      | 48 :: 98 :: r | 48 :: 66 :: r => radixLiteral 2 r     (* 0b *)
      | _ => match scanDecimal s with
             | Some (n, []) => n
             | _ => NaN
             end
      end
  end.

(** String.fromCharCode for one code unit (ToUint16). *)
Definition fromCharCode (c : Z) : Z := c mod 65536.

(** [s.charCodeAt(i)]; [None] is NaN (index out of range). *)
Definition charCodeAt (s : jsstring) (i : Z) : option Z :=
  if i <? 0 then None else s !! Z.to_nat i.

(** ** UTF-8 helpers of the prelude *)

(** Modelled from the spec: [$decodeRune] is defined in the prelude outside
    the files at hand.  Section 4.5 has [$externalize] decode a compiled
    string scalar by scalar; this is the decoder of Go's utf8 package on the
    byte string [str] at [pos]: the scalar and its width in bytes, or U+FFFD
    and width 1 on an ill-formed sequence. *)
Definition continuation (c : option Z) : option Z :=
  match c with
  | Some c => if (c <? 128) || (192 <=? c) then None else Some c
  | None => None
  end.

Definition decodeRune (s : jsstring) (pos : Z) : Z * Z :=
  let bad := (65533, 1) in
  match charCodeAt s pos with
  | None => bad
  | Some c0 =>
      if c0 <? 128 then (c0, 1)
      else if c0 <? 192 then bad
      else
        match continuation (charCodeAt s (pos + 1)) with
        | None => bad
        | Some c1 =>
            if c0 <? 224 then
              let r := Z.lor (Z.shiftl (Z.land c0 31) 6) (Z.land c1 63) in
              if r <=? 127 then bad else (r, 2)
            else
              match continuation (charCodeAt s (pos + 2)) with
              | None => bad
              | Some c2 =>
                  if c0 <? 240 then
                    let r := Z.lor (Z.lor (Z.shiftl (Z.land c0 15) 12)
                                          (Z.shiftl (Z.land c1 63) 6)) (Z.land c2 63) in
                    if r <=? 2047 then bad
                    else if (55296 <=? r) && (r <=? 57343) then bad
                    else (r, 3)
                  else
                    match continuation (charCodeAt s (pos + 3)) with
                    | None => bad
                    | Some c3 =>
                        if c0 <? 248 then
                          let r := Z.lor (Z.lor (Z.lor (Z.shiftl (Z.land c0 7) 18)
                                                       (Z.shiftl (Z.land c1 63) 12))
                                                (Z.shiftl (Z.land c2 63) 6)) (Z.land c3 63) in
                          if (r <=? 65535) || (1114111 <? r) then bad else (r, 4)
                        else bad
                    end
              end
        end
  end.

(** Modelled from the spec: [$encodeRune] is defined in the prelude outside
    the files at hand.  Section 4.6 has [$internalize] produce the compiled
    scalar encoding; this is the encoder of Go's utf8 package: the UTF-8
    bytes of the scalar, those of U+FFFD for a value that is no scalar. *)
Definition encodeRune (r : Z) : jsstring :=
  let r := if (r <? 0) || (1114111 <? r) || ((55296 <=? r) && (r <=? 57343)) then 65533 else r in
  if r <=? 127 then [fromCharCode r]
  else if r <=? 2047 then
    [fromCharCode (Z.lor 192 (Z.shiftr r 6)); fromCharCode (Z.lor 128 (Z.land r 63))]
  else if r <=? 65535 then
    [fromCharCode (Z.lor 224 (Z.shiftr r 12));
     fromCharCode (Z.lor 128 (Z.land (Z.shiftr r 6) 63));
     fromCharCode (Z.lor 128 (Z.land r 63))]
  else
    [fromCharCode (Z.lor 240 (Z.shiftr r 18));
     fromCharCode (Z.lor 128 (Z.land (Z.shiftr r 12) 63));
     fromCharCode (Z.lor 128 (Z.land (Z.shiftr r 6) 63));
     fromCharCode (Z.lor 128 (Z.land r 63))].

(** [$encodeRune] applied to NaN: every comparison fails and every bit
    operation sees 0. *)
Definition encodeRuneNaN : jsstring := [240; 128; 128; 128].

(** [var $isASCII = s => ...] *)
Definition isASCII (s : jsstring) : bool := forallb (fun c => negb (128 <=? c)) s.

(** ** Type descriptors *)

Abbreviation tid := nat (only parsing).    (* a type descriptor, compared by identity *)
Abbreviation addr := nat (only parsing).   (* an object of the JavaScript heap, compared by identity *)

Inductive Kind :=
| kindBool | kindInt | kindInt8 | kindInt16 | kindInt32 | kindInt64
| kindUint | kindUint8 | kindUint16 | kindUint32 | kindUint64 | kindUintptr
| kindFloat32 | kindFloat64 | kindComplex64 | kindComplex128
| kindArray | kindChan | kindFunc | kindInterface | kindMap | kindPtr
| kindSlice | kindString | kindStruct | kindUnsafePointer.

#[global] Instance Kind_eq_dec : EqDecision Kind.
Proof. solve_decision. Defined.

(** One entry of [t.fields]. *)
Record field := {
  prop : jsstring;      (* f.prop: storage key in the compiled struct *)
  name : jsstring;      (* f.name: declared name *)
  exported : bool;      (* f.exported *)
  typ : tid             (* f.typ *)
}.

Record rtype := {
  kind : Kind;                 (* t.kind *)
  tstring : string;            (* t.string *)
  elem : tid;                  (* t.elem *)
  key : tid;                   (* t.key *)
  len : Z;                     (* t.len *)
  fields : list field;         (* t.fields *)
  methods : list jsstring;     (* t.methods of an interface type *)
  methodSet : list jsstring;   (* $methodSet(t) of a concrete type *)
  params : list tid;           (* t.params *)
  results : list tid;          (* t.results *)
  variadic : bool;             (* t.variadic *)
  ptr : tid                    (* t.ptr of a struct type *)
}.

(** The globals of the prelude that the bridge refers to. *)
Record runtime := {
  types : tid -> rtype;
  jsObjectPtr : tid;                     (* $jsObjectPtr *)
  timePkg : option tid;                  (* $packages["time"], as its Time type *)
  dBool : tid; dString : tid;            (* $Bool, $String *)
  dInt : tid; dInt8 : tid; dInt16 : tid; (* $Int, $Int8, $Int16 *)
  dUint : tid; dUint8 : tid; dUint16 : tid;
  dFloat32 : tid; dFloat64 : tid;
  emptyInterface : tid;                  (* $emptyInterface *)
  sliceType : tid -> tid;                (* $sliceType *)
  mapType : tid -> tid -> tid;           (* $mapType *)
  funcType : list tid -> list tid -> bool -> tid;   (* $funcType *)
  globalNode : bool                      (* $global.Node is defined *)
}.

(** ** Values and the heap *)

Inductive jsval :=
| JUndefined
| JNull
| JBool (b : bool)
| JNum (n : number)
| JStr (s : jsstring)
| JRef (a : addr)                   (* an object with identity *)
| JNew (t : tid) (v : jsval)        (* new t(v): constructor t, $val v *)
| JInt64 (t : tid) (high low : Z)   (* new t(high, low) of a 64-bit integer type *)
| JIfaceNil                         (* $ifaceNil *)
| JNil (t : tid)                    (* t.nil *)
| JZero (t : tid)                   (* t.zero() of an array or struct type *)
| JThrowNilPointerError             (* $throwNilPointerError, the nil func *)
| JTimeUnix (ms : number)           (* timePkg.Unix(0, ms * 1000000) *)
| JDate (v : jsval)                 (* new Date(...) for the compiled time value v *)
| JCall (f arg : jsval).            (* what the host callback f returns for arg *)

#[global] Instance jsval_eq_dec : EqDecision jsval.
Proof. solve_decision. Defined.

(** What [v.constructor] can be for an object. *)
Inductive class :=
| CObject | CArray | CDate | CFunction
| CInt8Array | CInt16Array | CInt32Array
| CUint8Array | CUint16Array | CUint32Array
| CFloat32Array | CFloat64Array
| CMap                 (* a JavaScript Map: the representation of a compiled map *)
| CStruct (t : tid)    (* built by t.ptr: a compiled struct of type t *)
| CCell                (* a compiled pointer to a non-struct variable *)
| COther.              (* any other host class *)

#[global] Instance class_eq_dec : EqDecision class.
Proof. solve_decision. Defined.

(** The body of a function object. *)
Inductive code :=
| NoCode
| HostCode                                              (* a host function *)
| CompiledCode                                          (* a compiled Go function *)
| InternalizedCode (v : jsval) (t : tid) (recv makeWrapper : jsval)
    (* the closure $internalize returns for kindFunc *)
| WrapperCode (v : jsval) (t : tid) (passThis : bool) (makeWrapper : jsval).
    (* the closure $externalizeFunction stores in v.$externalizeWrapper *)

Record object := {
  cls : class;
  props : list (jsstring * jsval);             (* own properties, in insertion order *)
  elems : list jsval;                          (* elements of an array or typed array *)
  entries : list (jsval * (jsval * jsval));    (* a Map: key, then the entry {k, v} *)
  body : code;
  time : number;                               (* getTime() of a Date *)
  target : jsval;                              (* $get() of a pointer cell *)
  isNode : bool                                (* instanceof $global.Node *)
}.

Abbreviation heap := (list object) (only parsing).

(** The seen-set [Map(t -> Map(v -> value))] of [$internalize], flattened to
    pairs. *)
Abbreviation seenMap := (list (nat * jsval * jsval)) (only parsing).

Definition emptyObject (c : class) : object :=
  {| cls := c; props := []; elems := []; entries := []; body := NoCode;
     time := NaN; target := JUndefined; isNode := false |}.

Definition withProps (o : object) (ps : list (jsstring * jsval)) : object :=
  {| cls := cls o; props := ps; elems := elems o; entries := entries o; body := body o;
     time := time o; target := target o; isNode := isNode o |}.

Definition withElems (o : object) (es : list jsval) : object :=
  {| cls := cls o; props := props o; elems := es; entries := entries o; body := body o;
     time := time o; target := target o; isNode := isNode o |}.

Definition withEntries (o : object) (es : list (jsval * (jsval * jsval))) : object :=
  {| cls := cls o; props := props o; elems := elems o; entries := es; body := body o;
     time := time o; target := target o; isNode := isNode o |}.

Definition withBody (o : object) (c : code) : object :=
  {| cls := cls o; props := props o; elems := elems o; entries := entries o; body := c;
     time := time o; target := target o; isNode := isNode o |}.

(** Allocation appends to the heap; the new address is the old size. *)
Definition alloc (h : heap) (o : object) : addr * heap := (length h, h ++ [o]).

(** Association lists with update in place, else append. *)
Fixpoint assocGet {K V} `{EqDecision K} (l : list (K * V)) (k : K) : option V :=
  match l with
  | [] => None
  | (k', v) :: l' => if decide (k' = k) then Some v else assocGet l' k
  end.

Fixpoint assocSet {K V} `{EqDecision K} (l : list (K * V)) (k : K) (v : V) : list (K * V) :=
  match l with
  | [] => [(k, v)]
  | (k', v') :: l' => if decide (k' = k) then (k, v) :: l' else (k', v') :: assocSet l' k v
  end.

Definition isArrayClass (c : class) : bool :=
  match c with
  | CArray | CInt8Array | CInt16Array | CInt32Array | CUint8Array | CUint16Array
  | CUint32Array | CFloat32Array | CFloat64Array => true
  | _ => false
  end.

(** The canonical numeric string of an index. *)
Definition indexKey (i : nat) : jsstring := numberToString (Fin (Z.of_nat i) 0).

Definition indexKeys (n : nat) : list jsstring := map indexKey (seq 0 n).

(** [v[p]] for own data properties (the prototype chain is not followed);
    reading a property of undefined or null is a TypeError. *)
Definition getProp (h : heap) (v : jsval) (p : jsstring) : res jsval :=
  match v with
  | JUndefined | JNull => TypeError "cannot read properties of undefined or null"
  | JRef a =>
      match h !! a with
      | None => TypeError "dangling reference"
      | Some o =>
          if isArrayClass (cls o) then
            if decide (p = str "length") then Ok (JNum (Fin (Z.of_nat (length (elems o))) 0))
            else match assocGet (zip (indexKeys (length (elems o))) (elems o)) p with
                 | Some x => Ok x
                 | None => Ok (default JUndefined (assocGet (props o) p))
                 end
          else Ok (default JUndefined (assocGet (props o) p))
      end
  | JStr s =>
      if decide (p = str "length") then Ok (JNum (Fin (Z.of_nat (length s)) 0))
      else match assocGet (zip (indexKeys (length s)) s) p with
           | Some c => Ok (JStr [c])
           | None => Ok JUndefined
           end
  | _ => Ok JUndefined
  end.

(** [o[p] = x] on a heap object. *)
Definition setProp (h : heap) (a : addr) (p : jsstring) (x : jsval) : res heap :=
  match h !! a with
  | None => TypeError "dangling reference"
  | Some o => Ok (<[a := withProps o (assocSet (props o) p x)]> h)
  end.

(** Modelled from the spec: [$keys] is defined outside the files at hand and
    the specification does not describe it; it is the helper of the prelude
    that returns the own keys of a value, Object.keys(v), and no keys for a
    value that is false as a condition, such as null and undefined. *)
Definition keys (h : heap) (v : jsval) : res (list jsstring) :=
  match v with
  | JUndefined | JNull => Ok []
  | JRef a =>
      match h !! a with
      | None => TypeError "dangling reference"
      | Some o =>
          Ok ((if isArrayClass (cls o) then indexKeys (length (elems o)) else [])
              ++ map fst (props o))
      end
  | JStr s => Ok (indexKeys (length s))
  | _ => Ok []
  end.

(** Truthiness ([!!v]). *)
Definition truthy (v : jsval) : bool :=
  match v with
  | JUndefined | JNull => false
  | JBool b => b
  | JNum NaN => false
  | JNum (Fin m _) => negb (m =? 0)
  | JNum (Infinity _) => true
  | JStr s => match s with [] => false | _ => true end
  | _ => true
  end.

(** ToString, for primitives and plain objects. *)
Definition toString (h : heap) (v : jsval) : res jsstring :=
  match v with
  | JUndefined => Ok (str "undefined")
  | JNull => Ok (str "null")
  | JBool b => Ok (if b then str "true" else str "false")
  | JNum n => Ok (numberToString n)
  | JStr s => Ok s
  | JRef a =>
      match h !! a with
      | Some o => if decide (cls o = CObject) then Ok (str "[object Object]")
                  else Unmodelled "ToString of a host object with its own conversion"
      | None => TypeError "dangling reference"
      end
  | _ => Unmodelled "ToString of a compiled value"
  end.

(** ToNumber, for primitives and plain objects. *)
Definition toNumber (h : heap) (v : jsval) : res number :=
  match v with
  | JUndefined => Ok NaN
  | JNull => Ok (Fin 0 0)
  | JBool b => Ok (if b then Fin 1 0 else Fin 0 0)
  | JNum n => Ok n
  | JStr s => Ok (stringToNumber s)
  | JRef a =>
      match h !! a with
      | Some o => if decide (cls o = CObject) then Ok NaN
                  else Unmodelled "ToNumber of a host object with its own conversion"
      | None => TypeError "dangling reference"
      end
  | _ => Unmodelled "ToNumber of a compiled value"
  end.

Definition parseInt (h : heap) (v : jsval) : res number :=
  s ← toString h v; Ok (parseIntString s).

Definition parseFloat (h : heap) (v : jsval) : res number :=
  s ← toString h v; Ok (parseFloatString s).

(** What [v.constructor] evaluates to. *)
Inductive constructor :=
| KType (t : tid)       (* a type descriptor of the compiled program *)
| KClass (c : class)    (* a host class *)
| KBoolean | KNumber | KString.

#[global] Instance constructor_eq_dec : EqDecision constructor.
Proof. solve_decision. Defined.

Definition constructorOf (rt : runtime) (h : heap) (v : jsval) : res constructor :=
  match v with
  | JUndefined | JNull => TypeError "cannot read properties of undefined or null"
  | JBool _ => Ok KBoolean
  | JNum _ => Ok KNumber
  | JStr _ => Ok KString
  | JRef a =>
      match h !! a with
      | Some o => match cls o with
                  | CStruct t => Ok (KType (ptr (types rt t)))
                  | c => Ok (KClass c)
                  end
      | None => TypeError "dangling reference"
      end
  | JNew t _ | JInt64 t _ _ => Ok (KType t)
  | JIfaceNil => Ok (KClass CObject)
  | JDate _ => Ok (KClass CDate)
  | _ => Unmodelled "constructor of a compiled value"
  end.

(** [v.$val] of a value held in an interface. *)
Definition dollarVal (v : jsval) : jsval :=
  match v with
  | JNew t x => x
  | JRef a => JRef a
  | JInt64 t hi lo => JInt64 t hi lo
  | _ => JUndefined
  end.

(** ** The bridge proper *)

Section WithRuntime.
Variable rt : runtime.

Definition ty (t : tid) : rtype := types rt t.

  (** [var $needsExternalization = t => ...] *)
Definition needsExternalization (t : tid) : bool :=
    match kind (ty t) with
    | kindBool | kindInt | kindInt8 | kindInt16 | kindInt32
    | kindUint | kindUint8 | kindUint16 | kindUint32 | kindUintptr
    | kindFloat32 | kindFloat64 => false
    | _ => negb (Nat.eqb t (jsObjectPtr rt))
    end.

  (** Modelled from the spec: [$flatten64] is defined outside the files at
      hand; by section 4.5 it flattens a 64-bit integer to the nearest
      Number, [high * 4294967296 + low]. *)
Definition flatten64 (v : jsval) : res jsval :=
    match v with
    | JInt64 _ high low => Ok (JNum (roundInt (high * 4294967296 + low)))
    | _ => Unmodelled "$flatten64 of a value that is no 64-bit integer"
    end.

  (** Modelled from the spec: the constructors of the 64-bit integer types
      are defined outside the files at hand; by section 4.6 the value is
      built directly from the host number.  [new t(0, low)] keeps
      [low >>> 0] as the low word and carries
      [Math.floor(Math.ceil(low) / 4294967296)] into the high word, which is
      reduced with [>> 0] (signed type) or [>>> 0] (unsigned type). *)
Definition newInt64 (h : heap) (t : tid) (low : jsval) : res jsval :=
    n ← toNumber h low;
    let carry := match ceil n with
                 | Fin c _ => Fin (c / 4294967296) 0
                 | other => other
                 end in
    let high := match kind (ty t) with
                | kindUint64 => toUint32 carry
                | _ => toInt32 carry
                end in
    Ok (JInt64 t high (toUint32 n)).

  (** Modelled from the spec: [t.zero()] is defined outside the files at
      hand; the zero value of a descriptor, by kind.  The zero array and the
      zero struct are fresh composites and stay symbolic. *)
Definition zero (t : tid) : jsval :=
    match kind (ty t) with
    | kindBool => JBool false
    | kindInt | kindInt8 | kindInt16 | kindInt32
    | kindUint | kindUint8 | kindUint16 | kindUint32 | kindUintptr
    | kindFloat32 | kindFloat64 => JNum (Fin 0 0)
    | kindInt64 | kindUint64 => JInt64 t 0 0
    | kindString => JStr []
    | kindInterface => JIfaceNil
    | kindFunc => JThrowNilPointerError
    | kindMap => JBool false
    | kindArray | kindStruct | kindComplex64 | kindComplex128 => JZero t
    | kindPtr | kindSlice | kindChan | kindUnsafePointer => JNil t
    end.

  (** Modelled from the spec: [new t.ptr()] is generated per struct type
      outside the files at hand; by section 4.6 it allocates a zero-valued
      instance, every field holding the zero value of its type. *)
Definition newStruct (t : tid) (h : heap) : addr * heap :=
    alloc h (withProps (emptyObject (CStruct t))
                       (map (fun f => (prop f, zero (typ f))) (fields (ty t)))).

  (** Modelled from the spec: [$assertType(value, type, false)] is defined
      outside the files at hand; by section 4.6 the value behind the back
      reference is asserted against the target descriptor and returned.  The
      assertion holds for a non-interface target when the value was built by
      that very type, for an interface target when the method set of the
      value's type has every method of the interface; otherwise it panics. *)
Definition assertType (h : heap) (value : jsval) (t : tid) : res jsval :=
    if decide (value = JIfaceNil) then Panic "interface conversion: interface is nil"
    else
      c ← constructorOf rt h value;
      match c with
      | KType vt =>
          match kind (ty t) with
          | kindInterface =>
              if forallb (fun m => bool_decide (m ∈ methodSet (ty vt))) (methods (ty t))
              then Ok value
              else Panic "interface conversion: missing method"
          | _ =>
              if Nat.eqb vt t then Ok (dollarVal value)
              else Panic "interface conversion: wrong dynamic type"
          end
      | _ => Unmodelled "$assertType of a value that is no compiled value"
      end.

  (** [v.$get()] of a non-nil pointer: a pointer to a struct is the struct
      object itself, another pointer reads its cell. *)
Definition dollarGet (h : heap) (v : jsval) : res jsval :=
    match v with
    | JRef a =>
        match h !! a with
        | Some o => match cls o with
                    | CStruct _ => Ok v
                    | CCell => Ok (target o)
                    | _ => TypeError "$get is not a function"
                    end
        | None => TypeError "dangling reference"
        end
    | JUndefined | JNull => TypeError "cannot read properties of undefined or null"
    | _ => Unmodelled "$get of a value that is no pointer object"
    end.

  (** Modelled from the spec: [$mapArray] is defined outside the files at
      hand: a new array of the same length whose elements are [f] of the
      elements, computed in index order. *)
Fixpoint mapElems (f : jsval -> heap -> res (jsval * heap)) (l : list jsval) (h : heap)
    : res (list jsval * heap) :=
    match l with
    | [] => Ok ([], h)
    | e :: l' =>
        '(x, h1) ← f e h;
        '(xs, h2) ← mapElems f l' h1;
        Ok (x :: xs, h2)
    end.

Definition mapArray (f : jsval -> heap -> res (jsval * heap)) (array : jsval) (h : heap)
    : res (jsval * heap) :=
    match array with
    | JUndefined | JNull => TypeError "cannot read properties of undefined or null"
    | JRef a =>
        match h !! a with
        | Some o =>
            if decide (cls o = CArray) then
              let (b, h1) := alloc h (withElems (emptyObject CArray)
                                        (repeat JUndefined (length (elems o)))) in
              '(xs, h2) ← mapElems f (elems o) h1;
              match h2 !! b with
              | Some ob => Ok (JRef b, <[b := withElems ob xs]> h2)
              | None => TypeError "dangling reference"
              end
            else Unmodelled "$mapArray over an object that is no Array"
        | None => TypeError "dangling reference"
        end
    | _ => Unmodelled "$mapArray over a value that is no Array"
    end.

  (** Modelled from the spec: [$sliceToNativeArray] is defined outside the
      files at hand: a fresh host array with the elements of the slice. *)
Definition sliceToNativeArray (v : jsval) (h : heap) : res (jsval * heap) :=
    match v with
    | JNew _ (JRef a) =>
        match h !! a with
        | Some o =>
            if decide (cls o = CArray) then
              let (b, h1) := alloc h (withElems (emptyObject CArray) (elems o)) in
              Ok (JRef b, h1)
            else Unmodelled "$sliceToNativeArray of a typed array"
        | None => TypeError "dangling reference"
        end
    | _ => Unmodelled "$sliceToNativeArray of a value that is no slice"
    end.

  (** *** $externalize *)

  (** The loop of the string case: scalar by scalar from [i], appending to [s]. *)
Fixpoint externalizeRunes (fuel : nat) (v : jsstring) (i : Z) (s : jsstring) : res jsstring :=
    if i <? Z.of_nat (length v) then
      match fuel with
      | O => OutOfFuel
      | S fuel' =>
          let r := decodeRune v i in
          let c := fst r in
          if 65535 <? c then
            let hi := (c - 65536) / 1024 + 55296 in
            let lo := Z.rem (c - 65536) 1024 + 56320 in
            externalizeRunes fuel' v (i + snd r) (s ++ [fromCharCode hi; fromCharCode lo])
          else
            externalizeRunes fuel' v (i + snd r) (s ++ [fromCharCode c])
      end
    else Ok s.

Definition externalizeString (v : jsstring) : res jsstring :=
    if isASCII v then Ok v else externalizeRunes (length v) v 0 [].

  (** [searchJsObject] of the struct case of [$externalize]; [None] is the
      sentinel [noJsObject]. *)
Fixpoint searchJsObjectOut (fuel : nat) (h : heap) (v : jsval) (t : tid)
    : res (option jsval) :=
    match fuel with
    | O => OutOfFuel
    | S fuel' =>
        if Nat.eqb t (jsObjectPtr rt) then Ok (Some v)
        else
          match kind (ty t) with
          | kindPtr =>
              if decide (v = JNil t) then Ok None
              else x ← dollarGet h v; searchJsObjectOut fuel' h x (elem (ty t))
          | kindStruct =>
              match fields (ty t) with
              | [] => Ok None
              | f :: _ => x ← getProp h v (prop f); searchJsObjectOut fuel' h x (typ f)
              end
          | kindInterface =>
              c ← constructorOf rt h v;
              match c with
              | KType t' => searchJsObjectOut fuel' h (dollarVal v) t'
              | _ => Ok None
              end
          | _ => Ok None
          end
    end.

  (** [var $externalizeFunction = (v, t, passThis, makeWrapper) => ...] *)
Definition externalizeFunction (v : jsval) (t : tid) (passThis : bool) (makeWrapper : jsval)
      (h : heap) : res (jsval * heap) :=
    if decide (v = JThrowNilPointerError) then Ok (JNull, h)
    else
      w ← getProp h v (str "$externalizeWrapper");
      if decide (w = JUndefined) then
        match v with
        | JRef a =>
            let (b, h1) := alloc h (withBody (emptyObject CFunction)
                                      (WrapperCode v t passThis makeWrapper)) in
            h2 ← setProp h1 a (str "$externalizeWrapper") (JRef b);
            Ok (JRef b, h2)
        | _ => Unmodelled "$externalizeFunction of a value that is no function object"
        end
      else Ok (w, h).

  (** The field loop of the struct case: one property per exported field. *)
Fixpoint externalizeFields (self : jsval -> tid -> jsval -> heap -> res (jsval * heap))
      (v : jsval) (o : addr) (makeWrapper : jsval) (fs : list field) (h : heap) : res heap :=
    match fs with
    | [] => Ok h
    | f :: fs' =>
        if negb (exported f) then externalizeFields self v o makeWrapper fs' h
        else
          x ← getProp h v (prop f);
          '(y, h1) ← self x (typ f) makeWrapper h;
          h2 ← setProp h1 o (name f) y;
          externalizeFields self v o makeWrapper fs' h2
    end.

  (** The entry loop of the map case. *)
Fixpoint externalizeEntries (self : jsval -> tid -> jsval -> heap -> res (jsval * heap))
      (t : tid) (m : addr) (makeWrapper : jsval) (es : list (jsval * (jsval * jsval)))
      (h : heap) : res heap :=
    match es with
    | [] => Ok h
    | (_, (k, x)) :: es' =>
        '(k', h1) ← self k (key (ty t)) makeWrapper h;
        '(x', h2) ← self x (elem (ty t)) makeWrapper h1;
        p ← toString h2 k';
        h3 ← setProp h2 m p x';
        externalizeEntries self t m makeWrapper es' h3
    end.

  (** The body of [$externalize]; [self] is the recursive call. *)
Definition externalize_body
      (self : jsval -> tid -> jsval -> heap -> res (jsval * heap)) (fuel : nat)
      (v : jsval) (t : tid) (makeWrapper : jsval) (h : heap) : res (jsval * heap) :=
    if Nat.eqb t (jsObjectPtr rt) then Ok (v, h)
    else
      match kind (ty t) with
      | kindBool | kindInt | kindInt8 | kindInt16 | kindInt32
      | kindUint | kindUint8 | kindUint16 | kindUint32 | kindUintptr
      | kindFloat32 | kindFloat64 => Ok (v, h)
      | kindInt64 | kindUint64 => x ← flatten64 v; Ok (x, h)
      | kindArray =>
          if needsExternalization (elem (ty t))
          then mapArray (fun e => self e (elem (ty t)) makeWrapper) v h
          else Ok (v, h)
      | kindFunc => externalizeFunction v t false makeWrapper h
      | kindInterface =>
          if decide (v = JIfaceNil) then Ok (JNull, h)
          else
            c ← constructorOf rt h v;
            match c with
            | KType t' =>
                if Nat.eqb t' (jsObjectPtr rt) then
                  match v with
                  | JNew _ x => Ok (x, h)
                  | _ => x ← getProp h (dollarVal v) (str "object"); Ok (x, h)
                  end
                else self (dollarVal v) t' makeWrapper h
            | _ => Panic "cannot externalize undefined"
            end
      | kindMap =>
          match v with
          | JRef a =>
              match h !! a with
              | Some o =>
                  if decide (cls o = CMap) then
                    let (m, h1) := alloc h (emptyObject CObject) in
                    h2 ← externalizeEntries self t m makeWrapper (entries o) h1;
                    Ok (JRef m, h2)
                  else Unmodelled "$externalize of a map that is no Map object"
              | None => TypeError "dangling reference"
              end
          | _ =>
              k ← getProp h v (str "keys");
              if decide (k = JUndefined) then Ok (JNull, h)
              else Unmodelled "$externalize of a map that is no Map object"
          end
      | kindPtr =>
          if decide (v = JNil t) then Ok (JNull, h)
          else x ← dollarGet h v; self x (elem (ty t)) makeWrapper h
      | kindSlice =>
          match v with
          | JNil _ => Ok (JNull, h)
          | _ =>
              '(arr, h1) ← sliceToNativeArray v h;
              if needsExternalization (elem (ty t))
              then mapArray (fun e => self e (elem (ty t)) makeWrapper) arr h1
              else Ok (arr, h1)
          end
      | kindString =>
          match v with
          | JStr s => s' ← externalizeString s; Ok (JStr s', h)
          | _ => Unmodelled "$externalize of a string that is no string"
          end
      | kindStruct =>
          isTime ← match timePkg rt with
                   | None => Ok false
                   | Some tTime => c ← constructorOf rt h v;
                                   Ok (bool_decide (c = KType (ptr (ty tTime))))
                   end;
          if (isTime : bool) then Ok (JDate v, h)
          else
            o ← searchJsObjectOut fuel h v t;
            match o with
            | Some o => Ok (o, h)
            | None =>
                if decide (makeWrapper = JUndefined) then
                  let (o, h1) := alloc h (emptyObject CObject) in
                  h2 ← externalizeFields self v o makeWrapper (fields (ty t)) h1;
                  Ok (JRef o, h2)
                else Ok (JCall makeWrapper v, h)
            end
      | _ => Panic ("cannot externalize " ++ tstring (ty t))
      end.

  (** [var $externalize = (v, t, makeWrapper) => ...]; the fuel bounds the
      depth of the recursion. *)
Fixpoint externalize (fuel : nat) (v : jsval) (t : tid) (makeWrapper : jsval) (h : heap)
    : res (jsval * heap) :=
    match fuel with
    | O => OutOfFuel
    | S fuel' => externalize_body (externalize fuel') fuel' v t makeWrapper h
    end.

  (** *** $internalize *)

Definition typeOf (h : heap) (v : jsval) : string :=
    match v with
    | JUndefined => "undefined"
    | JBool _ => "boolean"
    | JNum _ => "number"
    | JStr _ => "string"
    | JThrowNilPointerError => "function"
    | JRef a => match h !! a with
                | Some o => if decide (cls o = CFunction) then "function" else "object"
                | None => "object"
                end
    | _ => "object"
    end.

  (** The loop of the string case, on the code units from the current index
      on: a high surrogate is combined with the unit after it (NaN when the
      string ends there) and the index advances by two. *)
Fixpoint internalizeUnits (v : jsstring) : jsstring :=
    match v with
    | [] => []
    | hi :: rest =>
        if (55296 <=? hi) && (hi <=? 56319) then
          match rest with
          | lo :: rest' =>
              encodeRune ((hi - 55296) * 1024 + lo - 56320 + 65536) ++ internalizeUnits rest'
          | [] => encodeRuneNaN
          end
        else encodeRune hi ++ internalizeUnits rest
    end.

Definition internalizeString (v : jsstring) : jsstring :=
    if isASCII v then v else internalizeUnits v.

  (** [searchJsObject] of the struct case of [$internalize]; it walks the
      descriptors only, [v] is the host value being internalized. *)
Fixpoint searchJsObjectIn (fuel : nat) (v : jsval) (t : tid) (h : heap)
    : res (option jsval * heap) :=
    match fuel with
    | O => OutOfFuel
    | S fuel' =>
        if Nat.eqb t (jsObjectPtr rt) then Ok (Some v, h)
        else if Nat.eqb t (elem (ty (jsObjectPtr rt)))
        then Panic "cannot internalize js.Object, use *js.Object instead"
        else
          match kind (ty t) with
          | kindPtr => searchJsObjectIn fuel' v (elem (ty t)) h
          | kindStruct =>
              match fields (ty t) with
              | [] => Ok (None, h)
              | f :: _ =>
                  '(o, h1) ← searchJsObjectIn fuel' v (typ f) h;
                  match o with
                  | Some o' =>
                      let (n, h2) := newStruct t h1 in
                      h3 ← setProp h2 n (prop f) o';
                      Ok (Some (JRef n), h3)
                  | None => Ok (None, h1)
                  end
              end
          | _ => Ok (None, h)
          end
    end.

  (** Modelled from the spec: [t.key.keyFor] is defined outside the files at
      hand; by section 4.6 the key identity of the key kind governs
      de-duplication, so a key is identified by its value. *)
Definition keyFor (k : jsval) : jsval := k.

  (** [m.set(key, entry)] on a Map object. *)
Definition mapSet (h : heap) (m : addr) (k : jsval) (entry : jsval * jsval) : res heap :=
    match h !! m with
    | None => TypeError "dangling reference"
    | Some o => Ok (<[m := withEntries o (assocSet (entries o) k entry)]> h)
    end.

Section Body.
    (** The recursive call [$internalize(v, t, recv, seen, makeWrapper)];
        [seen = None] is an absent (undefined) fourth argument.  Next to the
        value a call returns the seen-set it worked on, which is the
        caller's own Map when the caller passed one. *)
Variable self : jsval -> tid -> jsval -> option seenMap -> jsval -> heap
                    -> res (jsval * seenMap * heap).

    (** [$internalize(e, t, makeWrapper)]: the three-argument calls bind
        [makeWrapper] to the parameter [recv] and pass no seen-set. *)
Definition self3 (t : tid) (makeWrapper : jsval) (e : jsval) (h : heap)
      : res (jsval * heap) :=
      '(x, _, h') ← self e t makeWrapper None JUndefined h; Ok (x, h').

    (** The field loop of the struct case. *)
Fixpoint internalizeFields (v : jsval) (n : addr) (recv makeWrapper : jsval)
        (fs : list field) (seen : seenMap) (h : heap) : res (seenMap * heap) :=
      match fs with
      | [] => Ok (seen, h)
      | f :: fs' =>
          if negb (exported f) then internalizeFields v n recv makeWrapper fs' seen h
          else
            jsProp ← getProp h v (name f);
            '(x, seen1, h1) ← self jsProp (typ f) recv (Some seen) makeWrapper h;
            h2 ← setProp h1 n (prop f) x;
            internalizeFields v n recv makeWrapper fs' seen1 h2
      end.

    (** The key loop of the map case. *)
Fixpoint internalizeKeys (v : jsval) (t : tid) (m : addr) (recv makeWrapper : jsval)
        (ks : list jsstring) (seen : seenMap) (h : heap) : res (seenMap * heap) :=
      match ks with
      | [] => Ok (seen, h)
      | k0 :: ks' =>
          '(k, seen1, h1) ← self (JStr k0) (key (ty t)) recv (Some seen) makeWrapper h;
          x0 ← getProp h1 v k0;
          '(x, seen2, h2) ← self x0 (elem (ty t)) recv (Some seen1) makeWrapper h1;
          h3 ← mapSet h2 m (keyFor k) (k, x);
          internalizeKeys v t m recv makeWrapper ks' seen2 h3
      end.

    (** The interface case after the checks for null and undefined:
        dispatch on [v.constructor]. *)
Definition internalizeInterface (v : jsval) (recv : jsval) (seen : seenMap)
        (makeWrapper : jsval) (h : heap) : res (jsval * seenMap * heap) :=
      c ← constructorOf rt h v;
      match c with
      | KClass CInt8Array => Ok (JNew (sliceType rt (dInt8 rt)) v, seen, h)
      | KClass CInt16Array => Ok (JNew (sliceType rt (dInt16 rt)) v, seen, h)
      | KClass CInt32Array => Ok (JNew (sliceType rt (dInt rt)) v, seen, h)
      | KClass CUint8Array => Ok (JNew (sliceType rt (dUint8 rt)) v, seen, h)
      | KClass CUint16Array => Ok (JNew (sliceType rt (dUint16 rt)) v, seen, h)
      | KClass CUint32Array => Ok (JNew (sliceType rt (dUint rt)) v, seen, h)
      | KClass CFloat32Array => Ok (JNew (sliceType rt (dFloat32 rt)) v, seen, h)
      | KClass CFloat64Array => Ok (JNew (sliceType rt (dFloat64 rt)) v, seen, h)
      | KClass CArray =>
          '(x, h1) ← self3 (sliceType rt (emptyInterface rt)) makeWrapper v h;
          Ok (x, seen, h1)
      | KBoolean => Ok (JNew (dBool rt) (JBool (truthy v)), seen, h)
      | KClass CDate =>
          match timePkg rt with
          | None => Ok (JNew (jsObjectPtr rt) v, seen, h)
          | Some tTime =>
              '(x, h1) ← self3 tTime makeWrapper v h;
              Ok (JNew tTime x, seen, h1)
          end
      | KClass CFunction =>
          let funcT := funcType rt [sliceType rt (emptyInterface rt)] [jsObjectPtr rt] true in
          '(x, h1) ← self3 funcT makeWrapper v h;
          Ok (JNew funcT x, seen, h1)
      | KNumber => n ← parseFloat h v; Ok (JNew (dFloat64 rt) (JNum n), seen, h)
      | KString =>
          '(x, h1) ← self3 (dString rt) makeWrapper v h;
          Ok (JNew (dString rt) x, seen, h1)
      | _ =>
          let node := match v with
                      | JRef a => match h !! a with
                                  | Some o => globalNode rt && isNode o
                                  | None => false
                                  end
                      | _ => false
                      end in
          if node then Ok (JNew (jsObjectPtr rt) v, seen, h)
          else
            let mapT := mapType rt (dString rt) (emptyInterface rt) in
            '(x, seen1, h1) ← self v mapT recv (Some seen) makeWrapper h;
            Ok (JNew mapT x, seen1, h1)
      end.

    (** The [switch (t.kind)] of [$internalize]; [seen0] is the seen-set
        after the cache lookup missed, [fuel] bounds [searchJsObject]. *)
Definition internalize_switch (fuel : nat)
        (v : jsval) (t : tid) (recv : jsval) (seen0 : seenMap) (makeWrapper : jsval)
        (h : heap) : res (jsval * seenMap * heap) :=
      match kind (ty t) with
      | kindBool => Ok (JBool (truthy v), seen0, h)
      | kindInt => n ← parseInt h v; Ok (JNum n, seen0, h)
      | kindInt8 => n ← parseInt h v; Ok (JNum (sar (shl n 24) 24), seen0, h)
      | kindInt16 => n ← parseInt h v; Ok (JNum (sar (shl n 16) 16), seen0, h)
      | kindInt32 => n ← parseInt h v; Ok (JNum (sar n 0), seen0, h)
      | kindUint => n ← parseInt h v; Ok (JNum n, seen0, h)
      | kindUint8 => n ← parseInt h v; Ok (JNum (shr (shl n 24) 24), seen0, h)
      | kindUint16 => n ← parseInt h v; Ok (JNum (shr (shl n 16) 16), seen0, h)
      | kindUint32 | kindUintptr => n ← parseInt h v; Ok (JNum (shr n 0), seen0, h)
      | kindInt64 | kindUint64 => x ← newInt64 h t v; Ok (x, seen0, h)
      | kindFloat32 | kindFloat64 => n ← parseFloat h v; Ok (JNum n, seen0, h)
      | kindArray =>
          match v with
          | JUndefined | JNull =>
              Panic ("cannot internalize "
                     ++ (if decide (v = JNull) then "null" else "undefined")
                     ++ " as a " ++ tstring (ty t))
          | _ =>
              l ← getProp h v (str "length");
              if negb (bool_decide (l = JNum (Fin (len (ty t)) 0)))
              then Panic "got array with wrong size from JavaScript native"
              else
                '(x, h1) ← mapArray (self3 (elem (ty t)) makeWrapper) v h;
                Ok (x, seen0, h1)
          end
      | kindFunc =>
          let (f, h1) := alloc h (withBody (emptyObject CFunction)
                                    (InternalizedCode v t recv makeWrapper)) in
          Ok (JRef f, seen0, h1)
      | kindInterface =>
          match methods (ty t) with
          | _ :: _ => Panic ("cannot internalize " ++ tstring (ty t))
          | [] =>
              match v with
              | JNull => Ok (JIfaceNil, seen0, h)
              | JUndefined => Ok (JNew (jsObjectPtr rt) JUndefined, seen0, h)
              | _ => internalizeInterface v recv seen0 makeWrapper h
              end
          end
      | kindMap =>
          let (m, h1) := alloc h (emptyObject CMap) in
          let seen1 := (t, v, JRef m) :: seen0 in
          ks ← keys h1 v;
          '(seen2, h2) ← internalizeKeys v t m recv makeWrapper ks seen1 h1;
          Ok (JRef m, seen2, h2)
      | kindPtr | kindSlice =>
          if bool_decide (kind (ty t) = kindPtr)
             && bool_decide (kind (ty (elem (ty t))) = kindStruct)
          then
            '(x, h1) ← self3 (elem (ty t)) makeWrapper v h;
            Ok (x, seen0, h1)
          else
            match v with
            | JUndefined | JNull => Ok (zero t, seen0, h)
            | _ =>
                '(arr, h1) ← mapArray (self3 (elem (ty t)) makeWrapper) v h;
                Ok (JNew t arr, seen0, h1)
            end
      | kindString =>
          s ← toString h v; Ok (JStr (internalizeString s), seen0, h)
      | kindStruct =>
          '(o, h1) ← searchJsObjectIn fuel v t h;
          match o with
          | Some o' => Ok (o', seen0, h1)
          | None =>
              let (n, h2) := newStruct t h1 in
              '(seen1, h3) ← internalizeFields v n recv makeWrapper
                                (fields (ty t)) seen0 h2;
              Ok (JRef n, seen1, h3)
          end
      | _ => Panic ("cannot internalize " ++ tstring (ty t))
      end.

    (** [v && v.__internal_object__]: the back reference of a host value to
        the compiled value it wraps, [JUndefined] when there is none. *)
Definition internalObject (h : heap) (v : jsval) : res jsval :=
      if truthy v then getProp h v (str "__internal_object__") else Ok JUndefined.

    (** The case of the time.Time descriptor. *)
Definition internalizeTime (v : jsval) (seen0 : seenMap) (h : heap)
      : res (jsval * seenMap * heap) :=
      match v with
      | JUndefined | JNull =>
          Panic ("cannot internalize time.Time from " ++ typeOf h v ++ ", must be Date")
      | _ =>
          c ← constructorOf rt h v;
          if bool_decide (c = KClass CDate) then
            match v with
            | JRef a => match h !! a with
                        | Some o => Ok (JTimeUnix (time o), seen0, h)
                        | None => TypeError "dangling reference"
                        end
            | _ => Unmodelled "getTime of a Date built by $externalize"
            end
          else Panic ("cannot internalize time.Time from " ++ typeOf h v ++ ", must be Date")
      end.

    (** The body of [$internalize]: the checks before the switch, the cache
        lookup, the switch. *)
Definition internalize_body (fuel : nat)
        (v : jsval) (t : tid) (recv : jsval) (seen : option seenMap) (makeWrapper : jsval)
        (h : heap) : res (jsval * seenMap * heap) :=
      let seen0 := default [] seen in
      if Nat.eqb t (jsObjectPtr rt) then Ok (v, seen0, h)
      else if Nat.eqb t (elem (ty (jsObjectPtr rt)))
      then Panic "cannot internalize js.Object, use *js.Object instead"
      else
        internal ← internalObject h v;
        if negb (bool_decide (internal = JUndefined)) then
          x ← assertType h internal t; Ok (x, seen0, h)
        else if bool_decide (timePkg rt = Some t) then internalizeTime v seen0 h
        else
          match assocGet seen0 (t, v) with
          | Some cached => Ok (cached, seen0, h)
          | None => internalize_switch fuel v t recv seen0 makeWrapper h
          end.
End Body.

  (** [var $internalize = (v, t, recv, seen, makeWrapper) => ...]; the fuel
      bounds the depth of the recursion. *)
Fixpoint internalize (fuel : nat) (v : jsval) (t : tid) (recv : jsval)
      (seen : option seenMap) (makeWrapper : jsval) (h : heap)
    : res (jsval * seenMap * heap) :=
    match fuel with
    | O => OutOfFuel
    | S fuel' => internalize_body (internalize fuel') fuel' v t recv seen makeWrapper h
    end.

End WithRuntime.
(** ** A sample program: its descriptor table and runtime *)

Definition basicType (k : Kind) (s : string) : rtype :=
  {| kind := k; tstring := s; elem := 0%nat; key := 0%nat; len := 0; fields := [];
     methods := []; methodSet := []; params := []; results := []; variadic := false;
     ptr := 0%nat |}.

Definition ptrType (s : string) (e : tid) : rtype :=
  {| kind := kindPtr; tstring := s; elem := e; key := 0%nat; len := 0; fields := [];
     methods := []; methodSet := []; params := []; results := []; variadic := false;
     ptr := 0%nat |}.

Definition structType (s : string) (fs : list field) (p : tid) : rtype :=
  {| kind := kindStruct; tstring := s; elem := 0%nat; key := 0%nat; len := 0; fields := fs;
     methods := []; methodSet := []; params := []; results := []; variadic := false;
     ptr := p |}.

Definition withMethodSet (t : rtype) (ms : list jsstring) : rtype :=
  {| kind := kind t; tstring := tstring t; elem := elem t; key := key t; len := len t;
     fields := fields t; methods := methods t; methodSet := ms; params := params t;
     results := results t; variadic := variadic t; ptr := ptr t |}.

Definition interfaceType (s : string) (ms : list jsstring) : rtype :=
  {| kind := kindInterface; tstring := s; elem := 0%nat; key := 0%nat; len := 0; fields := [];
     methods := ms; methodSet := []; params := []; results := []; variadic := false;
     ptr := 0%nat |}.

Definition sliceOf (s : string) (e : tid) : rtype :=
  {| kind := kindSlice; tstring := s; elem := e; key := 0%nat; len := 0; fields := [];
     methods := []; methodSet := []; params := []; results := []; variadic := false;
     ptr := 0%nat |}.

Definition arrayOf (s : string) (e : tid) (n : Z) : rtype :=
  {| kind := kindArray; tstring := s; elem := e; key := 0%nat; len := n; fields := [];
     methods := []; methodSet := []; params := []; results := []; variadic := false;
     ptr := 0%nat |}.

Definition mapOf (s : string) (k e : tid) : rtype :=
  {| kind := kindMap; tstring := s; elem := e; key := k; len := 0; fields := [];
     methods := []; methodSet := []; params := []; results := []; variadic := false;
     ptr := 0%nat |}.

Definition funcOf (s : string) (ps rs : list tid) (v : bool) : rtype :=
  {| kind := kindFunc; tstring := s; elem := 0%nat; key := 0%nat; len := 0; fields := [];
     methods := []; methodSet := []; params := ps; results := rs; variadic := v;
     ptr := 0%nat |}.

Definition fld (n : string) (ex : bool) (t : tid) : field :=
  {| prop := str n; name := str n; exported := ex; typ := t |}.

(** Descriptor identities of the sample program. *)
Definition tBool : tid := 1%nat.
Definition tInt : tid := 2%nat.
Definition tInt8 : tid := 3%nat.
Definition tInt16 : tid := 4%nat.
Definition tInt32 : tid := 5%nat.
Definition tInt64 : tid := 6%nat.
Definition tUint : tid := 7%nat.
Definition tUint8 : tid := 8%nat.
Definition tUint16 : tid := 9%nat.
Definition tUint32 : tid := 10%nat.
Definition tUint64 : tid := 11%nat.
Definition tUintptr : tid := 12%nat.
Definition tFloat32 : tid := 13%nat.
Definition tFloat64 : tid := 14%nat.
Definition tString : tid := 15%nat.
Definition tEmptyInterface : tid := 16%nat.
Definition tJsObject : tid := 17%nat.       (* js.Object *)
Definition tJsObjectPtr : tid := 18%nat.    (* *js.Object *)
Definition tTime : tid := 19%nat.           (* time.Time *)
Definition tTimePtr : tid := 20%nat.
Definition tStringer : tid := 21%nat.       (* interface { String() string } *)
Definition tS : tid := 22%nat.              (* struct { A int; b int } *)
Definition tSPtr : tid := 23%nat.
Definition tNode : tid := 24%nat.           (* struct { Val int; Next *Node } *)
Definition tNodePtr : tid := 25%nat.
Definition tInner : tid := 26%nat.          (* struct { *js.Object } *)
Definition tInnerPtr : tid := 27%nat.
Definition tOuter : tid := 28%nat.          (* struct { Inner } *)
Definition tOuterPtr : tid := 29%nat.
Definition tSliceEmpty : tid := 30%nat.     (* []interface{} *)
Definition tMapStringEmpty : tid := 31%nat. (* map[string]interface{} *)
Definition tFuncVariadic : tid := 32%nat.   (* func(...interface{}) *js.Object *)
Definition tM : tid := 33%nat.              (* type M map[string]M *)
Definition tEmpty : tid := 34%nat.          (* struct {} *)
Definition tEmptyPtr : tid := 35%nat.
Definition tL : tid := 36%nat.              (* type L []L *)
Definition tByValue : tid := 37%nat.        (* struct { o js.Object } *)
Definition tByValuePtr : tid := 38%nat.
Definition tTemp : tid := 39%nat.           (* struct { Deg int } with method String *)
Definition tTempPtr : tid := 40%nat.
Definition tT : tid := 41%nat.              (* struct { A string; B float64; C interface{} } *)
Definition tTPtr : tid := 42%nat.
Definition tP : tid := 43%nat.              (* struct { A string; b int } *)
Definition tPPtr : tid := 44%nat.

Definition sampleTable : list rtype :=
  [ basicType kindUnsafePointer "invalid";
    basicType kindBool "bool"; basicType kindInt "int"; basicType kindInt8 "int8";
    basicType kindInt16 "int16"; basicType kindInt32 "int32"; basicType kindInt64 "int64";
    basicType kindUint "uint"; basicType kindUint8 "uint8"; basicType kindUint16 "uint16";
    basicType kindUint32 "uint32"; basicType kindUint64 "uint64";
    basicType kindUintptr "uintptr"; basicType kindFloat32 "float32";
    basicType kindFloat64 "float64"; basicType kindString "string";
    interfaceType "interface {}" [];
    structType "js.Object" [fld "object" false tJsObjectPtr] tJsObjectPtr;
    ptrType "*js.Object" tJsObject;
    structType "time.Time" [fld "wall" false tUint64; fld "ext" false tInt64] tTimePtr;
    ptrType "*time.Time" tTime;
    interfaceType "fmt.Stringer" [str "String"];
    structType "main.S" [fld "A" true tInt; fld "b" false tInt] tSPtr;
    ptrType "*main.S" tS;
    structType "main.Node" [fld "Val" true tInt; fld "Next" true tNodePtr] tNodePtr;
    ptrType "*main.Node" tNode;
    structType "main.Inner" [fld "Object" true tJsObjectPtr] tInnerPtr;
    ptrType "*main.Inner" tInner;
    structType "main.Outer" [fld "Inner" true tInner] tOuterPtr;
    ptrType "*main.Outer" tOuter;
    sliceOf "[]interface {}" tEmptyInterface;
    mapOf "map[string]interface {}" tString tEmptyInterface;
    funcOf "func(...interface {}) *js.Object" [tSliceEmpty] [tJsObjectPtr] true;
    mapOf "main.M" tString tM;
    structType "main.Empty" [] tEmptyPtr;
    ptrType "*main.Empty" tEmpty;
    sliceOf "main.L" tL;
    structType "main.ByValue" [fld "o" false tJsObject] tByValuePtr;
    ptrType "*main.ByValue" tByValue;
    structType "main.Temp" [fld "Deg" true tInt] tTempPtr;
    withMethodSet (ptrType "*main.Temp" tTemp) [str "String"];
    structType "main.T" [fld "A" true tString; fld "B" true tFloat64;
                         fld "C" true tEmptyInterface] tTPtr;
    ptrType "*main.T" tT;
    structType "main.P" [fld "A" true tString; fld "b" false tInt] tPPtr;
    ptrType "*main.P" tP ].

Definition sampleRuntime : runtime :=
  {| types := fun t => nth t sampleTable (basicType kindUnsafePointer "invalid");
     jsObjectPtr := tJsObjectPtr;
     timePkg := Some tTime;
     dBool := tBool; dString := tString;
     dInt := tInt; dInt8 := tInt8; dInt16 := tInt16;
     dUint := tUint; dUint8 := tUint8; dUint16 := tUint16;
     dFloat32 := tFloat32; dFloat64 := tFloat64;
     emptyInterface := tEmptyInterface;
     sliceType := fun e => if Nat.eqb e tEmptyInterface then tSliceEmpty else 0%nat;
     mapType := fun k e => if Nat.eqb k tString && Nat.eqb e tEmptyInterface
                           then tMapStringEmpty else 0%nat;
     funcType := fun ps rs v => tFuncVariadic;
     globalNode := false |}.

(** A plain host object with the given properties. *)
Definition plainObject (ps : list (jsstring * jsval)) : object :=
  withProps (emptyObject CObject) ps.

(** A compiled struct of type [t] with the given field values. *)
Definition structObject (t : tid) (ps : list (jsstring * jsval)) : object :=
  withProps (emptyObject (CStruct t)) ps.

Definition hostArray (es : list jsval) : object := withElems (emptyObject CArray) es.

(** ** Vocabulary of the properties *)

(** The call [$internalize(v, t, recv, seen, ...)] gets as far as the cache
    lookup and misses: [t] is neither the host handle pointer nor its
    element type, [v] carries no back reference, [t] is not time.Time and
    the seen-set has no entry for [(t, v)]. *)
Definition reachesSwitch (rt : runtime) (h : heap) (v : jsval) (t : tid)
    (seen : option seenMap) : Prop :=
  t <> jsObjectPtr rt /\
  t <> elem (ty rt (jsObjectPtr rt)) /\
  internalObject h v = Ok JUndefined /\
  timePkg rt <> Some t /\
  assocGet (default [] seen) (t, v) = None.

(** The integer a Number is reduced from by the bit operators: its integer
    part, 0 for NaN and the infinities. *)
Definition integerPart (n : number) : Z :=
  match n with
  | Fin m e => truncate m e
  | _ => 0
  end.

(** The compiled value [v] is not recognised as a time.Time by the struct
    case of [$externalize]. *)
Definition notTime (rt : runtime) (h : heap) (v : jsval) : Prop :=
  match timePkg rt with
  | None => True
  | Some tTime => exists c, constructorOf rt h v = Ok c /\ c <> KType (ptr (ty rt tTime))
  end.

(** The first-field chain of the compiled value [v] of type [t] arrives at
    the host handle [o]: [t] is the handle pointer type and [v] is [o]; or
    [t] is a pointer type, [v] is not nil and the chain of what it points to
    arrives at [o]; or [t] is a struct type with fields and the chain of the
    value of its first field arrives at [o]. *)
Inductive reachesHandle (rt : runtime) (h : heap) : jsval -> tid -> jsval -> Prop :=
| reach_handle v :
    reachesHandle rt h v (jsObjectPtr rt) v
| reach_ptr v t x o :
    t <> jsObjectPtr rt -> kind (ty rt t) = kindPtr -> v <> JNil t ->
    dollarGet h v = Ok x ->
    reachesHandle rt h x (elem (ty rt t)) o ->
    reachesHandle rt h v t o
| reach_struct v t f fs x o :
    t <> jsObjectPtr rt -> kind (ty rt t) = kindStruct -> fields (ty rt t) = f :: fs ->
    getProp h v (prop f) = Ok x ->
    reachesHandle rt h x (typ f) o ->
    reachesHandle rt h v t o.

(** The first-field chain of the descriptor [t] arrives at the host handle
    pointer type, through pointer types and first fields of struct types,
    without passing the handle's element type. *)
Inductive handleChain (rt : runtime) : tid -> Prop :=
| chain_handle :
    handleChain rt (jsObjectPtr rt)
| chain_ptr t :
    t <> jsObjectPtr rt -> t <> elem (ty rt (jsObjectPtr rt)) ->
    kind (ty rt t) = kindPtr ->
    handleChain rt (elem (ty rt t)) ->
    handleChain rt t
| chain_struct t f fs :
    t <> jsObjectPtr rt -> t <> elem (ty rt (jsObjectPtr rt)) ->
    kind (ty rt t) = kindStruct -> fields (ty rt t) = f :: fs ->
    handleChain rt (typ f) ->
    handleChain rt t.

(** The first-field chain of the descriptor [t], through pointer types and
    first fields of struct types, comes to the element type of the host
    handle pointer (js.Object held by value) before it arrives at the handle
    pointer type. *)
Inductive valueChain (rt : runtime) : tid -> Prop :=
| value_here :
    jsObjectPtr rt <> elem (ty rt (jsObjectPtr rt)) ->
    valueChain rt (elem (ty rt (jsObjectPtr rt)))
| value_ptr t :
    t <> jsObjectPtr rt -> t <> elem (ty rt (jsObjectPtr rt)) ->
    kind (ty rt t) = kindPtr ->
    valueChain rt (elem (ty rt t)) ->
    valueChain rt t
| value_struct t f fs :
    t <> jsObjectPtr rt -> t <> elem (ty rt (jsObjectPtr rt)) ->
    kind (ty rt t) = kindStruct -> fields (ty rt t) = f :: fs ->
    valueChain rt (typ f) ->
    valueChain rt t.

(** [x] is the value built for the descriptor [t] around the host value [v]:
    [v] itself at the handle pointer type, and for a struct type a struct in
    the heap whose first field holds the value built for the type of that
    field and whose other fields hold the zero values of their types. *)
Inductive adopted (rt : runtime) (h : heap) (v : jsval) : tid -> jsval -> Prop :=
| adopted_handle :
    adopted rt h v (jsObjectPtr rt) v
| adopted_ptr t x :
    t <> jsObjectPtr rt -> kind (ty rt t) = kindPtr ->
    adopted rt h v (elem (ty rt t)) x ->
    adopted rt h v t x
| adopted_struct t f fs n y :
    t <> jsObjectPtr rt -> kind (ty rt t) = kindStruct -> fields (ty rt t) = f :: fs ->
    h !! n = Some (structObject t ((prop f, y) :: map (fun g => (prop g, zero rt (typ g))) fs)) ->
    adopted rt h v (typ f) y ->
    adopted rt h v t (JRef n).

(** Every object of [h] is still there, unchanged, in [h']. *)
Definition extends (h h' : heap) : Prop :=
  (length h <= length h')%nat /\ forall a o, h !! a = Some o -> h' !! a = Some o.

(** A Unicode scalar value: a code point that is no surrogate. *)
Definition isScalar (r : Z) : bool :=
  (0 <=? r) && (r <=? 1114111) && negb ((55296 <=? r) && (r <=? 57343)).

(** The compiled (UTF-8) form of a text given by its scalar values. *)
Definition utf8 (rs : list Z) : list Z := flat_map encodeRune rs.

(** The UTF-16 code units of one scalar value: the value itself in the Basic
    Multilingual Plane, a high and a low surrogate above it. *)
Definition utf16unit (r : Z) : list Z :=
  if r <=? 65535 then [r]
  else [55296 + (r - 65536) / 1024; 56320 + (r - 65536) mod 1024].

(** The host (UTF-16) form of a text given by its scalar values. *)
Definition utf16 (rs : list Z) : list Z := flat_map utf16unit rs.

(** The bit rule of the integer kinds that have one: keep the low bits of
    the declared width, sign-extended for the signed kinds and
    zero-extended for the unsigned ones. *)
Definition bitRule (k : Kind) : option (Z -> Z) :=
  match k with
  | kindInt8 => Some (wrapS 8)
  | kindInt16 => Some (wrapS 16)
  | kindInt32 => Some (wrapS 32)
  | kindUint8 => Some (wrapU 8)
  | kindUint16 => Some (wrapU 16)
  | kindUint32 | kindUintptr => Some (wrapU 32)
  | _ => None
  end.

(** The message of the fatal error for the host handle's element type. *)
Definition jsObjectMessage : string := "cannot internalize js.Object, use *js.Object instead".

(** The host object [o] with [o.Val = 1] and [o.Next = o], at heap cell 0. *)
Definition selfNode : object :=
  plainObject [(str "Val", JNum (Fin 1 0)); (str "Next", JRef 0%nat)].

(** The host object [o] with [o.self = o], at heap cell 0. *)
Definition selfMap : object := plainObject [(str "self", JRef 0%nat)].

(** The host array [a] with [a[0] = a], at heap cell 0. *)
Definition selfArray : object := hostArray [JRef 0%nat].

(** No entry of the seen-set is keyed by the host value [v]. *)
Definition unseen (v : jsval) (seen : option seenMap) : Prop :=
  forall t, assocGet (default [] seen) (t, v) = None.

(** A host wrapper object around a compiled [Inner] value: heap cell 0 is
    the compiled struct, whose handle field holds the host string "first";
    heap cell 1 is the host object whose back reference names it. *)
Definition wrappedInnerHeap : heap :=
  [ structObject tInner [(str "Object", JStr (str "first"))];
    plainObject [(str "__internal_object__", JNew tInner (JRef 0%nat))] ].

(** A compiled [Outer] value: cell 0 is its [Inner] field, whose handle
    field holds the host string "host"; cell 1 is the [Outer] struct. *)
Definition outerHeap : heap :=
  [ structObject tInner [(str "Object", JStr (str "host"))];
    structObject tOuter [(str "Inner", JRef 0%nat)] ].

(** A compiled [ByValue] value: cell 0 is its js.Object field, held by
    value, whose handle holds the host string "host"; cell 1 is the
    [ByValue] struct. *)
Definition byValueHeap : heap :=
  [ structObject tJsObject [(str "object", JStr (str "host"))];
    structObject tByValue [(str "o", JRef 0%nat)] ].

(** A host wrapper object around a compiled [*Temp]: heap cell 0 is the
    compiled struct, heap cell 1 the host object whose back reference names
    it. *)
Definition wrappedTempHeap : heap :=
  [ structObject tTemp [(str "Deg", JNum (Fin 21 0))];
    plainObject [(str "__internal_object__", JRef 0%nat)] ].

(** A list of code units whose first one, if any, is below 95 (the
    underscore); every index key of an array or string is one. *)
Definition lowHead (l : list Z) : Prop :=
  match l with c :: _ => c < 95 | [] => True end.

End Bridge.

(** * Part III: the remaining helpers of compiler/utils.go *)
(* ===================================================================== *)
Module Utils.
Import Naming.
Local Open Scope Z_scope.

(** Go byte slices, and Go strings where they are handled byte by byte, are
    lists of bytes here. *)
Definition lit (s : string) : list ascii := list_ascii_of_string s.

Definition chBackspace : ascii := byte_of 8.     (* '\b' *)
Definition chTab : ascii := byte_of 9.           (* '\t' *)
Definition chNewline : ascii := byte_of 10.      (* '\n' *)
Definition chVTab : ascii := byte_of 11.         (* '\v' *)
Definition chFormFeed : ascii := byte_of 12.     (* '\f' *)
Definition chReturn : ascii := byte_of 13.       (* '\r' *)
Definition chSpace : ascii := byte_of 32.
Definition chQuote : ascii := byte_of 34.        (* the double quote *)
Definition chStar : ascii := byte_of 42.
Definition chMinus : ascii := byte_of 45.
Definition chSlash : ascii := byte_of 47.
Definition chColon : ascii := byte_of 58.
Definition chBackslash : ascii := byte_of 92.

(** ** encodeString *)

(** One turn of the loop of [encodeString]: what is written to the buffer
    for the byte [r].  [fmt.Fprintf(buffer, `\x%02X`, r)] prints the two
    upper-case hexadecimal digits of the byte. *)
Definition encodeByte (r : ascii) : list ascii :=
  let n := code_of r in
  if n =? 8 then [chBackslash; byte_of 98]            (* \b *)
  else if n =? 12 then [chBackslash; byte_of 102]     (* \f *)
  else if n =? 10 then [chBackslash; byte_of 110]     (* \n *)
  else if n =? 13 then [chBackslash; byte_of 114]     (* \r *)
  else if n =? 9 then [chBackslash; byte_of 116]      (* \t *)
  else if n =? 11 then [chBackslash; byte_of 118]     (* \v *)
  else if n =? 34 then [chBackslash; chQuote]
  else if n =? 92 then [chBackslash; chBackslash]
  else if (n <? 32) || (126 <? n)
       then [chBackslash; byte_of 120; upperhex (Z.shiftr n 4); upperhex (Z.land n 15)]
       else [r].

(** [func encodeString(s string) string] *)
Definition encodeString (s : list ascii) : list ascii :=
  let buffer := fold_left (fun buf r => buf ++ encodeByte r) s [] in
  [chQuote] ++ buffer ++ [chQuote].

(** Vocabulary for the properties of [encodeString]: the printable bytes of
    ASCII, and the reading of the first escape of a literal. *)
Definition printable (c : ascii) : bool := (32 <=? code_of c) && (code_of c <=? 126).

Definition hexValue (c : ascii) : Z :=
  let n := code_of c in if n <? 58 then n - 48 else n - 55.

Definition decodeHead (l : list ascii) : option (ascii * list ascii) :=
  match l with
  | [] => None
  | c :: l' =>
      if negb (code_of c =? 92) then Some (c, l')
      else match l' with
           | [] => None
           | e :: l'' =>
               let n := code_of e in
               if n =? 98 then Some (byte_of 8, l'')
               else if n =? 102 then Some (byte_of 12, l'')
               else if n =? 110 then Some (byte_of 10, l'')
               else if n =? 114 then Some (byte_of 13, l'')
               else if n =? 116 then Some (byte_of 9, l'')
               else if n =? 118 then Some (byte_of 11, l'')
               else if n =? 120 then
                 match l'' with
                 | h1 :: h2 :: l3 => Some (byte_of (16 * hexValue h1 + hexValue h2), l3)
                 | _ => None
                 end
               else Some (e, l'')
           end
  end.

(** ** getJsTag *)

(** [i := 0; for i < len(tag) && tag[i] == ' ' { i++ }; tag = tag[i:]] *)
Fixpoint skipSpaces (tag : list ascii) : list ascii :=
  match tag with
  | c :: tag' => if decide (c = chSpace) then skipSpaces tag' else tag
  | [] => []
  end.

(** The scan to the colon, [i = 0; for i < len(tag) && ... { i++ }], which
    stops at a space, a colon or a quote: the final [i]. *)
Fixpoint scanName (tag : list ascii) : nat :=
  match tag with
  | c :: tag' =>
      if decide (c = chSpace) then O
      else if decide (c = chColon) then O
      else if decide (c = chQuote) then O
      else S (scanName tag')
  | [] => O
  end.

(** The scan of the quoted value from index [i], where [rest] is
    [tag[i:]]: it stops at a quote and steps over the byte after a
    backslash.  The final [i], which is [len(tag) + 1] when the last byte is
    a backslash. *)
Fixpoint scanQuoted (rest : list ascii) (i : nat) : nat :=
  match rest with
  | [] => i
  | c :: rest' =>
      if decide (c = chQuote) then i
      else if decide (c = chBackslash) then
             match rest' with
             | [] => i + 2
             | _ :: rest'' => scanQuoted rest'' (i + 2)
             end
           else scanQuoted rest' (i + 1)
  end.

Section Tags.
  (** [strconv.Unquote] of the Go standard library: the value it returns,
      its error being dropped by [getJsTag]. *)
Variable Unquote : list ascii -> list ascii.

  (** The loop of [getJsTag], which runs while [tag] is not empty; each turn
      drops at least two bytes of [tag]. *)
Fixpoint getJsTagLoop (fuel : nat) (tag : list ascii) : res (list ascii) :=
    match fuel with
    | O => OutOfFuel
    | S fuel' =>
        match tag with
        | [] => Ok []
        | _ :: _ =>
            let tag := skipSpaces tag in
            match tag with
            | [] => Ok []
            | _ :: _ =>
                let i := scanName tag in
                if (length tag <=? i + 1)%nat
                   || negb (bool_decide (tag !! i = Some chColon))
                   || negb (bool_decide (tag !! (i + 1)%nat = Some chQuote))
                then Ok []
                else
                  let name := take i tag in
                  let tag := drop (i + 1) tag in
                  let i := scanQuoted (drop 1 tag) 1 in
                  if (length tag <=? i)%nat then Ok []
                  else
                    let qvalue := take (i + 1) tag in
                    let tag := drop (i + 1) tag in
                    if bool_decide (name = lit "js") then Ok (Unquote qvalue)
                    else getJsTagLoop fuel' tag
            end
        end
    end.

  (** [func getJsTag(tag string) string] *)
Definition getJsTag (tag : list ascii) : res (list ascii) :=
    getJsTagLoop (S (length tag)) tag.
End Tags.

(** ** removeWhitespace *)

(** [func needsSpace(c byte) bool] *)
Definition needsSpace (c : ascii) : bool :=
  let n := code_of c in
  (97 <=? n) && (n <=? 122) || (65 <=? n) && (n <=? 90) || (48 <=? n) && (n <=? 57)
  || (n =? 95) || (n =? 36).

(** [bytes.IndexAny(b, chars)]: the index of the first byte of [b] that is
    one of [chars], -1 when there is none. *)
Fixpoint indexAny (b chars : list ascii) : Z :=
  match b with
  | [] => -1
  | c :: b' =>
      if bool_decide (c ∈ chars) then 0
      else let i := indexAny b' chars in if i <? 0 then -1 else i + 1
  end.

(** [bytes.HasPrefix(b, sep)] *)
Fixpoint hasPrefix (b sep : list ascii) : bool :=
  match sep, b with
  | [], _ => true
  | _ :: _, [] => false
  | s :: sep', c :: b' => bool_decide (c = s) && hasPrefix b' sep'
  end.

(** [bytes.Index(b, sep)]: the index of the first instance of [sep] in [b],
    -1 when there is none. *)
Fixpoint index (b sep : list ascii) : Z :=
  if hasPrefix b sep then 0
  else match b with
       | [] => -1
       | _ :: b' => let i := index b' sep in if i <? 0 then -1 else i + 1
       end.

(** [b[i]], a run-time panic outside of [0 <= i < len(b)]. *)
Definition at_ (b : list ascii) (i : nat) : res ascii :=
  match b !! i with
  | Some c => Ok c
  | None => Panic "index out of range"
  end.

(** The inner loop of the case of the double quote: copies the string
    literal up to its closing quote.  It returns [out] and [b], whose first
    byte is then the closing quote.  [b[:2]] with a single byte left reads
    the slice beyond its length, which panics or not with its capacity. *)
Fixpoint copyLiteral (fuel : nat) (out b : list ascii) : res (list ascii * list ascii) :=
  match fuel with
  | O => OutOfFuel
  | S fuel' =>
      let i := indexAny b [chQuote; chBackslash] in
      if i <? 0 then Panic "slice bounds out of range"
      else
        let out := (out ++ take (Z.to_nat i) b)%list in
        let b := drop (Z.to_nat i) b in
        c ← at_ b 0;
        if decide (c = chQuote) then Ok (out, b)
        else if (length b <? 2)%nat then Unmodelled "slice of a byte slice beyond its length"
        else copyLiteral fuel' (out ++ take 2 b)%list (drop 2 b)
  end.

Definition isBlankByte (c : ascii) : bool :=
  bool_decide (c = chSpace) || bool_decide (c = chTab) || bool_decide (c = chNewline).

(** The condition under which a blank is dropped: [previous] or [b[1]]
    needs no space, and they are not two minus signs.  The evaluation order
    is that of Go: [b[1]] is read only where the operands before it do not
    decide. *)
Definition dropsBlank (previous : ascii) (b : list ascii) : res bool :=
  left ← (if negb (needsSpace previous) then Ok true
          else c ← at_ b 1; Ok (negb (needsSpace c)));
  if (left : bool) then
    if bool_decide (previous = chMinus)
    then c ← at_ b 1; Ok (negb (bool_decide (c = chMinus)))
    else Ok true
  else Ok false.

(** The loop [for len(b) > 0] of [removeWhitespace]; each turn drops at
    least one byte of [b].  [b[:5]] with fewer than five bytes left reads
    the slice beyond its length. *)
Fixpoint removeLoop (fuel : nat) (out : list ascii) (previous : ascii) (b : list ascii)
  : res (list ascii) :=
  match b with
  | [] => Ok out
  | c :: rest =>
      match fuel with
      | O => OutOfFuel
      | S fuel' =>
          if decide (c = chBackspace) then
            if (length b <? 5)%nat then Unmodelled "slice of a byte slice beyond its length"
            else removeLoop fuel' (out ++ take 5 b)%list previous (drop 5 b)
          else if isBlankByte c then
            d ← dropsBlank previous b;
            if (d : bool) then removeLoop fuel' out previous rest
            else removeLoop fuel' (out ++ [c])%list c rest
          else if decide (c = chQuote) then
            '(out1, b1) ← copyLiteral (S (length rest)) (out ++ [chQuote])%list rest;
            match b1 with
            | q :: b2 => removeLoop fuel' (out1 ++ [q])%list q b2
            | [] => Panic "index out of range"
            end
          else if decide (c = chSlash) then
            c1 ← at_ b 1;
            if decide (c1 = chStar) then
              let i := index (drop 2 b) [chStar; chSlash] in
              if Z.of_nat (length b) <? i + 4 then Panic "slice bounds out of range"
              else removeLoop fuel' out previous (drop (Z.to_nat (i + 4)) b)
            else removeLoop fuel' (out ++ [c])%list c rest
          else removeLoop fuel' (out ++ [c])%list c rest
      end
  end.

(** [func removeWhitespace(b []byte, minify bool) []byte]; [previous] starts
    as the zero byte. *)
Definition removeWhitespace (b : list ascii) (minify : bool) : res (list ascii) :=
  if negb minify then Ok b
  else removeLoop (length b) [] (byte_of 0) b.

(** Bytes that [removeWhitespace] copies one by one: no position marker, no
    blank, no quote, no slash. *)
Definition plainByte (c : ascii) : bool :=
  negb (bool_decide (c = chBackspace)) && negb (isBlankByte c)
  && negb (bool_decide (c = chQuote)) && negb (bool_decide (c = chSlash)).

(** The pieces of the inside of a string literal: a byte that is neither a
    quote nor a backslash, or a backslash with the byte after it. *)
Inductive literalPiece :=
| Plain (c : ascii)
| Escaped (c : ascii).

Definition pieceOk (p : literalPiece) : Prop :=
  match p with
  | Plain c => c <> chQuote /\ c <> chBackslash
  | Escaped _ => True
  end.

Definition pieceBytes (p : literalPiece) : list ascii :=
  match p with
  | Plain c => [c]
  | Escaped c => [chBackslash; c]
  end.

Definition literalOf (ps : list literalPiece) : list ascii :=
  ([chQuote] ++ flat_map pieceBytes ps ++ [chQuote])%list.

(** One pair of a struct tag as it is written in the source: the key, a
    colon and the value as a string literal; and a tag made of such pairs
    with one space between them. *)
Definition tagPair (kv : list ascii * list literalPiece) : list ascii :=
  (fst kv ++ chColon :: literalOf (snd kv))%list.

Fixpoint tagOf (pairs : list (list ascii * list literalPiece)) : list ascii :=
  match pairs with
  | [] => []
  | kv :: pairs' =>
      match pairs' with
      | [] => tagPair kv
      | _ :: _ => (tagPair kv ++ chSpace :: tagOf pairs')%list
      end
  end.

(** A key holds no space, colon or quote. *)
Definition tagKey (k : list ascii) : Prop :=
  Forall (fun c => c <> chSpace /\ c <> chColon /\ c <> chQuote) k.

Definition jsPair (kv : list ascii * list literalPiece) : bool :=
  bool_decide (fst kv = lit "js").

(** ** removeMatching *)

Section RemoveMatching.
Context {T : Type}.

  (** Go's [!=] on the element type.  On most comparable types it is the
      negation of identity; on the floating-point types a NaN differs from
      itself and the two zeros do not differ. *)
Variable differs : T -> T -> bool.

  (** [func removeMatching[T comparable](haystack []T, needle T) []T] *)
Definition removeMatching (haystack : list T) (needle : T) : list T :=
  fold_left (fun result el => if differs el needle then result ++ [el] else result)%list
            haystack [].

End RemoveMatching.

(** [!=] on integers, and on a floating-point type reduced to what matters
    here: [None] stands for NaN, which differs from every value and from
    itself. *)
Definition intDiffers (a b : Z) : bool := negb (a =? b)%Z.

Definition floatDiffers (a b : option Z) : bool :=
  match a, b with
  | Some x, Some y => negb (x =? y)%Z
  | _, _ => true
  end.

(** ** fieldName *)

Section Fields.
  (** The table [reservedKeywords] is declared in another file of the
      package. *)
Variable reservedKeywords : string -> bool.

  (** [func fieldName(t *types.Struct, i int) string]; the struct is given by
      the names of its fields, and [t.Field(i)] panics out of range. *)
Definition fieldName (t : list string) (i : nat) : res string :=
    match t !! i with
    | None => Panic "index out of range"
    | Some name =>
        if String.eqb name "_" || reservedKeywords name
        then Ok (name ++ "$" ++ fmtInt (Z.of_nat i))%string
        else Ok name
    end.
End Fields.

(** A Go identifier as far as the naming helpers care: letters, digits and
    underscores of ASCII. *)
Fixpoint plainName (s : string) : bool :=
  match s with
  | EmptyString => true
  | String c s' => (isAlnum c || (code_of c =? 95)) && plainName s'
  end.

(** All bytes of a string satisfy [P]. *)
Fixpoint allBytes (P : ascii -> bool) (s : string) : bool :=
  match s with
  | EmptyString => true
  | String c s' => P c && allBytes P s'
  end.

(** The bytes [encodeIdent] lets through: the letters and digits of ASCII,
    the marks [- _ . ~] that [url.QueryEscape] leaves alone, the plus sign it
    writes for a space, the dollar sign of an escape, and the two bytes of
    the middle dot. *)
Definition identByte (c : ascii) : bool :=
  let n := code_of c in
  isAlnum c || (n =? 45) || (n =? 95) || (n =? 46) || (n =? 126) || (n =? 43) || (n =? 36)
  || (n =? 194) || (n =? 183).

Definition escapedByte (c : ascii) : bool := identByte c || (code_of c =? 37).

(** What [encodeIdent] makes of one byte that is not part of a middle dot,
    with [mark] before the two hexadecimal digits of an escape, and the
    identifier of a name written byte by byte: a middle dot is kept, a space
    becomes a plus sign, the other bytes that [url.QueryEscape] escapes
    become [mark] and two digits. *)
Definition escapeWith (mark : ascii) (c : ascii) : string :=
  if code_of c =? 32 then String "+" EmptyString
  else if shouldEscape c
       then String mark (String (upperhex (Z.shiftr (code_of c) 4))
              (String (upperhex (Z.land (code_of c) 15)) EmptyString))
       else String c EmptyString.

Fixpoint identWith (mark : ascii) (s : string) : string :=
  match s with
  | EmptyString => EmptyString
  | String c s' =>
      match s' with
      | String d s'' =>
          if (code_of c =? 194) && (code_of d =? 183)
          then (midDot ++ identWith mark s'')%string
          else (escapeWith mark c ++ identWith mark s')%string
      | EmptyString => escapeWith mark c
      end
  end.

(** The reading of an identifier back into the name: an escape is the byte
    with that code, a plus sign is a space, every other byte is itself. *)
Fixpoint nameOf (s : string) : string :=
  match s with
  | EmptyString => EmptyString
  | String c s' =>
      if code_of c =? 36 then
        match s' with
        | String h1 (String h2 s'') =>
            String (byte_of (16 * hexValue h1 + hexValue h2)) (nameOf s'')
        | _ => EmptyString
        end
      else if code_of c =? 43 then String (byte_of 32) (nameOf s')
      else String c (nameOf s')
  end.

(** The name the natural mode returns for the sanitised name [p] whose count
    is [n]. *)
Definition suffixed (p : string) (n : Z) : string :=
  if 0 <? n then (p ++ "$" ++ fmtInt n)%string else p.

(** A count table whose counts are not negative and below [bound]. *)
Definition countsBelow (bound : Z) (m : gmap string Z) : Prop :=
  map_Forall (fun _ v => 0 <= v < bound) m.

(** The names among [names], the answers to the requests [reqs], that are
    entered into the list of local variables: those of the requests that
    are not package-level. *)
Definition localNames (reqs : list (string * bool)) (names : list string) : list string :=
  omap (fun rv : (string * bool) * string => if snd (fst rv) then None else Some (snd rv))
       (zip reqs names).

(** ** The names that reach [newVariable] *)

(** Well-formed UTF-8 text whose ASCII bytes are letters, digits and
    underscores; [pending] is the number of continuation bytes still due.
    Every Go identifier and every package name is such a text. *)
Fixpoint utf8Ident (pending : nat) (s : string) : bool :=
  match s with
  | EmptyString => Nat.eqb pending 0
  | String c s' =>
      let n := code_of c in
      match pending with
      | S k => (128 <=? n) && (n <=? 191) && utf8Ident k s'
      | O =>
          if n <? 128 then (isAlnum c || (n =? 95)) && utf8Ident 0 s'
          else if (194 <=? n) && (n <=? 223) then utf8Ident 1 s'
          else if (224 <=? n) && (n <=? 239) then utf8Ident 2 s'
          else if (240 <=? n) && (n <=? 244) then utf8Ident 3 s'
          else false
      end
  end.

Definition goIdentifier (s : string) : bool := negb (String.eqb s "") && utf8Ident 0 s.

(** The names the callers of [newVariable] in utils.go propose: an
    identifier (the name of an object or of a package, the fixed names
    [_tuple] and [_arg], the names of the anonymous types), or an identifier
    followed by [$ptr] (in [varPtrName]). *)
Definition callerName (p : string) : Prop :=
  goIdentifier p = true \/ exists q, goIdentifier q = true /\ p = (q ++ "$ptr")%string.

(** The last byte of a text, and the decimal digits of ASCII. *)
Fixpoint lastByte (s : string) : option ascii :=
  match s with
  | EmptyString => None
  | String c s' => match lastByte s' with
                   | Some d => Some d
                   | None => Some c
                   end
  end.

Definition digitByte (c : ascii) : bool := (48 <=? code_of c) && (code_of c <=? 57).

(** The shape of the answers of a run in natural mode: the sanitised name
    with the suffix of a count that is not below the count at the start. *)
Definition answers (fc : funcContext) (reqs : list (string * bool)) (names : list string)
  : Prop :=
  Forall2 (fun r v => exists n, 0 <= n /\ lookupVar (allVars fc) (encodeIdent (fst r)) <= n /\
                                v = suffixed (encodeIdent (fst r)) n) reqs names.

(** ** The output buffer of a function context *)

(** The fields of [funcContext] and of its [pkgCtx] that the output methods
    read and write. *)
Record outputState := {
  output : list ascii;          (* fc.output *)
  delayedOutput : list ascii;   (* fc.delayedOutput *)
  posAvailable : bool;          (* fc.posAvailable *)
  pos : Z;                      (* fc.pos, a token.Pos *)
  indentation : Z               (* fc.pkgCtx.indentation *)
}.

Definition setOutput (st : outputState) (o : list ascii) : outputState :=
  {| output := o; delayedOutput := delayedOutput st; posAvailable := posAvailable st;
     pos := pos st; indentation := indentation st |}.

Definition setDelayed (st : outputState) (d : list ascii) : outputState :=
  {| output := output st; delayedOutput := d; posAvailable := posAvailable st;
     pos := pos st; indentation := indentation st |}.

Definition setPosAvailable (st : outputState) (a : bool) : outputState :=
  {| output := output st; delayedOutput := delayedOutput st; posAvailable := a;
     pos := pos st; indentation := indentation st |}.

Definition setIndentation (st : outputState) (n : Z) : outputState :=
  {| output := output st; delayedOutput := delayedOutput st; posAvailable := posAvailable st;
     pos := pos st; indentation := n |}.

(** [binary.BigEndian] layout of [uint32(p)]: four bytes, the most
    significant first. *)
Definition bigEndian32 (p : Z) : list ascii :=
  let u := p mod 4294967296 in
  [byte_of (u / 16777216); byte_of ((u / 65536) mod 256);
   byte_of ((u / 256) mod 256); byte_of (u mod 256)].

(** [funcContext.Write] and [funcContext.writePos] call each other:
    [binary.Write(fc, binary.BigEndian, uint32(fc.pos))] hands its four
    bytes to [fc.Write] in one call.  The fuel bounds the depth of the
    calls. *)
Fixpoint Write (fuel : nat) (st : outputState) (b : list ascii) : res outputState :=
  match fuel with
  | O => OutOfFuel
  | S fuel' =>
      st1 ← (if posAvailable st then
               let st0 := setPosAvailable st false in
               st1 ← Write fuel' st0 [chBackspace];
               Write fuel' st1 (bigEndian32 (pos st1))
             else Ok st);
      Ok (setOutput st1 (output st1 ++ b)%list)
  end.

(** [func (fc *funcContext) writePos()], the first statement of [Write]. *)
Definition writePos (fuel : nat) (st : outputState) : res outputState :=
  if posAvailable st then
    let st0 := setPosAvailable st false in
    st1 ← Write fuel st0 [chBackspace];
    Write fuel st1 (bigEndian32 (pos st1))
  else Ok st.

(** [func (fc *funcContext) SetPos(pos token.Pos)] *)
Definition SetPos (st : outputState) (p : Z) : outputState :=
  {| output := output st; delayedOutput := delayedOutput st; posAvailable := true;
     pos := p; indentation := indentation st |}.

(** [func (fc *funcContext) Indentation(extra int) string];
    [strings.Repeat] panics on a negative count. *)
Definition Indentation (st : outputState) (extra : Z) : res (list ascii) :=
  if indentation st + extra <? 0 then Panic "strings: negative Repeat count"
  else Ok (repeat chTab (Z.to_nat (indentation st + extra))).

(** Depth of calls that every [Write] below is given; two levels are in
    use. *)
Definition depth : nat := 3.

(** [func (fc *funcContext) Printf(format string, values ...interface{})];
    [text] is the text [fmt.Fprintf] formats, which it hands to [fc.Write]
    in one call. *)
Definition Printf (st : outputState) (text : list ascii) : res outputState :=
  ind ← Indentation st 0;
  st1 ← Write depth st ind;
  st2 ← Write depth st1 text;
  st3 ← Write depth st2 [chNewline];
  st4 ← Write depth st3 (delayedOutput st3);
  Ok (setDelayed st4 []).

(** [strings.Replace(s, old, new, -1)] for a non-empty [old]:
    non-overlapping matches, left to right.  [skip] counts the bytes of a
    match still to be dropped. *)
Fixpoint replaceBytes (old new : list ascii) (skip : nat) (s : list ascii) : list ascii :=
  match s with
  | [] => []
  | c :: s' =>
      match skip with
      | S k => replaceBytes old new k s'
      | O => if hasPrefix s old
             then (new ++ replaceBytes old new (length old - 1) s')%list
             else c :: replaceBytes old new 0 s'
      end
  end.

(** [func (fc *funcContext) PrintCond(cond bool, onTrue, onFalse string)] *)
Definition PrintCond (st : outputState) (cond : bool) (onTrue onFalse : list ascii)
  : res outputState :=
  if negb cond then
    Printf st (lit "/* " ++ replaceBytes (lit "*/") (lit "<star>/") 0 onTrue
               ++ lit " */ " ++ onFalse)%list
  else Printf st onTrue.

(** [func (fc *funcContext) Indented(f func())]; the callback acts on the
    context. *)
Definition Indented (st : outputState) (f : outputState -> res outputState)
  : res outputState :=
  st1 ← f (setIndentation st (indentation st + 1));
  Ok (setIndentation st1 (indentation st1 - 1)).

(** [func (fc *funcContext) CatchOutput(indent int, f func()) []byte] *)
Definition CatchOutput (st : outputState) (indent : Z) (f : outputState -> res outputState)
  : res (list ascii * outputState) :=
  let origoutput := output st in
  let st1 := setOutput st [] in
  let st2 := setIndentation st1 (indentation st1 + indent) in
  st3 ← f st2;
  st4 ← writePos depth st3;
  let caught := output st4 in
  let st5 := setOutput st4 origoutput in
  Ok (caught, setIndentation st5 (indentation st5 - indent)).

(** [func (fc *funcContext) Delayed(f func())] *)
Definition Delayed (st : outputState) (f : outputState -> res outputState)
  : res outputState :=
  '(caught, st1) ← CatchOutput st 0 f;
  Ok (setDelayed st1 caught).

(** A position marker as [writePos] emits it. *)
Definition marker (p : Z) : list ascii := chBackspace :: bigEndian32 p.

(** The marker that is pending in a state: the next [Write] emits it. *)
Definition pending (st : outputState) : list ascii :=
  if posAvailable st then marker (pos st) else [].

(** The state after the bytes [b] have gone to the output, the pending
    marker before them. *)
Definition emitted (st : outputState) (b : list ascii) : outputState :=
  {| output := (output st ++ pending st ++ b)%list; delayedOutput := delayedOutput st;
     posAvailable := false; pos := pos st; indentation := indentation st |}.

(** ** Package variables *)

(** [func (fc *funcContext) importedPkgVar(pkg *types.Package) string];
    the package is given by its path and its name. *)
Definition importedPkgVar (pc : pkgContext) (fc : funcContext) (path name : string)
  : res (string * funcContext * pkgContext) :=
  match pkgVars pc !! path with
  | Some pkgVar => Ok (pkgVar, fc, pc)
  | None =>
      '(pkgVar, fc1) ← newVariable pc fc name true;
      Ok (pkgVar, fc1,
          {| minify := minify pc; Pkg := Pkg pc; pkgVars := <[path := pkgVar]> (pkgVars pc);
             escapingVars := escapingVars pc; dceDeps := dceDeps pc |})
  end.

(** The ancestors of a context, the nearest first. *)
Fixpoint ancestors (fc : funcContext) : list funcContext :=
  match parent fc with
  | None => []
  | Some p => p :: ancestors p
  end.

(** A function context directly below a fresh package-level context. *)
Definition nestedScope : funcContext :=
  {| allVars := ∅; localVars := []; objectNames := ∅; instance := noInstance;
     parent := Some freshScope |}.

End Utils.

(** * Part IV: further vocabulary for the value bridge *)
(* ===================================================================== *)
Module BridgeMore.
Import Bridge.
Local Open Scope Z_scope.

(** The values of an integer kind other than the 64-bit ones: [int] and
    [uint] are 32 bits wide in compiled programs. *)
Definition intRange (k : Kind) : option (Z * Z) :=
  match k with
  | kindInt8 => Some (-128, 127)
  | kindInt16 => Some (-32768, 32767)
  | kindInt32 | kindInt => Some (-2147483648, 2147483647)
  | kindUint8 => Some (0, 255)
  | kindUint16 => Some (0, 65535)
  | kindUint32 | kindUintptr | kindUint => Some (0, 4294967295)
  | _ => None
  end.

(** The value of a list of decimal digits, most significant first, read
    after the value [a]. *)
Definition digitsFrom (a : Z) (ds : list Z) : Z := fold_left (fun a d => a * 10 + d) ds a.

Definition decimalDigit (d : Z) : Prop := 0 <= d <= 9.

(** Descriptors next to the ones of [sampleTable]: an array type, a
    pointer to a non-struct type and a slice of a basic type. *)
Definition tArray2 : tid := 45%nat.     (* [2]int *)
Definition tIntPtr : tid := 46%nat.     (* *int *)
Definition tBytes : tid := 47%nat.      (* []uint8 *)

Definition moreTable : list rtype :=
  sampleTable ++ [ arrayOf "[2]int" tInt 2; ptrType "*int" tInt; sliceOf "[]uint8" tUint8 ].

Definition moreRuntime : runtime :=
  {| types := fun t => nth t moreTable (basicType kindUnsafePointer "invalid");
     jsObjectPtr := jsObjectPtr sampleRuntime;
     timePkg := timePkg sampleRuntime;
     dBool := dBool sampleRuntime; dString := dString sampleRuntime;
     dInt := dInt sampleRuntime; dInt8 := dInt8 sampleRuntime; dInt16 := dInt16 sampleRuntime;
     dUint := dUint sampleRuntime; dUint8 := dUint8 sampleRuntime;
     dUint16 := dUint16 sampleRuntime;
     dFloat32 := dFloat32 sampleRuntime; dFloat64 := dFloat64 sampleRuntime;
     emptyInterface := emptyInterface sampleRuntime;
     sliceType := sliceType sampleRuntime;
     mapType := mapType sampleRuntime;
     funcType := funcType sampleRuntime;
     globalNode := globalNode sampleRuntime |}.

(** The descriptors whose nil value the host sees as null and that read
    null back as nil: slices, pointers to anything but a struct, and the
    interfaces without methods. *)
Definition nilable (rt : runtime) (t : tid) : bool :=
  match kind (ty rt t) with
  | kindSlice => true
  | kindPtr => negb (bool_decide (kind (ty rt (elem (ty rt t))) = kindStruct))
  | kindInterface => bool_decide (methods (ty rt t) = [])
  | _ => false
  end.

(** A compiled function object that has no wrapper yet. *)
Definition compiledFunction : object := withBody (emptyObject CFunction) CompiledCode.

(** What the interface case of the bridge relies on: the empty interface
    is an interface type without methods, [$Bool] and [$String] are the
    descriptors of bool and string, and none of them is the host handle
    pointer, its element type or time.Time. *)
Definition basicDescriptors (rt : runtime) : Prop :=
  kind (ty rt (emptyInterface rt)) = kindInterface /\
  methods (ty rt (emptyInterface rt)) = [] /\
  kind (ty rt (dBool rt)) = kindBool /\
  kind (ty rt (dString rt)) = kindString /\
  Forall (fun t => t <> jsObjectPtr rt /\ t <> elem (ty rt (jsObjectPtr rt))
                   /\ timePkg rt <> Some t)
         [emptyInterface rt; dBool rt; dString rt].

End BridgeMore.

(** * Part V: properties of the name allocator *)

Module NamingProofs.
Import Naming.
Local Open Scope string_scope.
Local Open Scope Z_scope.

(** ** Bytes and strings *)

Lemma code_of_byte_of n : 0 <= n < 256 -> code_of (byte_of n) = n.
Proof.
  intros Hn. unfold code_of, byte_of.
  rewrite N_ascii_embedding; [apply Z2N.id; lia|].
  change 256%N with (Z.to_N 256). apply Z2N.inj_lt; lia.
Qed.

Lemma append_cons (c : ascii) (s t : string) : String c s ++ t = String c (s ++ t).
Proof. reflexivity. Qed.

Lemma append_nil_l (t : string) : "" ++ t = t.
Proof. reflexivity. Qed.

Lemma append_assoc (s1 s2 s3 : string) : (s1 ++ s2) ++ s3 = s1 ++ (s2 ++ s3).
Proof.
  induction s1 as [|c s1 IH]; [reflexivity|].
  now rewrite !append_cons, IH.
Qed.

Lemma append_nil_r (s : string) : s ++ "" = s.
Proof.
  induction s as [|c s IH]; [reflexivity|].
  now rewrite append_cons, IH.
Qed.

Lemma string_of_list_app (l1 l2 : list ascii) :
  string_of_list_ascii (l1 ++ l2) = string_of_list_ascii l1 ++ string_of_list_ascii l2.
Proof.
  induction l1 as [|c l1 IH]; [reflexivity|].
  cbn [string_of_list_ascii app]. now rewrite append_cons, IH.
Qed.

(** ** Bijective base-26 numerals *)

Lemma val_ge ds : digits ds -> -1 <= val ds.
Proof. induction 1; simpl; lia. Qed.

Lemma val_nonneg d ds : digits (d :: ds) -> 0 <= val (d :: ds).
Proof. intros H. inversion H; subst. pose proof (val_ge ds H3). simpl. lia. Qed.

Lemma bumpd_digits ds : digits ds -> digits (bumpd ds).
Proof.
  induction 1 as [|d ds Hd Hds IH]; simpl.
  - repeat constructor; lia.
  - destruct (Z.ltb_spec d 25); constructor; auto; lia.
Qed.

Lemma bumpd_val ds : digits ds -> val (bumpd ds) = val ds + 1.
Proof.
  induction 1 as [|d ds Hd Hds IH]; simpl; [reflexivity|].
  destruct (Z.ltb_spec d 25); simpl; [lia|]. rewrite IH. lia.
Qed.

Lemma bumpd_length ds : (length (bumpd ds) <= S (length ds))%nat.
Proof. induction ds as [|d ds IH]; simpl; [lia|]. destruct (d <? 25); simpl; lia. Qed.

Lemma bumpd_nonempty ds : bumpd ds <> [].
Proof. destruct ds as [|d ds]; simpl; [discriminate|]. destruct (d <? 25); discriminate. Qed.

Lemma numeral_digits K : digits (numeral K).
Proof.
  induction K; simpl.
  - repeat constructor; lia.
  - now apply bumpd_digits.
Qed.

Lemma numeral_val K : val (numeral K) = Z.of_nat K.
Proof.
  induction K; [reflexivity|].
  change (numeral (S K)) with (bumpd (numeral K)).
  rewrite bumpd_val by apply numeral_digits. lia.
Qed.

Lemma numeral_length K : (length (numeral K) <= S K)%nat.
Proof.
  induction K; simpl; [lia|].
  pose proof (bumpd_length (numeral K)). unfold numeral in *. lia.
Qed.

Lemma numeral_nonempty K : numeral K <> [].
Proof. destruct K; [discriminate | apply bumpd_nonempty]. Qed.

Lemma val_inj ds1 ds2 : digits ds1 -> digits ds2 -> val ds1 = val ds2 -> ds1 = ds2.
Proof.
  intros H1. revert ds2. induction H1 as [|d ds Hd Hds IH]; intros ds2 H2 Hv.
  - destruct H2 as [|d2 ds2 Hd2 Hds2]; [reflexivity|].
    pose proof (val_ge ds2 Hds2). simpl in Hv. lia.
  - destruct H2 as [|d2 ds2 Hd2 Hds2].
    + pose proof (val_ge ds Hds). simpl in Hv. lia.
    + simpl in Hv. pose proof (val_ge ds Hds). pose proof (val_ge ds2 Hds2).
      assert (d = d2) by lia. subst d2.
      f_equal. apply IH; [assumption | lia].
Qed.

(** ** The letters of a numeral *)

Lemma firstLetter_base b : letterBase (firstLetter b).
Proof. destruct b; unfold letterBase, firstLetter; lia. Qed.

Lemma bump_render first ds :
  letterBase first -> digits ds -> bump first (render first ds) = render first (bumpd ds).
Proof.
  intros [Hf1 Hf2]. induction 1 as [|d ds Hd Hds IH]; simpl.
  - now rewrite Z.add_0_r.
  - rewrite code_of_byte_of by lia.
    destruct (Z.ltb_spec d 25); destruct (Z.ltb_spec (first + d) (first + 25)); try lia; simpl.
    + now rewrite Z.add_assoc.
    + now rewrite IH, Z.add_0_r.
Qed.

Lemma render_inj first ds1 ds2 :
  letterBase first -> digits ds1 -> digits ds2 ->
  render first ds1 = render first ds2 -> ds1 = ds2.
Proof.
  intros [Hf1 Hf2] H1. revert ds2.
  induction H1 as [|d ds Hd Hds IH]; intros ds2 H2 Heq; destruct H2 as [|d2 ds2 Hd2 Hds2];
    simpl in Heq; try discriminate; [reflexivity|].
  injection Heq as Hc Hr.
  apply (f_equal code_of) in Hc. rewrite !code_of_byte_of in Hc by lia.
  f_equal; [lia | now apply IH].
Qed.

Lemma alphaNth_spell first K :
  letterBase first -> alphaNth first K = spell first (numeral K).
Proof.
  intros Hb. induction K as [|K IH].
  - unfold alphaNth, spell. simpl. now rewrite Z.add_0_r.
  - change (alphaNth first (S K)) with (alphaNext first (alphaNth first K)).
    rewrite IH. unfold alphaNext, spell.
    rewrite list_ascii_of_string_of_list_ascii, rev_involutive.
    rewrite bump_render by (auto using numeral_digits). reflexivity.
Qed.

Lemma spell_inj first ds1 ds2 :
  letterBase first -> digits ds1 -> digits ds2 ->
  spell first ds1 = spell first ds2 -> ds1 = ds2.
Proof.
  intros Hb H1 H2 Heq. unfold spell in Heq.
  apply (f_equal list_ascii_of_string) in Heq.
  rewrite !list_ascii_of_string_of_list_ascii in Heq.
  apply (f_equal (@rev ascii)) in Heq. rewrite !rev_involutive in Heq.
  eapply render_inj; eauto.
Qed.

Lemma alphaNth_inj first K1 K2 :
  letterBase first -> alphaNth first K1 = alphaNth first K2 -> K1 = K2.
Proof.
  intros Hb Heq. rewrite !alphaNth_spell in Heq by assumption.
  apply spell_inj in Heq; auto using numeral_digits.
  apply (f_equal val) in Heq. rewrite !numeral_val in Heq. lia.
Qed.

(** ** The inner loop spells the numeral of its index *)

Lemma minifiedLoop_spell fuel first ds acc :
  digits ds -> ds <> [] -> (length ds <= fuel)%nat ->
  minifiedLoop fuel first (val ds) acc = Ok (spell first ds ++ acc).
Proof.
  intros Hds. revert fuel acc.
  induction Hds as [|d ds Hd Hds IH]; intros fuel acc Hne Hlen; [congruence|].
  destruct fuel as [|fuel]; [simpl in Hlen; lia|].
  pose proof (val_ge ds Hds) as Hge.
  assert (Hrem : Z.rem (val (d :: ds)) 26 = d).
  { cbn [val]. rewrite Z.rem_mod_nonneg by lia.
    replace (d + 26 * (val ds + 1)) with (d + (val ds + 1) * 26) by lia.
    rewrite Z.mod_add by lia. apply Z.mod_small; lia. }
  assert (Hquot : Z.quot (val (d :: ds)) 26 - 1 = val ds).
  { cbn [val]. rewrite Z.quot_div_nonneg by lia.
    replace (d + 26 * (val ds + 1)) with (d + (val ds + 1) * 26) by lia.
    rewrite Z.div_add by lia. rewrite Z.div_small by lia. lia. }
  cbn [minifiedLoop]. rewrite Hrem, Hquot.
  destruct ds as [|d' ds'].
  - simpl. reflexivity.
  - assert (Hnn : (val (d' :: ds') =? -1) = false).
    { apply Z.eqb_neq. pose proof (val_nonneg d' ds' Hds). lia. }
    rewrite Hnn, IH; [|discriminate|simpl in *; lia].
    f_equal. unfold spell. cbn [render map rev].
    rewrite (string_of_list_app _ [byte_of (first + d)]).
    rewrite append_assoc. reflexivity.
Qed.

Lemma minifiedCandidate_alphaNth b K :
  minifiedCandidate b (Z.of_nat K) = Ok (alphaNth (firstLetter b) K).
Proof.
  unfold minifiedCandidate. rewrite Nat2Z.id.
  rewrite <- (numeral_val K).
  replace (if b then 65 else 97) with (firstLetter b) by reflexivity.
  rewrite minifiedLoop_spell; auto using numeral_digits, numeral_nonempty, numeral_length.
  rewrite append_nil_r, alphaNth_spell by apply firstLetter_base. reflexivity.
Qed.

(** ** The outer loop returns the first free candidate *)

Lemma int64_small z : - 2 ^ 63 <= z < 2 ^ 63 -> int64 z = z.
Proof. intros Hz. unfold int64. rewrite Z.mod_small; lia. Qed.

Lemma minifiedSearch_first (vars : gmap string Z) b k :
  forall fuel i,
    (k < fuel)%nat -> Z.of_nat (i + k) < 2 ^ 63 ->
    (forall j, (i <= j < i + k)%nat -> lookupVar vars (alphaNth (firstLetter b) j) <> 0) ->
    lookupVar vars (alphaNth (firstLetter b) (i + k)) = 0 ->
    minifiedSearch fuel vars b (Z.of_nat i) = Ok (alphaNth (firstLetter b) (i + k)).
Proof.
  induction k as [|k IH]; intros fuel i Hfuel Hbound Hused Hfree;
    (destruct fuel as [|fuel]; [lia|]); cbn [minifiedSearch];
    rewrite minifiedCandidate_alphaNth.
  - rewrite Nat.add_0_r in *. now rewrite Hfree.
  - assert (Hi : lookupVar vars (alphaNth (firstLetter b) i) <> 0) by (apply Hused; lia).
    apply Z.eqb_neq in Hi. rewrite Hi.
    assert (Hlt : Z.of_nat i + 1 < 2 ^ 63) by lia.
    rewrite int64_small by (split; [transitivity 0; [now vm_compute | lia] | assumption]).
    replace (Z.of_nat i + 1) with (Z.of_nat (S i)) by lia.
    replace (i + S k)%nat with (S i + k)%nat in * by lia.
    apply IH; [lia | lia | | assumption].
    intros j Hj. apply Hused. lia.
Qed.

(** Among the first [S (size vars)] candidates one has count 0. *)
Lemma free_candidate_exists (vars : gmap string Z) first :
  letterBase first ->
  exists k, (k <= size vars)%nat /\ lookupVar vars (alphaNth first k) = 0.
Proof.
  intros Hb.
  destruct (decide (Exists (fun k => lookupVar vars (alphaNth first k) = 0)
                           (seq 0 (S (size vars))))) as [Hex|Hno].
  - apply Exists_exists in Hex as (k & Hk & Hfree).
    apply elem_of_seq in Hk. exists k. split; [lia | assumption].
  - exfalso. apply not_Exists_Forall in Hno; [|intros k; apply Z.eq_dec].
    set (names := alphaNth first <$> seq 0 (S (size vars))).
    assert (Hnd : NoDup names).
    { apply NoDup_fmap_2; [|apply NoDup_seq].
      intros k1 k2. now apply alphaNth_inj. }
    assert (Hsub : (list_to_set names : gset string) ⊆ dom vars).
    { intros s Hs. apply elem_of_list_to_set, list_elem_of_fmap in Hs as (k & -> & Hk).
      rewrite Forall_forall in Hno. specialize (Hno k Hk). cbn in Hno.
      apply elem_of_dom. unfold lookupVar in Hno.
      destruct (vars !! alphaNth first k); [eauto | exfalso; now apply Hno]. }
    apply subseteq_size in Hsub.
    rewrite size_list_to_set, size_dom in Hsub by assumption.
    unfold names in Hsub. rewrite length_fmap, length_seq in Hsub. lia.
Qed.

(** ... hence a least one. *)
Lemma least_free_candidate (vars : gmap string Z) first :
  letterBase first ->
  exists k, (k <= size vars)%nat /\ lookupVar vars (alphaNth first k) = 0 /\
            forall j, (j < k)%nat -> lookupVar vars (alphaNth first j) <> 0.
Proof.
  intros Hb. destruct (free_candidate_exists vars first Hb) as (k0 & Hk0 & Hfree0).
  revert Hk0 Hfree0. induction k0 as [k0 IH] using lt_wf_ind. intros Hk0 Hfree0.
  destruct (decide (Exists (fun j => lookupVar vars (alphaNth first j) = 0) (seq 0 k0)))
    as [Hex|Hno].
  - apply Exists_exists in Hex as (j & Hj & Hfree). apply elem_of_seq in Hj.
    apply (IH j); [lia | lia | assumption].
  - apply not_Exists_Forall in Hno; [|intros k; apply Z.eq_dec].
    exists k0. repeat split; try assumption.
    intros j Hj. rewrite Forall_forall in Hno. apply (Hno j). apply elem_of_seq. lia.
Qed.

(** ** One minified allocation *)

Lemma eqb_nonempty (name : string) : name <> "" -> String.eqb name "" = false.
Proof. intros H. now apply String.eqb_neq. Qed.

Lemma newVariable_minified pc fc name b k :
  minify pc = true -> name <> "" ->
  (k <= size (allVars fc))%nat -> Z.of_nat k < 2 ^ 63 ->
  lookupVar (allVars fc) (alphaNth (firstLetter b) k) = 0 ->
  (forall j, (j < k)%nat -> lookupVar (allVars fc) (alphaNth (firstLetter b) j) <> 0) ->
  exists fc', newVariable pc fc name b = Ok (alphaNth (firstLetter b) k, fc') /\
              allVars fc' = <[alphaNth (firstLetter b) k := 1]> (allVars fc).
Proof.
  intros Hmin Hname Hk Hbound Hfree Hused.
  unfold newVariable. rewrite (eqb_nonempty name Hname), Hmin.
  change 0 with (Z.of_nat 0) at 1.
  rewrite (minifiedSearch_first (allVars fc) b k (S (size (allVars fc))) 0%nat);
    [| lia | now rewrite Nat.add_0_l | intros j Hj; apply Hused; lia
     | now rewrite Nat.add_0_l ].
  rewrite Nat.add_0_l. cbn [mbind res_bind bind]. rewrite Hfree. cbn [Z.ltb Z.compare].
  destruct b; eexists; (split; [reflexivity|]); reflexivity.
Qed.

Lemma firstNames_lookup first K j :
  letterBase first ->
  firstNames first K !! alphaNth first j = if decide (j < K)%nat then Some 1 else None.
Proof.
  intros Hb. induction K as [|K IH]; cbn [firstNames].
  - rewrite lookup_empty. now destruct (decide (j < 0)%nat); [lia|].
  - destruct (decide (j = K)) as [->|Hne].
    + rewrite lookup_insert_eq. destruct (decide (K < S K)%nat); [reflexivity | lia].
    + rewrite lookup_insert_ne by (intros Heq; apply alphaNth_inj in Heq; auto).
      rewrite IH. repeat case_decide; try reflexivity; lia.
Qed.

Lemma firstNames_size first K : letterBase first -> size (firstNames first K) = K.
Proof.
  intros Hb. induction K as [|K IH]; cbn [firstNames]; [apply map_size_empty|].
  rewrite map_size_insert_None, IH; [reflexivity|].
  rewrite firstNames_lookup by assumption. case_decide; [lia | reflexivity].
Qed.

Lemma allocate_minified_from pc b names :
  minify pc = true -> Forall (fun n => n <> "") names ->
  forall fc K,
    allVars fc = firstNames (firstLetter b) K ->
    Z.of_nat (K + length names) < 2 ^ 63 ->
    exists fc', allocate pc fc ((fun n => (n, b)) <$> names)
                = Ok (alphaNth (firstLetter b) <$> seq K (length names), fc').
Proof.
  intros Hmin Hnames. induction Hnames as [|name names Hname Hnames IH]; intros fc K Hvars Hbound.
  - eexists. reflexivity.
  - pose proof (firstLetter_base b) as Hb.
    destruct (newVariable_minified pc fc name b K) as (fc1 & Hnew & Hvars1); try assumption.
    + rewrite Hvars, firstNames_size by assumption. lia.
    + cbn [length] in Hbound. lia.
    + unfold lookupVar. rewrite Hvars, firstNames_lookup by assumption.
      case_decide; [lia | reflexivity].
    + intros j Hj. unfold lookupVar. rewrite Hvars, firstNames_lookup by assumption.
      case_decide; [discriminate | lia].
    + destruct (IH fc1 (S K)) as (fc2 & Hrest).
      * rewrite Hvars1, Hvars. reflexivity.
      * cbn [length] in Hbound. lia.
      * exists fc2. cbn [fmap list_fmap allocate length seq].
        rewrite Hnew. cbn [mbind res_bind bind].
        change (list_fmap _ _ (fun n => (n, b)) names) with ((fun n => (n, b)) <$> names).
        rewrite Hrest. reflexivity.
Qed.

(** ** Allocation always returns for a non-empty proposed name *)


(** ** Dependency edges recorded by [objectName] and [instName] *)


(** ** Natural naming mode *)

Lemma natural_x_three_times pkgLevel :
  exists fc', allocate pcNatural freshScope [("x", pkgLevel); ("x", pkgLevel); ("x", pkgLevel)]
              = Ok (["x"; "x$1"; "x$2"], fc').
Proof. destruct pkgLevel; eexists; vm_compute; reflexivity. Qed.

Lemma encodeIdent_dollar : encodeIdent "x$" = "x$24".
Proof. vm_compute. reflexivity. Qed.

(** The names of a run are pairwise distinct for the proposed names that
    reach [newVariable], which are identifiers; the sanitised form of other
    texts can meet a counter suffix.  In natural naming mode a fresh scope is
    asked for "x" twenty-five times and then for "x$", which is no
    identifier.  The 25th answer is "x" with the counter suffix "$24"; the
    26th request is sanitised to "x$24" (the dollar sign is escaped to its
    hexadecimal code 24), has count 0 and is returned unsuffixed. *)
Lemma natural_names_collide :
  exists names fc',
    allocate pcNatural freshScope (repeat ("x", false) 25 ++ [("x$", false)])%list
      = Ok (names, fc') /\
    names !! 24%nat = Some "x$24" /\
    names !! 25%nat = Some "x$24" /\
    ~ NoDup names /\
    ~ NoDup (localVars fc').
Proof.
  eexists. eexists. split; [vm_compute; reflexivity|].
  split; [reflexivity|]. split; [reflexivity|].
  assert (Hdup : forall l : list string,
             l !! 24%nat = Some "x$24" -> l !! 25%nat = Some "x$24" -> ~ NoDup l).
  { intros l H24 H25 Hnd.
    pose proof (NoDup_lookup l 24%nat 25%nat "x$24" Hnd H24 H25). discriminate. }
  split; apply Hdup; reflexivity.
Qed.

(** ** Minified naming mode *)

Example alphaNth_upper :
  alphaNth 65 <$> [0; 1; 25; 26; 27; 51; 52; 701; 702]%nat
  = ["A"; "B"; "Z"; "AA"; "AB"; "AZ"; "BA"; "ZZ"; "AAA"].
Proof. vm_compute. reflexivity. Qed.

Example alphaNth_lower :
  alphaNth 97 <$> [0; 1; 25; 26; 27; 51; 52; 701; 702]%nat
  = ["a"; "b"; "z"; "aa"; "ab"; "az"; "ba"; "zz"; "aaa"].
Proof. vm_compute. reflexivity. Qed.

(** C7: in minified naming mode, (1) the allocations of a scope with an empty
    count table, all at module level ([b = true], first letter 'A') or all
    at function level ([b = false], first letter 'a'), return in order the
    strings number 0, 1, 2, ... of the sequence A, B, ..., Z, AA, AB, ...
    (resp. a, b, ..., z, aa, ...), whatever names are proposed; and (2) in a
    scope with any count table the allocation returns the first string of
    the sequence whose count in the table is 0, the candidates before it,
    which all have a non-zero count, being skipped. *)
Theorem minified_sequence (pc : pkgContext) (b : bool) :
  minify pc = true ->
  (forall fc names,
      allVars fc = ∅ ->
      Forall (fun n => n <> "") names ->
      Z.of_nat (length names) < 2 ^ 63 ->
      exists fc', allocate pc fc ((fun n => (n, b)) <$> names)
                  = Ok (alphaNth (firstLetter b) <$> seq 0 (length names), fc')) /\
  (forall fc name,
      name <> "" ->
      Z.of_nat (size (allVars fc)) < 2 ^ 63 ->
      exists k fc',
        newVariable pc fc name b = Ok (alphaNth (firstLetter b) k, fc') /\
        lookupVar (allVars fc) (alphaNth (firstLetter b) k) = 0 /\
        forall j, (j < k)%nat -> lookupVar (allVars fc) (alphaNth (firstLetter b) j) <> 0).
Proof.
  intros Hmin. split.
  - intros fc names Hfresh Hnames Hbound.
    apply (allocate_minified_from pc b names Hmin Hnames fc 0%nat); [assumption | lia].
  - intros fc name Hname Hsize.
    destruct (least_free_candidate (allVars fc) (firstLetter b) (firstLetter_base b))
      as (k & Hk & Hfree & Hused).
    destruct (newVariable_minified pc fc name b k) as (fc' & Hnew & _);
      try assumption; [lia|].
    exists k, fc'. auto.
Qed.

Lemma minified_sequence_witness :
  (exists fc', allocate pcMinified freshScope [("x", true); ("y", true); ("x", true)]
               = Ok (["A"; "B"; "C"], fc')) /\
  (exists k fc', newVariable pcMinified freshScope "tmp" false = Ok (alphaNth 97 k, fc') /\
                 lookupVar (allVars freshScope) (alphaNth 97 k) = 0 /\
                 forall j, (j < k)%nat -> lookupVar (allVars freshScope) (alphaNth 97 j) <> 0).
Proof.
  split.
  - apply (proj1 (minified_sequence pcMinified true eq_refl) freshScope ["x"; "y"; "x"]).
    + reflexivity.
    + repeat constructor; discriminate.
    + reflexivity.
  - apply (proj2 (minified_sequence pcMinified false eq_refl) freshScope "tmp").
    + discriminate.
    + reflexivity.
Defined.

(** ** Dependency edges of [instName] *)




End NamingProofs.

(** * Part VI: properties of the value bridge *)

Module BridgeProofs.
Import Bridge.
Local Open Scope Z_scope.

(** ** Unfolding [$internalize] *)

Lemma internalize_S rt fuel v t recv seen mk h :
  internalize rt (S fuel) v t recv seen mk h
  = internalize_body rt (internalize rt fuel) fuel v t recv seen mk h.
Proof. reflexivity. Qed.

Lemma eqb_ne (a b : nat) : a <> b -> Nat.eqb a b = false.
Proof. intros H. now apply Nat.eqb_neq. Qed.

Lemma internalize_body_switch rt self fuel v t recv seen mk h :
  reachesSwitch rt h v t seen ->
  internalize_body rt self fuel v t recv seen mk h
  = internalize_switch rt self fuel v t recv (default [] seen) mk h.
Proof.
  intros (Hptr & Helem & Hint & Htime & Hseen). unfold internalize_body.
  rewrite (eqb_ne _ _ Hptr), (eqb_ne _ _ Helem), Hint.
  cbn [mbind res_bind bind]. rewrite bool_decide_eq_true_2 by reflexivity. cbn [negb].
  rewrite bool_decide_eq_false_2 by assumption. now rewrite Hseen.
Qed.

Lemma internalize_reaches_switch rt fuel v t recv seen mk h :
  reachesSwitch rt h v t seen ->
  internalize rt (S fuel) v t recv seen mk h
  = internalize_switch rt (internalize rt fuel) fuel v t recv (default [] seen) mk h.
Proof. intros H. rewrite internalize_S. now apply internalize_body_switch. Qed.

(** ** The element type of the host handle *)

(** C10: for every host value, internalizing into the element type of the
    host handle pointer (js.Object itself, not *js.Object) is a fatal runtime
    error, (1) at the top of [$internalize], for every receiver, seen-set and
    wrapper factory, and (2) in the first-field search of the struct case
    when the search arrives at that descriptor, so that (3) internalizing
    into a struct whose first field has that type is the same fatal error. *)
Theorem internalize_handle_value_fatal (rt : runtime) :
  jsObjectPtr rt <> elem (ty rt (jsObjectPtr rt)) ->
  forall (fuel : nat) (v recv mk : jsval) (seen : option seenMap) (h : heap),
    internalize rt (S fuel) v (elem (ty rt (jsObjectPtr rt))) recv seen mk h
      = Panic jsObjectMessage /\
    searchJsObjectIn rt (S fuel) v (elem (ty rt (jsObjectPtr rt))) h
      = Panic jsObjectMessage /\
    forall (t : tid) (f : field) (fs : list field),
      kind (ty rt t) = kindStruct ->
      fields (ty rt t) = f :: fs ->
      typ f = elem (ty rt (jsObjectPtr rt)) ->
      reachesSwitch rt h v t seen ->
      internalize rt (S (S (S fuel))) v t recv seen mk h = Panic jsObjectMessage.
Proof.
  intros Hne fuel v recv mk seen h.
  assert (Hsearch : forall n, searchJsObjectIn rt (S n) v (elem (ty rt (jsObjectPtr rt))) h
                              = Panic jsObjectMessage).
  { intros n. cbn [searchJsObjectIn].
    rewrite (eqb_ne _ _ (not_eq_sym Hne)), Nat.eqb_refl. reflexivity. }
  split; [|split].
  - rewrite internalize_S. unfold internalize_body.
    rewrite (eqb_ne _ _ (not_eq_sym Hne)), Nat.eqb_refl. reflexivity.
  - apply Hsearch.
  - intros t f fs Hkind Hfields Htyp Hreach.
    rewrite internalize_reaches_switch by assumption.
    unfold internalize_switch. rewrite Hkind.
    destruct Hreach as (Hptr & Helem & _).
    cbn [searchJsObjectIn].
    rewrite (eqb_ne _ _ Hptr), (eqb_ne _ _ Helem), Hkind, Hfields, Htyp.
    rewrite (eqb_ne _ _ (not_eq_sym Hne)), Nat.eqb_refl. reflexivity.
Qed.

Lemma internalize_handle_value_fatal_witness :
  internalize sampleRuntime 1 (JStr (str "host")) tJsObject JUndefined None JUndefined []
    = Panic jsObjectMessage /\
  searchJsObjectIn sampleRuntime 1 (JStr (str "host")) tJsObject [] = Panic jsObjectMessage /\
  internalize sampleRuntime 3 (JStr (str "host")) tByValue JUndefined None JUndefined []
    = Panic jsObjectMessage.
Proof.
  assert (Hne : jsObjectPtr sampleRuntime <> elem (ty sampleRuntime (jsObjectPtr sampleRuntime)))
    by (vm_compute; discriminate).
  destruct (internalize_handle_value_fatal sampleRuntime Hne 0%nat (JStr (str "host"))
              JUndefined JUndefined None []) as (H1 & H2 & H3).
  split; [exact H1 | split; [exact H2 |]].
  apply (H3 tByValue (fld "o" false tJsObject) []); try reflexivity.
  repeat split; vm_compute; congruence.
Defined.

(** ** Interface targets *)

(** C8 as stated fails: a host object that carries a back reference to a
    compiled [*Temp], whose method set has [String], internalizes into the
    non-empty interface [fmt.Stringer] without any error: the result is the
    compiled value behind the back reference. *)
Lemma internalize_stringer_back_reference :
  internalize sampleRuntime 1 (JRef 1%nat) tStringer JUndefined None JUndefined wrappedTempHeap
  = Ok (JRef 0%nat, [], wrappedTempHeap).
Proof. vm_compute. reflexivity. Qed.

(** C8, amended: for an interface descriptor [t], (1) if the method set of
    [t] is not empty, internalizing any host value that carries no back
    reference to a compiled value (and is not cached for [t] in the seen-set,
    which never happens on a call without seen-set) is the fatal runtime
    error "cannot internalize " followed by the name of [t]; (2) if the
    method set is empty, host null internalizes to the nil interface and
    host undefined to the host handle wrapping undefined. *)
Theorem internalize_interface (rt : runtime) (t : tid) :
  kind (ty rt t) = kindInterface ->
  forall (fuel : nat) (recv mk : jsval) (seen : option seenMap) (h : heap),
    (methods (ty rt t) <> [] ->
     forall v, reachesSwitch rt h v t seen ->
       internalize rt (S fuel) v t recv seen mk h
       = Panic ("cannot internalize " ++ tstring (ty rt t))) /\
    (methods (ty rt t) = [] ->
     (reachesSwitch rt h JNull t seen ->
      internalize rt (S fuel) JNull t recv seen mk h = Ok (JIfaceNil, default [] seen, h)) /\
     (reachesSwitch rt h JUndefined t seen ->
      internalize rt (S fuel) JUndefined t recv seen mk h
      = Ok (JNew (jsObjectPtr rt) JUndefined, default [] seen, h))).
Proof.
  intros Hkind fuel recv mk seen h. split.
  - intros Hm v Hreach. rewrite internalize_reaches_switch by assumption.
    unfold internalize_switch. rewrite Hkind.
    destruct (methods (ty rt t)); [congruence | reflexivity].
  - intros Hm. split; intros Hreach; rewrite internalize_reaches_switch by assumption;
      unfold internalize_switch; rewrite Hkind, Hm; reflexivity.
Qed.

Lemma internalize_interface_witness :
  internalize sampleRuntime 1 (JNum (Fin 5 0)) tStringer JUndefined None JUndefined []
    = Panic "cannot internalize fmt.Stringer" /\
  internalize sampleRuntime 1 JNull tEmptyInterface JUndefined None JUndefined []
    = Ok (JIfaceNil, [], []) /\
  internalize sampleRuntime 1 JUndefined tEmptyInterface JUndefined None JUndefined []
    = Ok (JNew tJsObjectPtr JUndefined, [], []).
Proof.
  assert (Hreach : forall v t, t = tStringer \/ t = tEmptyInterface ->
                     v = JNum (Fin 5 0) \/ v = JNull \/ v = JUndefined ->
                     reachesSwitch sampleRuntime [] v t None).
  { intros v t [-> | ->] [-> | [-> | ->]]; repeat split; vm_compute; congruence. }
  split; [|split].
  - apply (proj1 (internalize_interface sampleRuntime tStringer eq_refl 0%nat
                    JUndefined JUndefined None [])); [discriminate | auto].
  - apply (proj1 (proj2 (internalize_interface sampleRuntime tEmptyInterface eq_refl 0%nat
                           JUndefined JUndefined None []) eq_refl)); auto.
  - apply (proj2 (proj2 (internalize_interface sampleRuntime tEmptyInterface eq_refl 0%nat
                           JUndefined JUndefined None []) eq_refl)); auto.
Defined.

(** ** Integer targets *)

Lemma toInt32_integerPart n : toInt32 n = wrapS 32 (integerPart n).
Proof. destruct n; reflexivity. Qed.

Lemma toUint32_integerPart n : toUint32 n = wrapU 32 (integerPart n).
Proof. destruct n; reflexivity. Qed.

Lemma truncate_0 z : truncate z 0 = z.
Proof. unfold truncate. apply Z.quot_1_r. Qed.

Lemma toInt32_ofInt z : toInt32 (ofInt z) = wrapS 32 z.
Proof. unfold ofInt, toInt32. now rewrite truncate_0. Qed.

Lemma toUint32_ofInt z : toUint32 (ofInt z) = wrapU 32 z.
Proof. unfold ofInt, toUint32. now rewrite truncate_0. Qed.

Ltac wrap_arith :=
  unfold wrapS, wrapU;
  rewrite ?Z.shiftl_mul_pow2, ?Z.shiftr_div_pow2 by lia;
  repeat match goal with
         | |- context [2 ^ ?k] =>
             let c := eval vm_compute in (2 ^ k) in change (2 ^ k) with c
         end;
  repeat match goal with
         | |- context [?a <? ?b] => destruct (Z.ltb_spec a b)
         end;
  Z.div_mod_to_equations; lia.

Lemma sar_shl_24 a : Z.shiftr (wrapS 32 (wrapS 32 (Z.shiftl (wrapS 32 a) 24))) 24 = wrapS 8 a.
Proof. wrap_arith. Qed.

Lemma sar_shl_16 a : Z.shiftr (wrapS 32 (wrapS 32 (Z.shiftl (wrapS 32 a) 16))) 16 = wrapS 16 a.
Proof. wrap_arith. Qed.

Lemma shr_shl_24 a : Z.shiftr (wrapU 32 (wrapS 32 (Z.shiftl (wrapS 32 a) 24))) 24 = wrapU 8 a.
Proof. wrap_arith. Qed.

Lemma shr_shl_16 a : Z.shiftr (wrapU 32 (wrapS 32 (Z.shiftl (wrapS 32 a) 16))) 16 = wrapU 16 a.
Proof. wrap_arith. Qed.

Lemma sar_shl_int8 n : sar (shl n 24) 24 = ofInt (wrapS 8 (integerPart n)).
Proof.
  unfold sar, shl. now rewrite toInt32_ofInt, toInt32_integerPart, sar_shl_24.
Qed.

Lemma sar_shl_int16 n : sar (shl n 16) 16 = ofInt (wrapS 16 (integerPart n)).
Proof.
  unfold sar, shl. now rewrite toInt32_ofInt, toInt32_integerPart, sar_shl_16.
Qed.

Lemma sar_int32 n : sar n 0 = ofInt (wrapS 32 (integerPart n)).
Proof. unfold sar. now rewrite toInt32_integerPart, Z.shiftr_0_r. Qed.

Lemma shr_shl_uint8 n : shr (shl n 24) 24 = ofInt (wrapU 8 (integerPart n)).
Proof.
  unfold shr, shl. now rewrite toUint32_ofInt, toInt32_integerPart, shr_shl_24.
Qed.

Lemma shr_shl_uint16 n : shr (shl n 16) 16 = ofInt (wrapU 16 (integerPart n)).
Proof.
  unfold shr, shl. now rewrite toUint32_ofInt, toInt32_integerPart, shr_shl_16.
Qed.

Lemma shr_uint32 n : shr n 0 = ofInt (wrapU 32 (integerPart n)).
Proof. unfold shr. now rewrite toUint32_integerPart, Z.shiftr_0_r. Qed.

(** The integer kinds with a shift pair in the switch: the value parsed by
    [parseInt] is cut to the low bits of the width and extended by sign
    (signed kinds) or by zeros (unsigned kinds). *)
Lemma internalize_bit_rule (rt : runtime) (t : tid) (f : Z -> Z)
    (fuel : nat) (v recv mk : jsval) (seen : option seenMap) (h : heap) :
  bitRule (kind (ty rt t)) = Some f ->
  reachesSwitch rt h v t seen ->
  internalize rt (S fuel) v t recv seen mk h
  = (n ← parseInt h v; Ok (JNum (ofInt (f (integerPart n))), default [] seen, h)).
Proof.
  intros Hrule Hreach. rewrite internalize_reaches_switch by assumption.
  unfold internalize_switch.
  destruct (kind (ty rt t)); try discriminate; injection Hrule as <-;
    destruct (parseInt h v) as [n| | | |]; try reflexivity; cbn [mbind res_bind bind];
    now rewrite ?sar_shl_int8, ?sar_shl_int16, ?sar_int32,
                ?shr_shl_uint8, ?shr_shl_uint16, ?shr_uint32.
Qed.

Lemma reachesSwitch_sample_number n t :
  t <> tJsObjectPtr -> t <> tJsObject -> t <> tTime ->
  reachesSwitch sampleRuntime [] (JNum n) t None.
Proof.
  intros H1 H2 H3. repeat split; try assumption.
  - unfold internalObject. now destruct (truthy (JNum n)).
  - cbn. congruence.
Qed.

(** The examples of the specification: 300 into int8 and uint8, 3.9 into
    every integer kind. *)
Lemma internalize_300 :
  internalize sampleRuntime 1 (JNum (Fin 300 0)) tInt8 JUndefined None JUndefined []
    = Ok (JNum (Fin 44 0), [], []) /\
  internalize sampleRuntime 1 (JNum (Fin 300 0)) tUint8 JUndefined None JUndefined []
    = Ok (JNum (Fin 44 0), [], []).
Proof. split; vm_compute; reflexivity. Qed.

Lemma internalize_3_9 :
  Forall (fun t => internalize sampleRuntime 1 (JNum (Fin 39 1)) t JUndefined None JUndefined []
                   = Ok (JNum (Fin 3 0), [], []))
         [tInt; tInt8; tInt16; tInt32; tUint; tUint8; tUint16; tUint32; tUintptr] /\
  internalize sampleRuntime 1 (JNum (Fin 39 1)) tInt64 JUndefined None JUndefined []
    = Ok (JInt64 tInt64 0 3, [], []) /\
  internalize sampleRuntime 1 (JNum (Fin 39 1)) tUint64 JUndefined None JUndefined []
    = Ok (JInt64 tUint64 0 3, [], []).
Proof. repeat split; repeat constructor; vm_compute; reflexivity. Qed.

(** C2, evaluated at the failing inputs: the kinds int and uint, which are
    32 bits wide like int32 and uint32, have no shift in the switch and
    return the parsed number untouched.  4294967301 (2^32 + 5) internalizes
    into int as 4294967301, while its low 32 bits are 5 and int32 yields 5;
    -1 internalizes into uint as -1, while uint32 yields 4294967295; a host
    value without digits internalizes into int as NaN, while int32 yields 0. *)
Theorem internalize_int_keeps_all_bits :
  internalize sampleRuntime 1 (JNum (Fin 4294967301 0)) tInt JUndefined None JUndefined []
    = Ok (JNum (Fin 4294967301 0), [], []) /\
  wrapS 32 4294967301 = 5 /\
  internalize sampleRuntime 1 (JNum (Fin 4294967301 0)) tInt32 JUndefined None JUndefined []
    = Ok (JNum (Fin 5 0), [], []) /\
  internalize sampleRuntime 1 (JNum (Fin (-1) 0)) tUint JUndefined None JUndefined []
    = Ok (JNum (Fin (-1) 0), [], []) /\
  internalize sampleRuntime 1 (JNum (Fin (-1) 0)) tUint32 JUndefined None JUndefined []
    = Ok (JNum (Fin 4294967295 0), [], []) /\
  internalize sampleRuntime 1 (JStr (str "abc")) tInt JUndefined None JUndefined []
    = Ok (JNum NaN, [], []) /\
  internalize sampleRuntime 1 (JStr (str "abc")) tInt32 JUndefined None JUndefined []
    = Ok (JNum (Fin 0 0), [], []).
Proof. repeat split; vm_compute; reflexivity. Qed.

(** The same for every runtime: int and uint return what [parseInt] returns. *)
Lemma internalize_int_unwrapped (rt : runtime) (t : tid)
    (fuel : nat) (v recv mk : jsval) (seen : option seenMap) (h : heap) :
  kind (ty rt t) = kindInt \/ kind (ty rt t) = kindUint ->
  reachesSwitch rt h v t seen ->
  internalize rt (S fuel) v t recv seen mk h
  = (n ← parseInt h v; Ok (JNum n, default [] seen, h)).
Proof.
  intros Hkind Hreach. rewrite internalize_reaches_switch by assumption.
  unfold internalize_switch. destruct Hkind as [-> | ->]; reflexivity.
Qed.

(** ** Heap steps *)

Lemma setProp_fresh (h : heap) (o : object) (p : jsstring) (x : jsval) :
  setProp (h ++ [o]) (length h) p x = Ok (h ++ [withProps o (assocSet (props o) p x)]).
Proof.
  unfold setProp in *. rewrite list_lookup_middle by reflexivity.
  f_equal. replace (length h) with (length h + 0)%nat at 1 by lia.
  now rewrite insert_app_r.
Qed.

Lemma lookup_snoc_old {A} (h : list A) (x o : A) (a : nat) :
  h !! a = Some o -> (h ++ [x]) !! a = Some o.
Proof. intros H. rewrite lookup_app_l; [assumption | now apply lookup_lt_Some in H]. Qed.

(** ** Steps of the switch *)

Lemma switch_ptr_to_struct rt self fuel v t recv seen0 mk h :
  kind (ty rt t) = kindPtr ->
  kind (ty rt (elem (ty rt t))) = kindStruct ->
  internalize_switch rt self fuel v t recv seen0 mk h
  = ('(x, h1) ← self3 self (elem (ty rt t)) mk v h; Ok (x, seen0, h1)).
Proof.
  intros Hk He. unfold internalize_switch. rewrite Hk, He.
  now rewrite !bool_decide_eq_true_2 by reflexivity.
Qed.

Lemma switch_struct rt self fuel v t recv seen0 mk h :
  kind (ty rt t) = kindStruct ->
  internalize_switch rt self fuel v t recv seen0 mk h
  = ('(o, h1) ← searchJsObjectIn rt fuel v t h;
     match o with
     | Some o' => Ok (o', seen0, h1)
     | None =>
         let (n, h2) := newStruct rt t h1 in
         '(seen1, h3) ← internalizeFields self v n recv mk (fields (ty rt t)) seen0 h2;
         Ok (JRef n, seen1, h3)
     end).
Proof. intros Hk. unfold internalize_switch. now rewrite Hk. Qed.

(** ** The self-referential list node *)

Lemma selfNode_props (h : heap) :
  h !! 0%nat = Some selfNode ->
  getProp h (JRef 0%nat) (str "Val") = Ok (JNum (Fin 1 0)) /\
  getProp h (JRef 0%nat) (str "Next") = Ok (JRef 0%nat) /\
  internalObject h (JRef 0%nat) = Ok JUndefined.
Proof.
  intros H. unfold internalObject, getProp in *. cbn [truthy].
  rewrite H. repeat split.
Qed.

Lemma selfNode_reaches (h : heap) (t : tid) (seen : option seenMap) :
  h !! 0%nat = Some selfNode -> t = tNode \/ t = tNodePtr -> seen = None \/ seen = Some [] ->
  reachesSwitch sampleRuntime h (JRef 0%nat) t seen.
Proof.
  intros H Ht Hseen. destruct (selfNode_props h H) as (_ & _ & Hint).
  destruct Ht as [-> | ->], Hseen as [-> | ->];
    repeat split; try assumption; try (vm_compute; congruence).
Qed.

Lemma internalize_one (fuel : nat) recv mk h :
  internalize sampleRuntime (S fuel) (JNum (Fin 1 0)) tInt recv (Some []) mk h
  = Ok (JNum (Fin 1 0), [], h).
Proof.
  rewrite internalize_reaches_switch; [reflexivity|].
  repeat split; vm_compute; congruence.
Qed.

Lemma selfNode_diverges (fuel : nat) :
  (forall h recv mk, h !! 0%nat = Some selfNode ->
     internalize sampleRuntime fuel (JRef 0%nat) tNode recv None mk h = OutOfFuel) /\
  (forall h recv mk, h !! 0%nat = Some selfNode ->
     internalize sampleRuntime fuel (JRef 0%nat) tNodePtr recv (Some []) mk h = OutOfFuel).
Proof.
  induction fuel as [|fuel [IHnode IHptr]]; [split; reflexivity|].
  split; intros h recv mk Hh.
  - rewrite internalize_reaches_switch by (apply selfNode_reaches; auto).
    rewrite switch_struct by reflexivity.
    destruct fuel as [|[|fuel]]; [reflexivity | reflexivity |].
    replace (searchJsObjectIn sampleRuntime (S (S fuel)) (JRef 0%nat) tNode h)
      with (Ok (None : option jsval, h)) by reflexivity.
    cbn [mbind res_bind bind default].
    unfold newStruct, alloc.
    change (fields (ty sampleRuntime tNode))
      with [fld "Val" true tInt; fld "Next" true tNodePtr].
    set (fresh := withProps _ _).
    cbn [internalizeFields exported fld negb name typ prop].
    destruct (selfNode_props (h ++ [fresh])) as (HVal & HNext & _);
      [now apply lookup_snoc_old|].
    rewrite HVal. cbn [mbind res_bind bind].
    rewrite internalize_one. cbn [mbind res_bind bind].
    rewrite setProp_fresh. cbn [mbind res_bind bind].
    set (fresh' := withProps fresh _).
    destruct (selfNode_props (h ++ [fresh'])) as (_ & HNext' & _);
      [now apply lookup_snoc_old|].
    rewrite HNext'. cbn [mbind res_bind bind].
    rewrite IHptr by now apply lookup_snoc_old. reflexivity.
  - rewrite internalize_reaches_switch by (apply selfNode_reaches; auto).
    rewrite switch_ptr_to_struct by reflexivity.
    unfold self3. change (elem (ty sampleRuntime tNodePtr)) with tNode.
    rewrite IHnode by assumption. reflexivity.
Qed.

(** ** Cyclic host values *)

(** The recursive map type: the Map is entered into the seen-set before the
    keys are visited, the inner call finds it there, and the entry of the
    result under "self" is the result itself. *)
Lemma internalize_self_map_terminates (fuel : nat) :
  internalize sampleRuntime (S (S fuel)) (JRef 0%nat) tM JUndefined None JUndefined [selfMap]
  = Ok (JRef 1%nat, [(tM, JRef 0%nat, JRef 1%nat)],
        [selfMap;
         withEntries (emptyObject CMap)
           [(JStr (str "self"), (JStr (str "self"), JRef 1%nat))]]).
Proof. vm_compute. reflexivity. Qed.

(** ** Struct fields *)

Lemma externalize_S rt fuel v t mk h :
  externalize rt (S fuel) v t mk h = externalize_body rt (externalize rt fuel) fuel v t mk h.
Proof. reflexivity. Qed.

(** The struct case of [$externalize] when the value is no time.Time. *)
Lemma externalize_struct rt fuel v t mk h :
  t <> jsObjectPtr rt -> kind (ty rt t) = kindStruct -> notTime rt h v ->
  externalize rt (S fuel) v t mk h
  = (o ← searchJsObjectOut rt fuel h v t;
     match o with
     | Some o => Ok (o, h)
     | None =>
         if decide (mk = JUndefined) then
           let (o, h1) := alloc h (emptyObject CObject) in
           h2 ← externalizeFields (externalize rt fuel) v o mk (fields (ty rt t)) h1;
           Ok (JRef o, h2)
         else Ok (JCall mk v, h)
     end).
Proof.
  intros Hne Hk Htime. rewrite externalize_S. unfold externalize_body.
  rewrite (eqb_ne _ _ Hne), Hk. unfold notTime in Htime.
  destruct (timePkg rt) as [tTime|]; [|reflexivity].
  destruct Htime as (c & -> & Hc). cbn [mbind res_bind bind].
  now rewrite bool_decide_eq_false_2 by assumption.
Qed.

Lemma getProp_struct_snoc (h : heap) (a : addr) (o x : object) (p : jsstring) :
  h !! a = Some o -> isArrayClass (cls o) = false ->
  getProp (h ++ [x]) (JRef a) p = Ok (default JUndefined (assocGet (props o) p)).
Proof.
  intros Ha Hc. unfold getProp. rewrite (lookup_snoc_old h x o a Ha). now rewrite Hc.
Qed.

(** C6 as stated fails: the struct [P] has the exported field [A] of type
    string and the unexported field [b] of type int; internalizing the host
    object without properties into [P] does not leave [A] at the zero value
    of its type, the empty string: the missing property reads as undefined,
    which the string case turns into the string "undefined". *)
Lemma internalize_missing_string_property :
  internalize sampleRuntime 3 (JRef 0%nat) tP JUndefined None JUndefined [plainObject []]
    = Ok (JRef 1%nat, [],
          [plainObject [];
           structObject tP [(str "A", JStr (str "undefined")); (str "b", JNum (Fin 0 0))]]) /\
  zero sampleRuntime tString = JStr [] /\
  JStr (str "undefined") <> zero sampleRuntime tString.
Proof.
  split; [vm_compute; reflexivity|]. split; [reflexivity|].
  intros H. vm_compute in H. discriminate H.
Qed.

(** C6, amended.  Let [t] be a struct descriptor with an exported field [fA]
    and an unexported field [fb], without host-handle promotion.
    (1) Externalizing, with no wrapper factory, a struct value [v] of that
    type whose field [fA] externalizes to [y] returns a fresh host object
    whose only property is [name fA], with value [y]; the unexported field
    yields no property.
    (2) Internalizing into [t] a host object that carries no back reference
    and has no property [name fA] returns a fresh struct in which the
    unexported field holds the zero value of its type and the exported
    field holds the result [x] of internalizing host undefined into the
    descriptor of [fA] (which is the zero value of that descriptor for some
    kinds only). *)
Theorem struct_field_visibility (rt : runtime) (t : tid) (fA fb : field)
    (fuel : nat) (h : heap) (a : addr) (o : object) :
  t <> jsObjectPtr rt ->
  kind (ty rt t) = kindStruct ->
  fields (ty rt t) = [fA; fb] ->
  exported fA = true ->
  exported fb = false ->
  h !! a = Some o ->
  isArrayClass (cls o) = false ->
  (forall (y : jsval) (h1 : heap),
      notTime rt h (JRef a) ->
      searchJsObjectOut rt fuel h (JRef a) t = Ok None ->
      externalize rt fuel (default JUndefined (assocGet (props o) (prop fA))) (typ fA)
        JUndefined (h ++ [emptyObject CObject]) = Ok (y, h1) ->
      h1 !! length h = Some (emptyObject CObject) ->
      externalize rt (S fuel) (JRef a) t JUndefined h
      = Ok (JRef (length h), <[length h := plainObject [(name fA, y)]]> h1)) /\
  (forall (recv mk x : jsval) (seen : option seenMap) (seen1 : seenMap) (h1 : heap),
      reachesSwitch rt h (JRef a) t seen ->
      searchJsObjectIn rt fuel (JRef a) t h = Ok (None, h) ->
      assocGet (props o) (name fA) = None ->
      internalize rt fuel JUndefined (typ fA) recv (Some (default [] seen)) mk
        (h ++ [structObject t [(prop fA, zero rt (typ fA)); (prop fb, zero rt (typ fb))]])
        = Ok (x, seen1, h1) ->
      h1 !! length h
        = Some (structObject t [(prop fA, zero rt (typ fA)); (prop fb, zero rt (typ fb))]) ->
      internalize rt (S fuel) (JRef a) t recv seen mk h
      = Ok (JRef (length h), seen1,
            <[length h := structObject t [(prop fA, x); (prop fb, zero rt (typ fb))]]> h1)).
Proof.
  intros Hne Hk Hfields HA Hb Ha Hcls. split.
  - intros y h1 Htime Hsearch Hfield Hframe.
    rewrite externalize_struct, Hsearch by assumption.
    cbn [mbind res_bind bind]. rewrite decide_True by reflexivity.
    unfold alloc. rewrite Hfields. cbn [externalizeFields].
    rewrite HA, Hb. cbn [negb].
    rewrite (getProp_struct_snoc h a o _ _ Ha Hcls). cbn [mbind res_bind bind].
    rewrite Hfield. cbn [mbind res_bind bind].
    unfold setProp. rewrite Hframe. reflexivity.
  - intros recv mk x seen seen1 h1 Hreach Hsearch Hmissing Hfield Hframe.
    rewrite internalize_reaches_switch, switch_struct, Hsearch by assumption.
    cbn [mbind res_bind bind]. unfold newStruct, alloc. rewrite Hfields.
    cbn [map internalizeFields]. rewrite HA, Hb. cbn [negb].
    rewrite (getProp_struct_snoc h a o _ _ Ha Hcls), Hmissing.
    cbn [default mbind res_bind bind].
    unfold structObject in Hfield, Hframe. rewrite Hfield. cbn [mbind res_bind bind].
    unfold setProp. rewrite Hframe. cbn [mbind res_bind bind props withProps emptyObject assocSet].
    rewrite decide_True by reflexivity. reflexivity.
Qed.

(** ** Host-handle promotion *)

Lemma extends_refl (h : heap) : extends h h.
Proof. split; auto. Qed.

Lemma extends_trans (h1 h2 h3 : heap) : extends h1 h2 -> extends h2 h3 -> extends h1 h3.
Proof. intros [L1 H1] [L2 H2]. split; [lia | auto]. Qed.

Lemma extends_snoc (h : heap) (o : object) : extends h (h ++ [o]).
Proof.
  split; [rewrite length_app; lia|]. intros a x Ha. now apply lookup_snoc_old.
Qed.

Lemma adopted_extends rt h h' v t x :
  adopted rt h v t x -> extends h h' -> adopted rt h' v t x.
Proof.
  intros Had [_ Hext]. induction Had.
  - constructor.
  - now apply adopted_ptr.
  - eapply adopted_struct; eauto.
Qed.

(** The search of [$externalize] follows the chain of the value. *)
Lemma searchJsObjectOut_reaches rt h v t o :
  reachesHandle rt h v t o ->
  exists n, forall fuel, (n <= fuel)%nat -> searchJsObjectOut rt fuel h v t = Ok (Some o).
Proof.
  induction 1 as [v | v t x o Hne Hk Hnil Hget _ [n IH] | v t f fs x o Hne Hk Hf Hget _ [n IH]].
  - exists 1%nat. intros [|fuel] Hf; [lia|]. cbn [searchJsObjectOut].
    now rewrite Nat.eqb_refl.
  - exists (S n). intros [|fuel] Hf; [lia|]. cbn [searchJsObjectOut].
    rewrite (eqb_ne _ _ Hne), Hk, decide_False by assumption.
    rewrite Hget. cbn [mbind res_bind bind]. apply IH. lia.
  - exists (S n). intros [|fuel] Hfuel; [lia|]. cbn [searchJsObjectOut].
    rewrite (eqb_ne _ _ Hne), Hk, Hf, Hget. cbn [mbind res_bind bind]. apply IH. lia.
Qed.

(** The search of [$internalize] builds the nested structs of the chain. *)
Lemma searchJsObjectIn_chain rt v t :
  handleChain rt t ->
  exists n, forall fuel h, (n <= fuel)%nat ->
    exists x h',
      searchJsObjectIn rt fuel v t h = Ok (Some x, h') /\
      adopted rt h' v t x /\
      extends h h' /\
      (kind (ty rt t) = kindStruct -> t <> jsObjectPtr rt ->
       exists a, x = JRef a /\ (length h <= a)%nat).
Proof.
  induction 1 as [ | t Hne Hel Hk _ [n IH] | t f fs Hne Hel Hk Hf _ [n IH]].
  - exists 1%nat. intros [|fuel] h Hfuel; [lia|]. exists v, h. cbn [searchJsObjectIn].
    rewrite Nat.eqb_refl. repeat split; auto using adopted_handle. congruence.
  - exists (S n). intros [|fuel] h Hfuel; [lia|].
    destruct (IH fuel h) as (x & h' & Hs & Had & Hext & _); [lia|].
    exists x, h'. cbn [searchJsObjectIn].
    rewrite (eqb_ne _ _ Hne), (eqb_ne _ _ Hel), Hk, Hs.
    repeat split; try apply Hext; [now apply adopted_ptr | congruence].
  - exists (S n). intros [|fuel] h Hfuel; [lia|].
    destruct (IH fuel h) as (y & h1 & Hs & Had & Hext & _); [lia|].
    exists (JRef (length h1)). eexists. cbn [searchJsObjectIn].
    rewrite (eqb_ne _ _ Hne), (eqb_ne _ _ Hel), Hk, Hf, Hs. cbn [mbind res_bind bind].
    unfold newStruct, alloc. rewrite Hf, setProp_fresh. cbn [mbind res_bind bind].
    cbn [map props withProps emptyObject assocSet]. rewrite decide_True by reflexivity.
    split; [reflexivity|]. split; [|split].
    + eapply adopted_struct; eauto.
      * now apply list_lookup_middle.
      * eapply adopted_extends; [eassumption | apply extends_snoc].
    + eapply extends_trans; [eassumption | apply extends_snoc].
    + intros _ _. eexists. split; [reflexivity | apply Hext].
Qed.

(** The search of [$internalize] stops with the fatal error when the chain
    comes to js.Object held by value. *)
Lemma searchJsObjectIn_value_chain rt v t :
  valueChain rt t ->
  exists n, forall fuel h, (n <= fuel)%nat ->
    searchJsObjectIn rt fuel v t h = Panic jsObjectMessage.
Proof.
  induction 1 as [Hne | t Hne Hel Hk _ [n IH] | t f fs Hne Hel Hk Hf _ [n IH]].
  - exists 1%nat. intros [|fuel] h Hfuel; [lia|]. cbn [searchJsObjectIn].
    now rewrite (eqb_ne _ _ (not_eq_sym Hne)), Nat.eqb_refl.
  - exists (S n). intros [|fuel] h Hfuel; [lia|]. cbn [searchJsObjectIn].
    rewrite (eqb_ne _ _ Hne), (eqb_ne _ _ Hel), Hk. apply IH. lia.
  - exists (S n). intros [|fuel] h Hfuel; [lia|]. cbn [searchJsObjectIn].
    rewrite (eqb_ne _ _ Hne), (eqb_ne _ _ Hel), Hk, Hf, IH by lia. reflexivity.
Qed.

(** C5 as stated fails, in two ways.
    (a) The back reference wins over the promotion.  The host object of
    cell 1 wraps the compiled [Inner] of cell 0, and internalizing it into
    [Inner], whose first field is the host handle, returns that compiled
    value; no struct is built and the host object is adopted into no handle
    field.
    (b) A chain through js.Object held by value is followed in one
    direction only.  The first-field chain of the [ByValue] of cell 1
    arrives at the host handle, and [$externalize] returns that handle; but
    internalizing a host value into [ByValue] is the fatal error of the
    guard for js.Object, and nothing is adopted. *)
Lemma internalize_promotion_exceptions :
  (internalize sampleRuntime 1 (JRef 1%nat) tInner JUndefined None JUndefined wrappedInnerHeap
     = Ok (JRef 0%nat, [], wrappedInnerHeap) /\
   handleChain sampleRuntime tInner /\
   ~ adopted sampleRuntime wrappedInnerHeap (JRef 1%nat) tInner (JRef 0%nat)) /\
  (reachesHandle sampleRuntime byValueHeap (JRef 1%nat) tByValue (JStr (str "host")) /\
   externalize sampleRuntime 4 (JRef 1%nat) tByValue JUndefined byValueHeap
     = Ok (JStr (str "host"), byValueHeap) /\
   internalize sampleRuntime 4 (JStr (str "host")) tByValue JUndefined None JUndefined []
     = Panic jsObjectMessage).
Proof.
  split; [split; [vm_compute; reflexivity|]; split|].
  - eapply (chain_struct sampleRuntime tInner); try reflexivity; try (vm_compute; congruence).
    apply chain_handle.
  - intros Had.
    inversion Had as [ | t x Hne Hk _ | t f fs n y Hne Hk Hf Hlook Hy]; subst.
    + vm_compute in Hk. discriminate.
    + vm_compute in Hf. injection Hf as <- <-. vm_compute in Hlook.
      injection Hlook as <-.
      inversion Hy as [ | t x Hne' Hk' _ | t f fs n y Hne' Hk' _ _ _]; subst;
        vm_compute in Hne'; congruence.
  - split; [|split; vm_compute; reflexivity].
    eapply (reach_struct sampleRuntime byValueHeap (JRef 1%nat) tByValue);
      [vm_compute; congruence | reflexivity | reflexivity | reflexivity |].
    eapply (reach_struct sampleRuntime byValueHeap (JRef 0%nat) tJsObject);
      [vm_compute; congruence | reflexivity | reflexivity | reflexivity |].
    apply (reach_handle sampleRuntime byValueHeap (JStr (str "host"))).
Qed.

(** C5, amended.  Let [t] be a struct descriptor.
    (1) If the first-field chain of a struct value [v] of type [t], through
    nested structs and non-nil pointers at any depth, arrives at a host
    handle [o], then [$externalize] returns exactly [o] and allocates no
    host object, with or without a wrapper factory.
    (2) If the first-field chain of [t] arrives at the host handle pointer
    type *js.Object without coming to js.Object held by value on the way,
    then internalizing into [t] a host value [v] that carries no back
    reference to a compiled value returns a newly built struct around [v]:
    [v] sits in the innermost handle field, every struct on the way is
    fresh, and the objects that were in the heap are untouched.
    (3) If the chain of [t] comes to js.Object held by value, internalizing
    such a host value into [t] is the fatal runtime error of the guard for
    js.Object.
    (4) If [t] has no fields, both searches answer that there is no handle.
    In (1) [v] is no time.Time value, which the struct case turns into a
    Date before it searches.  In (2) and (3) the call gets as far as the
    struct case: [t] is not time.Time and the seen-set, which only map types
    are entered in, has no entry for [t] and [v]. *)
Theorem host_handle_promotion (rt : runtime) (t : tid) (h : heap) (v : jsval) :
  kind (ty rt t) = kindStruct ->
  (forall o, reachesHandle rt h v t o -> notTime rt h v ->
     exists n, forall fuel mk, (n <= fuel)%nat -> externalize rt fuel v t mk h = Ok (o, h)) /\
  (forall seen, handleChain rt t -> reachesSwitch rt h v t seen ->
     exists n, forall fuel recv mk, (n <= fuel)%nat ->
       exists a h',
         internalize rt fuel v t recv seen mk h = Ok (JRef a, default [] seen, h') /\
         (length h <= a)%nat /\
         adopted rt h' v t (JRef a) /\
         extends h h') /\
  (forall seen, valueChain rt t -> reachesSwitch rt h v t seen ->
     exists n, forall fuel recv mk, (n <= fuel)%nat ->
       internalize rt fuel v t recv seen mk h = Panic jsObjectMessage) /\
  (fields (ty rt t) = [] -> t <> jsObjectPtr rt ->
     forall fuel,
       searchJsObjectOut rt (S fuel) h v t = Ok None /\
       (t <> elem (ty rt (jsObjectPtr rt)) ->
        searchJsObjectIn rt (S fuel) v t h = Ok (None, h))).
Proof.
  intros Hk. split; [|split; [|split]].
  - intros o Hreach Htime.
    destruct (decide (t = jsObjectPtr rt)) as [->|Hne].
    + exists 1%nat. intros [|fuel] mk Hfuel; [lia|].
      rewrite externalize_S. unfold externalize_body. rewrite Nat.eqb_refl.
      inversion Hreach; subst; congruence.
    + destruct (searchJsObjectOut_reaches rt h v t o Hreach) as [n Hn].
      exists (S n). intros [|fuel] mk Hfuel; [lia|].
      rewrite externalize_struct, Hn by (assumption || lia). reflexivity.
  - intros seen Hchain Hreach.
    destruct (searchJsObjectIn_chain rt v t Hchain) as [n Hn].
    exists (S n). intros [|fuel] recv mk Hfuel; [lia|].
    destruct (Hn fuel h) as (x & h' & Hs & Had & Hext & Hnew); [lia|].
    destruct Hnew as (a & -> & Ha); [assumption | apply Hreach |].
    exists a, h'.
    rewrite internalize_reaches_switch, switch_struct, Hs by assumption.
    auto.
  - intros seen Hchain Hreach.
    destruct (searchJsObjectIn_value_chain rt v t Hchain) as [n Hn].
    exists (S n). intros [|fuel] recv mk Hfuel; [lia|].
    rewrite internalize_reaches_switch, switch_struct, Hn by (assumption || lia).
    reflexivity.
  - intros Hf Hne fuel. split.
    + cbn [searchJsObjectOut]. now rewrite (eqb_ne _ _ Hne), Hk, Hf.
    + intros Hel. cbn [searchJsObjectIn].
      now rewrite (eqb_ne _ _ Hne), (eqb_ne _ _ Hel), Hk, Hf.
Qed.

Lemma host_handle_promotion_witness :
  (exists n, forall fuel mk, (n <= fuel)%nat ->
     externalize sampleRuntime fuel (JRef 1%nat) tOuter mk outerHeap
     = Ok (JStr (str "host"), outerHeap)) /\
  (exists n, forall fuel recv mk, (n <= fuel)%nat ->
     exists a h',
       internalize sampleRuntime fuel (JStr (str "host")) tOuter recv None mk []
         = Ok (JRef a, [], h') /\
       (0 <= a)%nat /\
       adopted sampleRuntime h' (JStr (str "host")) tOuter (JRef a) /\
       extends [] h') /\
  (exists n, forall fuel recv mk, (n <= fuel)%nat ->
     internalize sampleRuntime fuel (JStr (str "host")) tByValue recv None mk []
       = Panic jsObjectMessage) /\
  (forall fuel,
     searchJsObjectOut sampleRuntime (S fuel) [] (JStr (str "host")) tEmpty = Ok None /\
     (tEmpty <> tJsObject ->
      searchJsObjectIn sampleRuntime (S fuel) (JStr (str "host")) tEmpty [] = Ok (None, []))).
Proof.
  split; [|split; [|split]].
  - apply (proj1 (host_handle_promotion sampleRuntime tOuter outerHeap (JRef 1%nat) eq_refl)).
    + eapply (reach_struct sampleRuntime outerHeap (JRef 1%nat) tOuter);
        [vm_compute; congruence | reflexivity | reflexivity | reflexivity |].
      eapply (reach_struct sampleRuntime outerHeap (JRef 0%nat) tInner);
        [vm_compute; congruence | reflexivity | reflexivity | reflexivity |].
      apply (reach_handle sampleRuntime outerHeap (JStr (str "host"))).
    + eexists. split; [reflexivity | vm_compute; congruence].
  - apply (proj1 (proj2 (host_handle_promotion sampleRuntime tOuter []
                           (JStr (str "host")) eq_refl)) None).
    + eapply (chain_struct sampleRuntime tOuter);
        [vm_compute; congruence | vm_compute; congruence | reflexivity | reflexivity |].
      eapply (chain_struct sampleRuntime tInner);
        [vm_compute; congruence | vm_compute; congruence | reflexivity | reflexivity |].
      apply chain_handle.
    + repeat split; vm_compute; congruence.
  - apply (proj1 (proj2 (proj2 (host_handle_promotion sampleRuntime tByValue []
                                  (JStr (str "host")) eq_refl))) None).
    + eapply (value_struct sampleRuntime tByValue);
        [vm_compute; congruence | vm_compute; congruence | reflexivity | reflexivity |].
      apply (value_here sampleRuntime). vm_compute. congruence.
    + repeat split; vm_compute; congruence.
  - apply (proj2 (proj2 (proj2 (host_handle_promotion sampleRuntime tEmpty []
                                  (JStr (str "host")) eq_refl)))).
    + reflexivity.
    + vm_compute. congruence.
Defined.

(** ** Struct fields, at the sample program *)

Lemma struct_field_visibility_witness :
  externalize sampleRuntime 3 (JRef 0%nat) tS JUndefined
      [structObject tS [(str "A", JNum (Fin 7 0)); (str "b", JNum (Fin 9 0))]]
    = Ok (JRef 1%nat,
          [structObject tS [(str "A", JNum (Fin 7 0)); (str "b", JNum (Fin 9 0))];
           plainObject [(str "A", JNum (Fin 7 0))]]) /\
  internalize sampleRuntime 3 (JRef 0%nat) tP JUndefined None JUndefined [plainObject []]
    = Ok (JRef 1%nat, [],
          [plainObject [];
           structObject tP [(str "A", JStr (str "undefined")); (str "b", JNum (Fin 0 0))]]).
Proof.
  split.
  - apply (proj1 (struct_field_visibility sampleRuntime tS (fld "A" true tInt)
                    (fld "b" false tInt) 2
                    [structObject tS [(str "A", JNum (Fin 7 0)); (str "b", JNum (Fin 9 0))]]
                    0%nat
                    (structObject tS [(str "A", JNum (Fin 7 0)); (str "b", JNum (Fin 9 0))])
                    ltac:(vm_compute; congruence) eq_refl eq_refl eq_refl eq_refl
                    eq_refl eq_refl)
             (JNum (Fin 7 0))
             [structObject tS [(str "A", JNum (Fin 7 0)); (str "b", JNum (Fin 9 0))];
              emptyObject CObject]).
    + eexists. split; [reflexivity | vm_compute; congruence].
    + reflexivity.
    + reflexivity.
    + reflexivity.
  - apply (proj2 (struct_field_visibility sampleRuntime tP (fld "A" true tString)
                    (fld "b" false tInt) 2 [plainObject []] 0%nat (plainObject [])
                    ltac:(vm_compute; congruence) eq_refl eq_refl eq_refl eq_refl
                    eq_refl eq_refl)
             JUndefined JUndefined (JStr (str "undefined")) None []
             [plainObject [];
              structObject tP [(str "A", JStr []); (str "b", JNum (Fin 0 0))]]).
    + repeat split; vm_compute; congruence.
    + reflexivity.
    + reflexivity.
    + reflexivity.
    + reflexivity.
Defined.

(** ** Cyclic host values, continued *)

Lemma selfArray_reaches (h : heap) :
  h !! 0%nat = Some selfArray ->
  reachesSwitch sampleRuntime h (JRef 0%nat) tL None.
Proof.
  intros H. repeat split; try (vm_compute; congruence).
  unfold internalObject, getProp. cbn [truthy]. now rewrite H.
Qed.

Lemma selfArray_diverges (fuel : nat) :
  forall h recv mk, h !! 0%nat = Some selfArray ->
    internalize sampleRuntime fuel (JRef 0%nat) tL recv None mk h = OutOfFuel.
Proof.
  induction fuel as [|fuel IH]; [reflexivity|]. intros h recv mk Hh.
  rewrite internalize_reaches_switch by now apply selfArray_reaches.
  unfold internalize_switch.
  change (kind (ty sampleRuntime tL)) with kindSlice. cbn [bool_decide andb].
  rewrite bool_decide_eq_false_2 by discriminate. cbn [andb].
  unfold mapArray. rewrite Hh. cbn [cls selfArray hostArray withElems emptyObject].
  rewrite decide_True by reflexivity. unfold alloc.
  cbn [elems selfArray hostArray withElems emptyObject mapElems].
  unfold self3 at 1. change (elem (ty sampleRuntime tL)) with tL.
  rewrite IH by now apply lookup_snoc_old. reflexivity.
Qed.

(** C4, evaluated at the failing inputs.  The host object [o] with
    [o.Val = 1] and [o.Next = o] is internalized into the recursive struct
    type [Node] ([struct { Val int; Next *Node }]): the struct case enters
    nothing into the seen-set and the pointer case calls [$internalize] with
    three arguments, which starts a new seen-set, so the same pair of
    descriptor and host value is internalized again and again; whatever the
    bound on the depth of the recursion, the call does not return.  The same
    holds for the host array [a] with [a[0] = a] and the recursive slice type
    [L] ([type L []L]), whose elements are internalized by three-argument
    calls as well. *)
Theorem internalize_self_reference_diverges (fuel : nat) :
  internalize sampleRuntime fuel (JRef 0%nat) tNode JUndefined None JUndefined [selfNode]
    = OutOfFuel /\
  internalize sampleRuntime fuel (JRef 0%nat) tL JUndefined None JUndefined [selfArray]
    = OutOfFuel.
Proof.
  split.
  - now apply (proj1 (selfNode_diverges fuel)).
  - now apply selfArray_diverges.
Qed.

(** * Strings: UTF-8 on the compiled side, UTF-16 on the host side *)

(** ** Bit operations as arithmetic *)

Lemma land_shiftl_small a b n : 0 <= n -> 0 <= b < 2 ^ n -> Z.land (Z.shiftl a n) b = 0.
Proof.
  intros Hn Hb. apply Z.bits_inj'. intros i Hi.
  rewrite Z.land_spec, Z.bits_0.
  destruct (Z.lt_ge_cases i n) as [Hlt|Hge].
  - now rewrite Z.shiftl_spec_low.
  - destruct (Z.eq_dec b 0) as [->|Hb0]; [now rewrite Z.bits_0, andb_false_r|].
    rewrite (Z.bits_above_log2 b i), andb_false_r; [reflexivity | lia |].
    assert (Z.log2 b < n) by (apply Z.log2_lt_pow2; lia). lia.
Qed.

Lemma lor_shiftl_small a b n :
  0 <= n -> 0 <= b < 2 ^ n -> Z.lor (Z.shiftl a n) b = a * 2 ^ n + b.
Proof.
  intros Hn Hb. pose proof (Z.add_lor_land (Z.shiftl a n) b) as H.
  rewrite land_shiftl_small in H by assumption.
  rewrite Z.shiftl_mul_pow2 in * by assumption. lia.
Qed.

Lemma lor_128 x : 0 <= x < 64 -> Z.lor 128 x = 128 + x.
Proof.
  intros H. change 128 with (Z.shiftl 2 6) at 1.
  rewrite lor_shiftl_small; change (2 ^ 6) with 64; lia.
Qed.

Lemma lor_192 x : 0 <= x < 32 -> Z.lor 192 x = 192 + x.
Proof.
  intros H. change 192 with (Z.shiftl 6 5) at 1.
  rewrite lor_shiftl_small; change (2 ^ 5) with 32; lia.
Qed.

Lemma lor_224 x : 0 <= x < 16 -> Z.lor 224 x = 224 + x.
Proof.
  intros H. change 224 with (Z.shiftl 14 4) at 1.
  rewrite lor_shiftl_small; change (2 ^ 4) with 16; lia.
Qed.

Lemma lor_240 x : 0 <= x < 8 -> Z.lor 240 x = 240 + x.
Proof.
  intros H. change 240 with (Z.shiftl 30 3) at 1.
  rewrite lor_shiftl_small; change (2 ^ 3) with 8; lia.
Qed.

Lemma land_63 a : Z.land a 63 = a mod 64.
Proof. change 63 with (Z.ones 6). now rewrite Z.land_ones. Qed.

Lemma land_31 a : Z.land a 31 = a mod 32.
Proof. change 31 with (Z.ones 5). now rewrite Z.land_ones. Qed.

Lemma land_15 a : Z.land a 15 = a mod 16.
Proof. change 15 with (Z.ones 4). now rewrite Z.land_ones. Qed.

Lemma land_7 a : Z.land a 7 = a mod 8.
Proof. change 7 with (Z.ones 3). now rewrite Z.land_ones. Qed.

Lemma fromCharCode_small c : 0 <= c < 65536 -> fromCharCode c = c.
Proof. intros H. unfold fromCharCode. now apply Z.mod_small. Qed.

(** ** The encoder in arithmetic form *)

Lemma isScalar_spec r :
  isScalar r = true <-> 0 <= r <= 1114111 /\ ~ (55296 <= r <= 57343).
Proof. unfold isScalar. lia. Qed.

Lemma encodeRune_scalar r :
  isScalar r = true ->
  encodeRune r =
    if r <=? 127 then [r]
    else if r <=? 2047 then [192 + r / 64; 128 + r mod 64]
    else if r <=? 65535 then [224 + r / 4096; 128 + (r / 64) mod 64; 128 + r mod 64]
    else [240 + r / 262144; 128 + (r / 4096) mod 64; 128 + (r / 64) mod 64; 128 + r mod 64].
Proof.
  intros Hs. apply isScalar_spec in Hs. unfold encodeRune.
  replace ((r <? 0) || (1114111 <? r) || (55296 <=? r) && (r <=? 57343)) with false by lia.
  rewrite !land_63, !Z.shiftr_div_pow2 by lia.
  change (2 ^ 6) with 64. change (2 ^ 12) with 4096. change (2 ^ 18) with 262144.
  destruct (Z.leb_spec r 127); [now rewrite fromCharCode_small by lia|].
  destruct (Z.leb_spec r 2047).
  { rewrite lor_192, lor_128 by (Z.div_mod_to_equations; lia).
    now rewrite !fromCharCode_small by (Z.div_mod_to_equations; lia). }
  destruct (Z.leb_spec r 65535).
  { rewrite lor_224, !lor_128 by (Z.div_mod_to_equations; lia).
    now rewrite !fromCharCode_small by (Z.div_mod_to_equations; lia). }
  rewrite lor_240, !lor_128 by (Z.div_mod_to_equations; lia).
  now rewrite !fromCharCode_small by (Z.div_mod_to_equations; lia).
Qed.

(** ** The decoder on well-formed sequences *)

Lemma continuation_ok c : 128 <= c < 192 -> continuation (Some c) = Some c.
Proof. intros H. unfold continuation. now replace ((c <? 128) || (192 <=? c)) with false by lia. Qed.

Lemma decodeRune_1 s pos c0 :
  charCodeAt s pos = Some c0 -> c0 < 128 -> decodeRune s pos = (c0, 1).
Proof.
  intros H0 Hc. unfold decodeRune. rewrite H0.
  now replace (c0 <? 128) with true by lia.
Qed.

Lemma decodeRune_2 s pos c0 c1 :
  charCodeAt s pos = Some c0 -> charCodeAt s (pos + 1) = Some c1 ->
  192 <= c0 < 224 -> 128 <= c1 < 192 ->
  128 <= (c0 mod 32) * 64 + c1 mod 64 ->
  decodeRune s pos = ((c0 mod 32) * 64 + c1 mod 64, 2).
Proof.
  intros H0 H1 Hc0 Hc1 Hr. unfold decodeRune. rewrite H0, H1, continuation_ok by assumption.
  replace (c0 <? 128) with false by lia. replace (c0 <? 192) with false by lia.
  replace (c0 <? 224) with true by lia.
  rewrite land_31, land_63, lor_shiftl_small
    by (change (2 ^ 6) with 64; Z.div_mod_to_equations; lia).
  change (2 ^ 6) with 64.
  now replace (c0 mod 32 * 64 + c1 mod 64 <=? 127) with false by lia.
Qed.

Lemma decodeRune_3 s pos c0 c1 c2 :
  charCodeAt s pos = Some c0 -> charCodeAt s (pos + 1) = Some c1 ->
  charCodeAt s (pos + 2) = Some c2 ->
  224 <= c0 < 240 -> 128 <= c1 < 192 -> 128 <= c2 < 192 ->
  let r := (c0 mod 16) * 4096 + (c1 mod 64) * 64 + c2 mod 64 in
  2048 <= r -> ~ (55296 <= r <= 57343) ->
  decodeRune s pos = (r, 3).
Proof.
  intros H0 H1 H2 Hc0 Hc1 Hc2 r Hr Hsur. unfold decodeRune.
  rewrite H0, H1, H2, !continuation_ok by assumption.
  replace (c0 <? 128) with false by lia. replace (c0 <? 192) with false by lia.
  replace (c0 <? 224) with false by lia. replace (c0 <? 240) with true by lia.
  rewrite land_15, !land_63.
  rewrite (lor_shiftl_small (c0 mod 16) (Z.shiftl (c1 mod 64) 6) 12)
    by (rewrite ?Z.shiftl_mul_pow2 by lia; change (2 ^ 6) with 64; change (2 ^ 12) with 4096;
        Z.div_mod_to_equations; lia).
  rewrite Z.shiftl_mul_pow2 by lia. change (2 ^ 6) with 64. change (2 ^ 12) with 4096.
  replace (c0 mod 16 * 4096 + c1 mod 64 * 64)
    with (Z.shiftl (c0 mod 16 * 64 + c1 mod 64) 6)
    by (rewrite Z.shiftl_mul_pow2 by lia; change (2 ^ 6) with 64; lia).
  rewrite lor_shiftl_small by (change (2 ^ 6) with 64; Z.div_mod_to_equations; lia).
  change (2 ^ 6) with 64.
  replace ((c0 mod 16 * 64 + c1 mod 64) * 64 + c2 mod 64) with r by (unfold r; lia).
  replace (r <=? 2047) with false by lia.
  now replace ((55296 <=? r) && (r <=? 57343)) with false by lia.
Qed.

Lemma decodeRune_4 s pos c0 c1 c2 c3 :
  charCodeAt s pos = Some c0 -> charCodeAt s (pos + 1) = Some c1 ->
  charCodeAt s (pos + 2) = Some c2 -> charCodeAt s (pos + 3) = Some c3 ->
  240 <= c0 < 248 -> 128 <= c1 < 192 -> 128 <= c2 < 192 -> 128 <= c3 < 192 ->
  let r := (c0 mod 8) * 262144 + (c1 mod 64) * 4096 + (c2 mod 64) * 64 + c3 mod 64 in
  65536 <= r <= 1114111 ->
  decodeRune s pos = (r, 4).
Proof.
  intros H0 H1 H2 H3 Hc0 Hc1 Hc2 Hc3 r Hr. unfold decodeRune.
  rewrite H0, H1, H2, H3, !continuation_ok by assumption.
  replace (c0 <? 128) with false by lia. replace (c0 <? 192) with false by lia.
  replace (c0 <? 224) with false by lia. replace (c0 <? 240) with false by lia.
  replace (c0 <? 248) with true by lia.
  rewrite land_7, !land_63.
  rewrite (lor_shiftl_small (c0 mod 8) (Z.shiftl (c1 mod 64) 12) 18)
    by (rewrite ?Z.shiftl_mul_pow2 by lia; change (2 ^ 12) with 4096;
        change (2 ^ 18) with 262144; Z.div_mod_to_equations; lia).
  rewrite (Z.shiftl_mul_pow2 (c1 mod 64) 12) by lia.
  change (2 ^ 12) with 4096. change (2 ^ 18) with 262144.
  replace (c0 mod 8 * 262144 + c1 mod 64 * 4096)
    with (Z.shiftl (c0 mod 8 * 64 + c1 mod 64) 12)
    by (rewrite Z.shiftl_mul_pow2 by lia; change (2 ^ 12) with 4096; lia).
  rewrite (lor_shiftl_small _ (Z.shiftl (c2 mod 64) 6) 12)
    by (rewrite ?Z.shiftl_mul_pow2 by lia; change (2 ^ 6) with 64; change (2 ^ 12) with 4096;
        Z.div_mod_to_equations; lia).
  rewrite (Z.shiftl_mul_pow2 (c2 mod 64) 6) by lia.
  change (2 ^ 6) with 64. change (2 ^ 12) with 4096.
  replace ((c0 mod 8 * 64 + c1 mod 64) * 4096 + c2 mod 64 * 64)
    with (Z.shiftl ((c0 mod 8 * 64 + c1 mod 64) * 64 + c2 mod 64) 6)
    by (rewrite Z.shiftl_mul_pow2 by lia; change (2 ^ 6) with 64; lia).
  rewrite lor_shiftl_small by (change (2 ^ 6) with 64; Z.div_mod_to_equations; lia).
  change (2 ^ 6) with 64.
  replace (((c0 mod 8 * 64 + c1 mod 64) * 64 + c2 mod 64) * 64 + c3 mod 64) with r
    by (unfold r; lia).
  now replace ((r <=? 65535) || (1114111 <? r)) with false by lia.
Qed.

Lemma charCodeAt_app (pre l : list Z) (i : nat) :
  charCodeAt (pre ++ l) (Z.of_nat (length pre) + Z.of_nat i) = l !! i.
Proof.
  unfold charCodeAt.
  destruct (Z.ltb_spec (Z.of_nat (length pre) + Z.of_nat i) 0); [lia|].
  rewrite lookup_app_r by lia. f_equal. lia.
Qed.

Lemma charCodeAt_app_0 (pre l : list Z) :
  charCodeAt (pre ++ l) (Z.of_nat (length pre)) = l !! 0%nat.
Proof. rewrite <- (charCodeAt_app pre l 0). f_equal. lia. Qed.

(** The decoder gives back a scalar from its encoding, wherever the encoding
    stands in the string. *)
Lemma decodeRune_encodeRune (pre rest : list Z) (r : Z) :
  isScalar r = true ->
  decodeRune (pre ++ encodeRune r ++ rest) (Z.of_nat (length pre))
  = (r, Z.of_nat (length (encodeRune r))).
Proof.
  intros Hs. rewrite (encodeRune_scalar r Hs). apply isScalar_spec in Hs.
  pose proof (charCodeAt_app_0 pre) as A0.
  pose proof (fun l => charCodeAt_app pre l 1) as A1.
  pose proof (fun l => charCodeAt_app pre l 2) as A2.
  pose proof (fun l => charCodeAt_app pre l 3) as A3.
  change (Z.of_nat 1) with 1 in A1. change (Z.of_nat 2) with 2 in A2.
  change (Z.of_nat 3) with 3 in A3.
  destruct (Z.leb_spec r 127).
  { apply decodeRune_1; [now rewrite A0 | lia]. }
  destruct (Z.leb_spec r 2047).
  { rewrite (decodeRune_2 _ _ (192 + r / 64) (128 + r mod 64));
      rewrite ?A0, ?A1; try reflexivity; try (Z.div_mod_to_equations; lia).
    f_equal. Z.div_mod_to_equations. lia. }
  destruct (Z.leb_spec r 65535).
  { rewrite (decodeRune_3 _ _ (224 + r / 4096) (128 + (r / 64) mod 64) (128 + r mod 64));
      rewrite ?A0, ?A1, ?A2; try reflexivity; try (Z.div_mod_to_equations; lia).
    f_equal. Z.div_mod_to_equations. lia. }
  rewrite (decodeRune_4 _ _ (240 + r / 262144) (128 + (r / 4096) mod 64)
             (128 + (r / 64) mod 64) (128 + r mod 64));
    rewrite ?A0, ?A1, ?A2, ?A3; try reflexivity; try (Z.div_mod_to_equations; lia).
  f_equal. Z.div_mod_to_equations. lia.
Qed.

(** ** ASCII texts *)

Ltac decide_cmp :=
  symmetry;
  rewrite ?andb_true_iff, ?andb_false_iff, ?Z.ltb_lt, ?Z.ltb_ge, ?Z.leb_le, ?Z.leb_gt;
  try lia; Z.div_mod_to_equations; lia.


Lemma isASCII_app l1 l2 : isASCII (l1 ++ l2) = isASCII l1 && isASCII l2.
Proof. unfold isASCII. apply forallb_app. Qed.

Lemma encodeRune_ascii r :
  isScalar r = true -> isASCII (encodeRune r) = true -> encodeRune r = [r] /\ r <= 127.
Proof.
  intros Hs. rewrite (encodeRune_scalar r Hs). apply isScalar_spec in Hs.
  destruct (Z.leb_spec r 127); [auto|].
  destruct (Z.leb_spec r 2047); [|destruct (Z.leb_spec r 65535)];
    unfold isASCII; cbn [forallb]; intros Ha; exfalso;
    apply andb_true_iff in Ha as [Ha _]; Z.div_mod_to_equations; lia.
Qed.

Lemma utf8_ascii rs :
  Forall (fun r => isScalar r = true) rs -> isASCII (utf8 rs) = true ->
  utf8 rs = rs /\ utf16 rs = rs.
Proof.
  induction 1 as [|r rs Hr _ IH]; [auto|]. unfold utf8, utf16. cbn [flat_map].
  rewrite isASCII_app. intros Ha. apply andb_true_iff in Ha as [Ha1 Ha2].
  destruct (encodeRune_ascii r Hr Ha1) as [-> Hle]. destruct (IH Ha2) as [E8 E16].
  unfold utf8, utf16 in E8, E16. rewrite E8, E16. unfold utf16unit.
  now replace (r <=? 65535) with true by decide_cmp.
Qed.

Lemma utf16unit_ascii r :
  isScalar r = true -> isASCII (utf16unit r) = true -> utf16unit r = [r] /\ r <= 127.
Proof.
  intros Hs. apply isScalar_spec in Hs. unfold utf16unit, isASCII.
  destruct (Z.leb_spec r 65535); cbn [forallb]; intros Ha;
    apply andb_true_iff in Ha as [Ha _]; [split; [reflexivity | lia]|].
  exfalso. Z.div_mod_to_equations. lia.
Qed.

Lemma encodeRune_small r : 0 <= r <= 127 -> encodeRune r = [r].
Proof.
  intros Hr. rewrite encodeRune_scalar by (apply isScalar_spec; lia).
  now replace (r <=? 127) with true by decide_cmp.
Qed.

Lemma utf16_ascii rs :
  Forall (fun r => isScalar r = true) rs -> isASCII (utf16 rs) = true ->
  utf16 rs = rs /\ utf8 rs = rs.
Proof.
  induction 1 as [|r rs Hr _ IH]; [auto|]. unfold utf8, utf16. cbn [flat_map].
  rewrite isASCII_app. intros Ha. apply andb_true_iff in Ha as [Ha1 Ha2].
  destruct (utf16unit_ascii r Hr Ha1) as [-> Hle]. destruct (IH Ha2) as [E16 E8].
  unfold utf8, utf16 in E8, E16. rewrite E8, E16.
  apply isScalar_spec in Hr. now rewrite encodeRune_small by lia.
Qed.

(** ** The two loops *)

Lemma encodeRune_length r : isScalar r = true -> (1 <= length (encodeRune r))%nat.
Proof.
  intros Hs. rewrite (encodeRune_scalar r Hs).
  repeat match goal with |- context [?a <=? ?b] => destruct (a <=? b) end; cbn; lia.
Qed.

Lemma externalizeRunes_utf8 rs :
  Forall (fun r => isScalar r = true) rs ->
  forall (pre acc : list Z) (fuel : nat),
    (length (utf8 rs) <= fuel)%nat ->
    externalizeRunes fuel (pre ++ utf8 rs) (Z.of_nat (length pre)) acc = Ok (acc ++ utf16 rs).
Proof.
  induction 1 as [|r rs Hr _ IH]; intros pre acc fuel Hfuel.
  - unfold utf8, utf16. cbn [flat_map]. rewrite !app_nil_r.
    destruct fuel; cbn [externalizeRunes];
      now replace (Z.of_nat (length pre) <? Z.of_nat (length pre)) with false by decide_cmp.
  - pose proof (encodeRune_length r Hr) as Hlen.
    unfold utf8 in *. cbn [flat_map] in *. rewrite length_app in Hfuel.
    destruct fuel as [|fuel]; [lia|]. cbn [externalizeRunes].
    replace (Z.of_nat (length pre) <? Z.of_nat (length (pre ++ encodeRune r ++ flat_map encodeRune rs)))
      with true by (rewrite !length_app; decide_cmp).
    rewrite decodeRune_encodeRune by assumption. cbn [fst snd].
    replace (Z.of_nat (length pre) + Z.of_nat (length (encodeRune r)))
      with (Z.of_nat (length (pre ++ encodeRune r))) by (rewrite length_app; lia).
    rewrite (app_assoc pre).
    apply isScalar_spec in Hr.
    destruct (Z.ltb_spec 65535 r).
    + rewrite IH by lia. rewrite <- app_assoc. f_equal. f_equal.
      unfold utf16. cbn [flat_map]. unfold utf16unit.
      replace (r <=? 65535) with false by decide_cmp. cbn [app].
      rewrite Z.rem_mod_nonneg by lia.
      rewrite !fromCharCode_small by (Z.div_mod_to_equations; lia).
      f_equal; [lia | f_equal; lia].
    + rewrite IH by lia. rewrite <- app_assoc. f_equal. f_equal.
      unfold utf16. cbn [flat_map]. unfold utf16unit.
      replace (r <=? 65535) with true by decide_cmp. cbn [app].
      now rewrite fromCharCode_small by lia.
Qed.

Lemma internalizeUnits_utf16 rs :
  Forall (fun r => isScalar r = true) rs -> internalizeUnits (utf16 rs) = utf8 rs.
Proof.
  induction 1 as [|r rs Hr _ IH]; [reflexivity|].
  unfold utf8, utf16 in *. cbn [flat_map]. apply isScalar_spec in Hr.
  unfold utf16unit at 1. destruct (Z.leb_spec r 65535).
  - cbn [app internalizeUnits].
    replace ((55296 <=? r) && (r <=? 56319)) with false by decide_cmp. now rewrite IH.
  - cbn [app internalizeUnits].
    replace ((55296 <=? 55296 + (r - 65536) / 1024) && (55296 + (r - 65536) / 1024 <=? 56319))
      with true by decide_cmp.
    rewrite IH. f_equal. f_equal. Z.div_mod_to_equations. lia.
Qed.

Lemma externalizeString_utf8 rs :
  Forall (fun r => isScalar r = true) rs -> externalizeString (utf8 rs) = Ok (utf16 rs).
Proof.
  intros Hrs. unfold externalizeString. destruct (isASCII (utf8 rs)) eqn:Ha.
  - destruct (utf8_ascii rs Hrs Ha) as [E8 E16]. now rewrite E8, E16.
  - apply (externalizeRunes_utf8 rs Hrs [] []). lia.
Qed.

Lemma internalizeString_utf16 rs :
  Forall (fun r => isScalar r = true) rs -> internalizeString (utf16 rs) = utf8 rs.
Proof.
  intros Hrs. unfold internalizeString. destruct (isASCII (utf16 rs)) eqn:Ha.
  - destruct (utf16_ascii rs Hrs Ha) as [E16 E8]. now rewrite E8, E16.
  - now apply internalizeUnits_utf16.
Qed.

(** ** Index keys are numerals *)


Lemma uintDigits_head u : match uintDigits u with d :: _ => 0 <= d <= 9 | [] => True end.
Proof. destruct u; cbn; lia. Qed.

Lemma dropTrailingZeros_head ds :
  dropTrailingZeros ds = [] \/ exists tl, dropTrailingZeros ds = hd 0 ds :: tl.
Proof.
  destruct ds as [|d ds]; [now left|]. cbn [dropTrailingZeros hd].
  destruct (dropTrailingZeros ds) as [|x tl].
  - destruct (d =? 0); [now left | right; now exists []].
  - right. now eexists.
Qed.

Lemma lowHead_digits ds rest :
  match ds with d :: _ => 0 <= d <= 9 | [] => True end ->
  lowHead rest -> lowHead (digitChars ds ++ rest).
Proof. destruct ds as [|d ds]; cbn; [auto | lia]. Qed.

Lemma lowHead_indexKey i : lowHead (indexKey i).
Proof.
  unfold indexKey, numberToString. destruct (Z.of_nat i =? 0); [cbn; lia|].
  replace (Z.of_nat i <? 0) with false by decide_cmp. cbn [app].
  set (all := digitsOf (Z.abs (Z.of_nat i))).
  assert (Hall : match all with d :: _ => 0 <= d <= 9 | [] => True end).
  { unfold all, digitsOf. destruct (Z.abs (Z.of_nat i)); auto. apply uintDigits_head. }
  assert (Hs : match dropTrailingZeros all with d :: _ => 0 <= d <= 9 | [] => True end).
  { destruct (dropTrailingZeros_head all) as [-> | [tl ->]]; [exact I|].
    destruct all; cbn [hd]; [lia | exact Hall]. }
  destruct (dropTrailingZeros all) as [|d s] eqn:Es;
    repeat match goal with |- context [if ?b then _ else _] => destruct b end;
    first [ exact I
          | cbn; lia
          | destruct (Z.to_nat _); cbn; lia
          | destruct s; cbn; lia ].
Qed.

Lemma assocGet_indexKeys {V} (p : jsstring) (xs : list V) (from n : nat) :
  ~ lowHead p -> assocGet (zip (map indexKey (seq from n)) xs) p = None.
Proof.
  intros Hp. revert from xs. induction n as [|n IH]; intros from xs; [reflexivity|].
  cbn [seq map]. destruct xs as [|x xs]; [reflexivity|]. cbn [zip zip_with assocGet].
  destruct (decide (indexKey from = p)) as [E|_]; [|apply IH].
  exfalso. apply Hp. rewrite <- E. apply lowHead_indexKey.
Qed.

(** A host string carries no back reference to a compiled value. *)
Lemma internalObject_string h (s : jsstring) : internalObject h (JStr s) = Ok JUndefined.
Proof.
  unfold internalObject. destruct (truthy (JStr s)); [|reflexivity].
  cbn [getProp]. destruct (decide (_ = str "length")) as [E|_]; [discriminate E|].
  unfold indexKeys. rewrite assocGet_indexKeys; [reflexivity|].
  cbn. lia.
Qed.

Lemma forallb_isScalar rs :
  forallb isScalar rs = true -> Forall (fun r => isScalar r = true) rs.
Proof.
  induction rs as [|r rs IH]; cbn [forallb]; intros H; constructor;
    apply andb_true_iff in H; tauto.
Qed.

(** C3, counterexample: the compiled string made of the single byte 0xFF is
    no well-formed UTF-8.  [$externalize] decodes it to U+FFFD, and
    [$internalize] of that host string is the three bytes EF BF BD, not the
    byte the round trip started from. *)
Lemma string_round_trip_ill_formed :
  externalize sampleRuntime 1 (JStr [255]) tString JUndefined []
    = Ok (JStr [65533], []) /\
  internalize sampleRuntime 1 (JStr [65533]) tString JUndefined None JUndefined []
    = Ok (JStr [239; 191; 189], [], []) /\
  [239; 191; 189] <> [255].
Proof. repeat split. discriminate. Qed.

(** C3, amended: for every compiled string that is the UTF-8 form of a
    sequence of Unicode scalar values, [$externalize] with a string
    descriptor returns the UTF-16 form of the same sequence, a surrogate pair
    for each scalar above U+FFFF, and [$internalize] of that host string
    with the same descriptor returns the compiled string it came from. *)
Theorem string_round_trip (rt : runtime) (t : tid) (rs : list Z) (fuel : nat)
    (recv mk : jsval) (seen : option seenMap) (h : heap) :
  kind (ty rt t) = kindString ->
  t <> jsObjectPtr rt -> t <> elem (ty rt (jsObjectPtr rt)) -> timePkg rt <> Some t ->
  forallb isScalar rs = true ->
  assocGet (default [] seen) (t, JStr (utf16 rs)) = None ->
  externalize rt (S fuel) (JStr (utf8 rs)) t mk h = Ok (JStr (utf16 rs), h) /\
  internalize rt (S fuel) (JStr (utf16 rs)) t recv seen mk h
    = Ok (JStr (utf8 rs), default [] seen, h).
Proof.
  intros Hk Hp He Ht Hrs Hseen. apply forallb_isScalar in Hrs. split.
  - rewrite externalize_S. unfold externalize_body.
    rewrite (eqb_ne _ _ Hp), Hk, externalizeString_utf8 by assumption. reflexivity.
  - rewrite internalize_reaches_switch
      by (repeat split; auto using internalObject_string).
    unfold internalize_switch. rewrite Hk. cbn [toString mbind res_bind bind].
    now rewrite internalizeString_utf16.
Qed.

Lemma string_round_trip_witness :
  externalize sampleRuntime 1 (JStr [240; 159; 152; 128; 65; 195; 169]) tString JUndefined []
    = Ok (JStr [55357; 56832; 65; 233], []) /\
  internalize sampleRuntime 1 (JStr [55357; 56832; 65; 233]) tString JUndefined None JUndefined []
    = Ok (JStr [240; 159; 152; 128; 65; 195; 169], [], []).
Proof.
  apply (string_round_trip sampleRuntime tString [128512; 65; 233] 0 JUndefined JUndefined None []);
    try reflexivity; vm_compute; discriminate.
Defined.

End BridgeProofs.

(** * Part VII: properties of the remaining helpers of compiler/utils.go *)

Module UtilsProofs.
Import Naming Utils.
Local Open Scope Z_scope.

(** ** removeMatching *)

Lemma removeMatching_fold {T : Type} (differs : T -> T -> bool)
    (haystack acc : list T) (needle : T) :
  fold_left (fun result el => if differs el needle then result ++ [el] else result)%list
            haystack acc
  = (acc ++ filter (fun el => differs el needle = true) haystack)%list.
Proof.
  revert acc. induction haystack as [|x l IH]; intros acc; cbn [fold_left].
  - now rewrite filter_nil, app_nil_r.
  - rewrite IH, filter_cons. destruct (differs x needle); cbn.
    + now rewrite <- app_assoc.
    + reflexivity.
Qed.

Lemma filter_kept {T : Type} (P Q : T -> Prop) `{forall x, Decision (P x)}
    `{forall x, Decision (Q x)} (l : list T) :
  (forall x, P x -> Q x) -> filter P (filter Q l) = filter P l.
Proof.
  intros HPQ. induction l as [|y l IH]; [reflexivity|].
  rewrite !filter_cons. destruct (decide (Q y)) as [Hq|Hq].
  - rewrite filter_cons. destruct (decide (P y)); [f_equal|]; exact IH.
  - destruct (decide (P y)) as [Hp|_]; [|exact IH]. exfalso. apply Hq. now apply HPQ.
Qed.

Lemma filter_all {T : Type} (Q : T -> Prop) `{forall x, Decision (Q x)} (l : list T) :
  Forall Q l -> filter Q l = l.
Proof.
  induction 1 as [|y l Hy _ IH]; [reflexivity|].
  rewrite filter_cons. destruct (decide (Q y)); [now f_equal | contradiction].
Qed.

(** [removeMatching] keeps, in their order, exactly the elements that
    compare unequal to the needle under Go's [!=], here [differs]:
    (1) the result is the input filtered by [el != needle];
    (2) every element of the result compares unequal to the needle, and the
    result is a subsequence of the input;
    (3) the elements that compare unequal to the needle occur as often as
    before, so an input all of whose elements compare unequal to the needle
    is returned as it is: with a NaN needle nothing is removed;
    (4) when the needle compares equal to itself, it does not occur in the
    result. *)
Theorem removeMatching_removes_all {T : Type} (differs : T -> T -> bool)
    (haystack : list T) (needle : T) :
  removeMatching differs haystack needle
  = filter (fun el => differs el needle = true) haystack /\
  Forall (fun el => differs el needle = true) (removeMatching differs haystack needle) /\
  sublist (removeMatching differs haystack needle) haystack /\
  (forall (P : T -> Prop) (dec : forall x, Decision (P x)),
     (forall x, P x -> differs x needle = true) ->
     filter P (removeMatching differs haystack needle) = filter P haystack) /\
  (Forall (fun el => differs el needle = true) haystack ->
   removeMatching differs haystack needle = haystack) /\
  (differs needle needle = false -> needle ∉ removeMatching differs haystack needle).
Proof.
  assert (E : removeMatching differs haystack needle
              = filter (fun el => differs el needle = true) haystack).
  { unfold removeMatching. now rewrite removeMatching_fold. }
  rewrite E. split; [reflexivity|]. split; [|split; [|split; [|split]]].
  - apply Forall_forall. intros x Hx. now apply list_elem_of_filter in Hx.
  - apply sublist_filter.
  - intros P dec HP. now apply filter_kept.
  - apply filter_all.
  - intros Hself Hin. apply list_elem_of_filter in Hin as [Hne _]. congruence.
Qed.

Lemma removeMatching_removes_all_witness :
  removeMatching intDiffers [1; 2; 1; 3]%Z 1%Z = [2; 3]%Z /\
  (1%Z ∉ removeMatching intDiffers [1; 2; 1; 3]%Z 1%Z) /\
  removeMatching floatDiffers [Some 1; None; Some 2]%Z None = [Some 1; None; Some 2]%Z.
Proof.
  split; [|split].
  - rewrite (proj1 (removeMatching_removes_all intDiffers [1; 2; 1; 3]%Z 1%Z)). reflexivity.
  - apply (removeMatching_removes_all intDiffers [1; 2; 1; 3]%Z 1%Z). reflexivity.
  - apply (removeMatching_removes_all floatDiffers [Some 1; None; Some 2]%Z None).
    repeat constructor.
Defined.

(** ** encodeString *)

Ltac each_byte r := destruct r as [[] [] [] [] [] [] [] []].

Lemma encodeString_flat (s : list ascii) :
  encodeString s = (chQuote :: flat_map encodeByte s ++ [chQuote])%list.
Proof.
  unfold encodeString. cbn [app]. f_equal. f_equal.
  enough (H : forall acc, fold_left (fun buf r => buf ++ encodeByte r)%list s acc
                          = (acc ++ flat_map encodeByte s)%list) by apply (H []).
  induction s as [|r s IH]; intros acc; cbn [fold_left flat_map].
  - now rewrite app_nil_r.
  - now rewrite IH, app_assoc.
Qed.

Lemma encodeByte_printable (r : ascii) : forallb printable (encodeByte r) = true.
Proof. each_byte r; reflexivity. Qed.

Lemma decodeHead_encodeByte (r : ascii) (t : list ascii) :
  decodeHead (encodeByte r ++ t) = Some (r, t).
Proof. each_byte r; reflexivity. Qed.

Lemma encodeByte_body_injective (s1 s2 : list ascii) :
  flat_map encodeByte s1 = flat_map encodeByte s2 -> s1 = s2.
Proof.
  revert s2. induction s1 as [|r1 s1 IH]; intros [|r2 s2] H; cbn [flat_map] in H.
  - reflexivity.
  - apply (f_equal decodeHead) in H. now rewrite decodeHead_encodeByte in H.
  - apply (f_equal decodeHead) in H. now rewrite decodeHead_encodeByte in H.
  - apply (f_equal decodeHead) in H. rewrite !decodeHead_encodeByte in H.
    injection H as -> H. f_equal. now apply IH.
Qed.

(** The literal [encodeString] returns starts and ends with a double quote
    and is made of printable ASCII bytes only, whatever bytes the string
    holds; it has at least the two quotes more than the string and at most
    four bytes for each byte of it. *)
Theorem encodeString_printable_literal (s : list ascii) :
  (exists body, encodeString s = (chQuote :: body ++ [chQuote])%list) /\
  forallb printable (encodeString s) = true /\
  (length s + 2 <= length (encodeString s) <= 4 * length s + 2)%nat.
Proof.
  rewrite encodeString_flat. split; [eauto|]. split.
  - cbn [forallb]. rewrite forallb_app. cbn.
    rewrite andb_true_r. induction s as [|r s IH]; [reflexivity|].
    cbn [flat_map]. now rewrite forallb_app, encodeByte_printable.
  - cbn [length]. rewrite length_app. cbn [length].
    enough (length s <= length (flat_map encodeByte s) <= 4 * length s)%nat by lia.
    induction s as [|r s IH]; [cbn; lia|]. cbn [flat_map length]. rewrite length_app.
    enough (1 <= length (encodeByte r) <= 4)%nat by lia.
    each_byte r; vm_compute; lia.
Qed.

(** [encodeString] is injective: two strings with the same literal are the
    same string, so the literal determines every byte of the string. *)
Theorem encodeString_injective (s1 s2 : list ascii) :
  encodeString s1 = encodeString s2 -> s1 = s2.
Proof.
  rewrite !encodeString_flat. intros H. injection H as H.
  apply app_inv_tail in H. now apply encodeByte_body_injective.
Qed.

Lemma encodeString_injective_witness :
  encodeString (lit "a b") = encodeString [byte_of 97; byte_of 32; byte_of 98] /\
  lit "a b" = [byte_of 97; byte_of 32; byte_of 98].
Proof.
  split; [reflexivity|]. apply (encodeString_injective _ _). reflexivity.
Defined.

(** ** newVariable in natural mode *)

Local Open Scope string_scope.

Lemma plainName_cons c s :
  plainName (String c s) = true ->
  (isAlnum c || (code_of c =? 95))%Z = true /\ plainName s = true.
Proof. cbn [plainName]. intros H. now apply andb_true_iff in H. Qed.

Lemma plain_byte_kept c :
  (isAlnum c || (code_of c =? 95))%Z = true ->
(code_of c =? 32)%Z = false /\ shouldEscape c = false /\ c <> "%"%char /\ c <> "$"%char.
Proof. each_byte c; intros H; try discriminate H; repeat split; discriminate. Qed.

Lemma QueryEscape_plain s : plainName s = true -> QueryEscape s = s.
Proof.
  induction s as [|c s IH]; [reflexivity|]. intros H.
  apply plainName_cons in H as [Hc Hs]. cbn [QueryEscape].
  destruct (plain_byte_kept c Hc) as (-> & -> & _). now rewrite IH.
Qed.

Lemma replaceFrom_plain old new s :
  plainName s = true -> replaceFrom (String "%" old) new 0 s = s.
Proof.
  induction s as [|c s IH]; [reflexivity|]. intros H.
  apply plainName_cons in H as [Hc Hs]. cbn [replaceFrom String.prefix].
  destruct (plain_byte_kept c Hc) as (_ & _ & Hp & _).
  destruct (ascii_dec "%" c) as [E|_]; [now elim Hp|]. now rewrite IH.
Qed.

Lemma encodeIdent_plain s : plainName s = true -> encodeIdent s = s.
Proof.
  intros H. unfold encodeIdent, ReplaceAll. rewrite (QueryEscape_plain s H).
  rewrite (replaceFrom_plain _ _ s H). exact (replaceFrom_plain _ _ s H).
Qed.

Lemma fmtInt_inj n m : fmtInt n = fmtInt m -> n = m.
Proof.
  unfold fmtInt. intros H. apply (f_equal NilEmpty.int_of_string) in H.
  rewrite !NilEmpty.isi in H. injection H as H. now apply DecimalZ.to_int_inj.
Qed.

Lemma split_at_dollar p q a b :
  plainName p = true -> plainName q = true ->
  p ++ "$" ++ a = q ++ "$" ++ b -> p = q /\ a = b.
Proof.
  revert q. induction p as [|c p IH]; intros [|d q] Hp Hq H.
  - rewrite !NamingProofs.append_nil_l in H. injection H as H. auto.
  - rewrite NamingProofs.append_nil_l, !NamingProofs.append_cons in H. injection H as <- _.
    apply plainName_cons in Hq as [Hd _]. now destruct (plain_byte_kept _ Hd) as (_ & _ & _ & Hd').
  - rewrite NamingProofs.append_nil_l, !NamingProofs.append_cons in H. injection H as -> _.
    apply plainName_cons in Hp as [Hc _]. now destruct (plain_byte_kept _ Hc) as (_ & _ & _ & Hc').
  - rewrite !NamingProofs.append_cons in H. injection H as -> H.
    apply plainName_cons in Hp as [_ Hp]. apply plainName_cons in Hq as [_ Hq].
    destruct (IH q Hp Hq H) as [-> ->]. auto.
Qed.

Lemma plainName_no_dollar p a : plainName (p ++ "$" ++ a) = false.
Proof.
  induction p as [|c p IH].
  - reflexivity.
  - rewrite NamingProofs.append_cons. cbn [plainName]. rewrite IH. apply andb_false_r.
Qed.

Lemma suffixed_inj p q n m :
  plainName p = true -> plainName q = true -> 0 <= n -> 0 <= m ->
  suffixed p n = suffixed q m -> p = q /\ n = m.
Proof.
  intros Hp Hq Hn Hm. unfold suffixed.
  destruct (Z.ltb_spec 0 n) as [Hn'|Hn'], (Z.ltb_spec 0 m) as [Hm'|Hm']; intros E.
  - apply split_at_dollar in E as [-> E]; try assumption. now apply fmtInt_inj in E.
  - rewrite <- E, plainName_no_dollar in Hq. discriminate.
  - rewrite E, plainName_no_dollar in Hp. discriminate.
  - split; [assumption | lia].
Qed.

Lemma lookupVar_below B (m : gmap string Z) p :
  countsBelow B m -> 1 <= B -> 0 <= lookupVar m p < B.
Proof.
  intros Hm HB. unfold lookupVar. destruct (m !! p) as [v|] eqn:E; cbn; [|lia].
  exact (Hm p v E).
Qed.

Lemma countsBelow_insert B (m : gmap string Z) p n :
  countsBelow B m -> 0 <= n <= B -> countsBelow (B + 1) (<[p := n]> m).
Proof.
  intros Hm Hn. apply map_Forall_insert_2; [lia|].
  intros k v E. specialize (Hm k v E). cbn in Hm. lia.
Qed.

Lemma lookupVar_insert (m : gmap string Z) p q n :
  lookupVar (<[p := n]> m) q = if decide (p = q) then n else lookupVar m q.
Proof.
  unfold lookupVar. destruct (decide (p = q)) as [->|Hne].
  - now rewrite lookup_insert_eq.
  - now rewrite lookup_insert_ne.
Qed.

(** One allocation in natural mode, for a name that needs no escaping. *)
Lemma newVariable_natural pc fc p (b : bool) :
  minify pc = false -> p <> "" -> plainName p = true ->
  0 <= lookupVar (allVars fc) p < 2 ^ 63 - 1 ->
  exists fc',
    newVariable pc fc p b = Ok (suffixed p (lookupVar (allVars fc) p), fc') /\
    allVars fc' = <[p := lookupVar (allVars fc) p + 1]> (allVars fc) /\
    localVars fc'
    = (if b then localVars fc
       else localVars fc ++ [suffixed p (lookupVar (allVars fc) p)])%list /\
    parent fc'
    = (if b then reserveUp p (lookupVar (allVars fc) p + 1) <$> parent fc else parent fc).
Proof.
  intros Hmin Hp Hplain Hn. unfold newVariable.
  rewrite (NamingProofs.eqb_nonempty p Hp), Hmin, (encodeIdent_plain p Hplain).
  cbn [mbind res_bind bind].
  rewrite NamingProofs.int64_small
    by (split; [transitivity 0; [now vm_compute | lia] | lia]).
  destruct b; eexists; (split; [reflexivity|]); cbn [allVars localVars parent];
    repeat split; now destruct (parent fc).
Qed.

(** In natural mode, for requests whose proposed names are made of ASCII
    letters, digits and underscores, the names an allocation run returns are
    pairwise distinct, whatever the count table of the scope holds at the
    start: each one is the proposed name, or the proposed name with the
    suffix [$n] for a count [n] not below the count the scope started with;
    the names of the requests that are not package-level are appended, in
    order, to the local variables of the scope. *)
Theorem natural_plain_names_distinct (pc : pkgContext) (reqs : list (string * bool)) :
  minify pc = false ->
  Forall (fun r => fst r <> "" /\ plainName (fst r) = true) reqs ->
  forall (fc : funcContext) (B : Z),
    countsBelow B (allVars fc) -> 1 <= B -> B + Z.of_nat (length reqs) < 2 ^ 63 ->
    exists names fc',
      allocate pc fc reqs = Ok (names, fc') /\
      NoDup names /\
      Forall2 (fun r v => exists n, lookupVar (allVars fc) (fst r) <= n /\
                                    v = suffixed (fst r) n) reqs names /\
      localVars fc' = (localVars fc ++ localNames reqs names)%list.
Proof.
  intros Hmin Hreqs. induction Hreqs as [|[p b] reqs [Hp Hplain] Hreqs IH];
    intros fc B Hm HB Hlen.
  - exists [], fc. repeat split; [constructor | constructor | now rewrite app_nil_r].
  - cbn [fst] in *. cbn [length] in Hlen.
    pose proof (lookupVar_below B (allVars fc) p Hm HB) as Hn.
    destruct (newVariable_natural pc fc p b Hmin Hp Hplain) as (fc1 & Hnew & Hvars & Hloc & _);
      [lia|].
    destruct (IH fc1 (B + 1)) as (names & fc' & Halloc & Hnodup & Hshape & Hloc');
      [rewrite Hvars; apply countsBelow_insert; [assumption | lia] | lia | lia |].
    exists (suffixed p (lookupVar (allVars fc) p) :: names), fc'.
    cbn [allocate]. rewrite Hnew. cbn [mbind res_bind bind]. rewrite Halloc.
    cbn [mbind res_bind bind]. split; [reflexivity|].
    assert (Hold : Forall2 (fun r v => exists n, lookupVar (allVars fc) (fst r) <= n /\
                                          v = suffixed (fst r) n) reqs names).
    { eapply Forall2_impl; [exact Hshape|]. intros [q c] v (n & Hle & ->). exists n.
      split; [|reflexivity]. rewrite Hvars, lookupVar_insert in Hle. cbn [fst] in *.
      destruct (decide (p = q)) as [->|_]; lia. }
    split; [|split].
    + constructor; [|assumption]. intros Hin.
      apply list_elem_of_lookup in Hin as [i Hi].
      destruct (Forall2_lookup_r _ _ _ _ _ Hshape Hi) as ([q c] & Hq & n & Hle & E).
      cbn [fst] in *. rewrite Hvars, lookupVar_insert in Hle.
      assert (Hqplain : plainName q = true).
      { apply (Forall_lookup_1 _ _ _ _ Hreqs) in Hq. tauto. }
      destruct (decide (p = q)) as [<-|Hne].
      * apply suffixed_inj in E as [_ E]; try assumption; lia.
      * pose proof (lookupVar_below B (allVars fc) q Hm HB) as Hq0.
        apply suffixed_inj in E as [E _]; try assumption; [congruence | lia | lia].
    + constructor; [|assumption]. exists (lookupVar (allVars fc) p). cbn [fst]. split; [lia | reflexivity].
    + rewrite Hloc', Hloc. unfold localNames. cbn [zip zip_with omap fst snd].
      destruct b; cbn [fst snd]; [reflexivity|]. now rewrite <- app_assoc.
Qed.

Lemma natural_plain_names_distinct_witness :
  exists names fc',
    allocate pcNatural freshScope [("x", false); ("y", true); ("x", false); ("x_1", false)]
      = Ok (names, fc') /\
    NoDup names /\
    Forall2 (fun r v => exists n, lookupVar (allVars freshScope) (fst r) <= n /\
                                  v = suffixed (fst r) n)
            [("x", false); ("y", true); ("x", false); ("x_1", false)] names /\
    localVars fc'
    = (localVars freshScope
       ++ localNames [("x", false); ("y", true); ("x", false); ("x_1", false)] names)%list.
Proof.
  apply (natural_plain_names_distinct pcNatural
           [("x", false); ("y", true); ("x", false); ("x_1", false)]) with (B := 1).
  - reflexivity.
  - repeat constructor; discriminate.
  - apply map_Forall_empty.
  - lia.
  - vm_compute. reflexivity.
Defined.

(** ** newVariable in minified mode *)

Lemma size_insert_le (m : gmap string Z) k v : (size (<[k := v]> m) <= S (size m))%nat.
Proof.
  destruct (m !! k) eqn:E.
  - rewrite map_size_insert_Some by eauto. lia.
  - rewrite map_size_insert_None by assumption. lia.
Qed.

(** In minified mode the names an allocation run returns are pairwise
    distinct, whatever the requests propose and whatever the count table of
    the scope holds at the start, and each of them had count 0 in that
    table. *)
Theorem minified_names_distinct (pc : pkgContext) (reqs : list (string * bool)) :
  minify pc = true ->
  Forall (fun r => fst r <> "") reqs ->
  forall fc : funcContext,
    Z.of_nat (size (allVars fc) + length reqs) < 2 ^ 63 ->
    exists names fc',
      allocate pc fc reqs = Ok (names, fc') /\
      NoDup names /\
      Forall (fun v => lookupVar (allVars fc) v = 0) names.
Proof.
  intros Hmin Hreqs. induction Hreqs as [|[p b] reqs Hp Hreqs IH]; intros fc Hsize.
  - exists [], fc. repeat split; constructor.
  - cbn [fst length] in *.
    destruct (NamingProofs.least_free_candidate (allVars fc) (firstLetter b)
                (NamingProofs.firstLetter_base b)) as (k & Hk & Hfree & Hused).
    destruct (NamingProofs.newVariable_minified pc fc p b k) as (fc1 & Hnew & Hvars);
      try assumption; [lia|].
    pose proof (size_insert_le (allVars fc) (alphaNth (firstLetter b) k) 1) as Hgrow.
    destruct (IH fc1) as (names & fc' & Halloc & Hnodup & Hzero); [rewrite Hvars; lia|].
    exists (alphaNth (firstLetter b) k :: names), fc'.
    cbn [allocate]. rewrite Hnew. cbn [mbind res_bind bind]. rewrite Halloc.
    cbn [mbind res_bind bind]. split; [reflexivity|].
    assert (Hother : Forall (fun v => v <> alphaNth (firstLetter b) k
                                      /\ lookupVar (allVars fc) v = 0) names).
    { eapply Forall_impl; [exact Hzero|]. intros v Hv. cbn beta in Hv.
      rewrite Hvars, lookupVar_insert in Hv.
      destruct (decide (alphaNth (firstLetter b) k = v)) as [_|Hne]; [discriminate Hv|].
      split; [congruence | assumption]. }
    split.
    + constructor; [|assumption]. intros Hin.
      apply (proj1 (Forall_forall _ _) Hother) in Hin. now destruct Hin.
    + constructor; [assumption|]. eapply Forall_impl; [exact Hother|]. now intros v [_ Hv].
Qed.

Lemma minified_names_distinct_witness :
  exists names fc',
    allocate pcMinified freshScope [("x", false); ("x", true); ("y", false)] = Ok (names, fc') /\
    NoDup names /\
    Forall (fun v => lookupVar (allVars freshScope) v = 0) names.
Proof.
  apply (minified_names_distinct pcMinified [("x", false); ("x", true); ("y", false)]).
  - reflexivity.
  - repeat constructor; discriminate.
  - vm_compute. reflexivity.
Defined.

(** ** Package-level names and the enclosing contexts *)

Lemma minifiedSearch_free fuel (vars : gmap string Z) b i name :
  minifiedSearch fuel vars b i = Ok name -> lookupVar vars name = 0.
Proof.
  revert i. induction fuel as [|fuel IH]; intros i; cbn [minifiedSearch]; [discriminate|].
  destruct (minifiedCandidate b i) as [c| | | |]; try discriminate.
  destruct (lookupVar vars c =? 0)%Z eqn:E.
  - intros [= <-]. now apply Z.eqb_eq.
  - apply IH.
Qed.

Lemma newVariable_minified_inv pc fc p (b : bool) v fc' :
  minify pc = true -> newVariable pc fc p b = Ok (v, fc') ->
  lookupVar (allVars fc) v = 0 /\
  parent fc' = (if b then reserveUp v 1 <$> parent fc else parent fc).
Proof.
  intros Hmin. unfold newVariable. destruct (String.eqb p ""); [discriminate|].
  rewrite Hmin. destruct (minifiedSearch _ _ _ _) as [name| | | |] eqn:Hs; try discriminate.
  cbn [mbind res_bind bind]. apply minifiedSearch_free in Hs. rewrite Hs.
  change (int64 (0 + 1)) with 1. cbn [Z.ltb Z.compare].
  destruct b; intros [= <- <-]; cbn [parent]; (split; [assumption|]); now destruct (parent fc).
Qed.

Lemma newVariable_natural_inv pc a q (b : bool) v' a' :
  minify pc = false -> plainName q = true -> newVariable pc a q b = Ok (v', a') ->
  v' = suffixed q (lookupVar (allVars a) q).
Proof.
  intros Hmin Hq. unfold newVariable. destruct (String.eqb q ""); [discriminate|].
  rewrite Hmin, (encodeIdent_plain q Hq). cbn [mbind res_bind bind].
  destruct b; now intros [= <- _].
Qed.

Lemma suffixed_same p n : plainName p = true -> 0 <= n -> suffixed p n <> suffixed p (n + 1).
Proof.
  intros Hp Hn E. apply suffixed_inj in E as [_ E]; try assumption; lia.
Qed.

Lemma suffixed_other p q n m :
  plainName p = true -> plainName q = true -> p <> q -> suffixed p n <> suffixed q m.
Proof.
  intros Hp Hq Hne E. unfold suffixed in E.
  destruct (0 <? n)%Z, (0 <? m)%Z.
  - apply split_at_dollar in E as [E _]; auto.
  - rewrite <- E, plainName_no_dollar in Hq. discriminate.
  - rewrite E, plainName_no_dollar in Hp. discriminate.
  - auto.
Qed.

Lemma reserveUp_chain k v :
  forall c, Forall (fun a => allVars a !! k = Some v)
                   (reserveUp k v c :: ancestors (reserveUp k v c)).
Proof.
  fix IH 1. intros [vars loc names inst [p|]].
  - constructor; [apply lookup_insert_eq|]. exact (IH p).
  - constructor; [apply lookup_insert_eq | constructor].
Qed.

(** ** encodeIdent *)

Lemma allBytes_app P s t : allBytes P (s ++ t) = allBytes P s && allBytes P t.
Proof.
  induction s as [|c s IH]; [reflexivity|].
  rewrite NamingProofs.append_cons. cbn [allBytes]. now rewrite IH, andb_assoc.
Qed.

Lemma QueryEscape_bytes s : allBytes escapedByte (QueryEscape s) = true.
Proof.
  induction s as [|c s IH]; [reflexivity|]. cbn [QueryEscape].
  destruct (code_of c =? 32)%Z; [cbn [allBytes]; now rewrite IH|].
  destruct (shouldEscape c) eqn:E; cbn [allBytes]; rewrite IH, ?andb_true_r.
  - clear. each_byte c; reflexivity.
  - revert E. clear. each_byte c; intros E; try discriminate E; reflexivity.
Qed.

Lemma replaceFrom_bytes P old new s :
  allBytes P new = true -> allBytes P s = true ->
  forall skip, allBytes P (replaceFrom old new skip s) = true.
Proof.
  intros Hnew. induction s as [|c s IH]; intros Hs skip; [reflexivity|].
  cbn [allBytes] in Hs. apply andb_true_iff in Hs as [Hc Hs].
  cbn [replaceFrom]. destruct skip as [|k]; [|now apply IH].
  destruct (String.prefix old (String c s)).
  - rewrite allBytes_app, Hnew. now apply IH.
  - cbn [allBytes]. rewrite Hc. now apply IH.
Qed.

Lemma prefix_empty s : String.prefix "" s = true.
Proof. now destruct s. Qed.

Lemma prefix_cons a old c s :
  String.prefix (String a old) (String c s)
  = if ascii_dec a c then String.prefix old s else false.
Proof. reflexivity. Qed.

Lemma replace_percent_bytes s :
  allBytes escapedByte s = true -> allBytes identByte (replaceFrom "%" "$" 0 s) = true.
Proof.
  induction s as [|c s IH]; [reflexivity|]. intros Hs.
  cbn [allBytes] in Hs. apply andb_true_iff in Hs as [Hc Hs].
  cbn [replaceFrom]. rewrite prefix_cons.
  destruct (ascii_dec "%" c) as [<-|Hne].
  - rewrite prefix_empty, NamingProofs.append_cons, NamingProofs.append_nil_l.
    cbn [allBytes String.length Nat.sub]. now rewrite IH.
  - cbn [allBytes]. rewrite (IH Hs), andb_true_r.
    revert Hc Hne. clear. each_byte c; intros Hc Hne; try discriminate Hc; try reflexivity.
    now elim Hne.
Qed.

(** The identifier [encodeIdent] returns holds only letters and digits of
    ASCII, the marks [-], [_], [.], [~], [+] and [$], and the two bytes of
    the middle dot; in particular no percent sign is left.  A name made of
    ASCII letters, digits and underscores is returned as it is. *)
Theorem encodeIdent_alphabet (name : string) :
  allBytes identByte (encodeIdent name) = true /\
  (plainName name = true -> encodeIdent name = name).
Proof.
  split; [|apply encodeIdent_plain].
  unfold encodeIdent, ReplaceAll. apply replace_percent_bytes.
  apply replaceFrom_bytes; [reflexivity | apply QueryEscape_bytes].
Qed.

Lemma encodeIdent_alphabet_witness :
  allBytes identByte (encodeIdent "a b/c") = true /\ encodeIdent "x_1" = "x_1".
Proof.
  split.
  - exact (proj1 (encodeIdent_alphabet "a b/c")).
  - apply (proj2 (encodeIdent_alphabet "x_1")). reflexivity.
Defined.

(** *** [encodeIdent] byte by byte *)

Lemma QueryEscape_cons c s :
  QueryEscape (String c s) = escapeWith "%" c ++ QueryEscape s.
Proof.
  cbn [QueryEscape]. unfold escapeWith.
  destruct (code_of c =? 32)%Z; [reflexivity|]. now destruct (shouldEscape c).
Qed.

Lemma identWith_cons2 mark c d s :
  identWith mark (String c (String d s))
  = if ((code_of c =? 194) && (code_of d =? 183))%Z
    then midDot ++ identWith mark s
    else escapeWith mark c ++ identWith mark (String d s).
Proof. reflexivity. Qed.

(** The first replacement, on one escaped byte followed by the text [R]. *)
Lemma replace_dot_head c R :
  replaceFrom "%C2%B7" midDot 0 (escapeWith "%" c ++ R)
  = if (code_of c =? 194)%Z
    then if String.prefix "%B7" R
         then midDot ++ replaceFrom "%C2%B7" midDot 3 R
         else escapeWith "%" c ++ replaceFrom "%C2%B7" midDot 0 R
    else escapeWith "%" c ++ replaceFrom "%C2%B7" midDot 0 R.
Proof. each_byte c; reflexivity. Qed.

Lemma prefix_escape d R :
  String.prefix "%B7" (escapeWith "%" d ++ R) = (code_of d =? 183)%Z.
Proof. each_byte d; first [reflexivity | exact (prefix_empty R)]. Qed.

Lemma replace_dot_skip R :
  replaceFrom "%C2%B7" midDot 3 (escapeWith "%" (byte_of 183) ++ R)
  = replaceFrom "%C2%B7" midDot 0 R.
Proof. reflexivity. Qed.

Lemma byte_183 d : (code_of d =? 183)%Z = true -> d = byte_of 183.
Proof. each_byte d; intros H; try discriminate H; reflexivity. Qed.

Lemma replace_dot_ident :
  forall s,
    replaceFrom "%C2%B7" midDot 0 (QueryEscape s) = identWith "%" s /\
    forall c, replaceFrom "%C2%B7" midDot 0 (QueryEscape (String c s))
              = identWith "%" (String c s).
Proof.
  induction s as [|d s [IH1 IH2]].
  - split; [reflexivity|]. intros c. rewrite QueryEscape_cons, replace_dot_head.
    cbn [QueryEscape String.prefix identWith replaceFrom].
    rewrite NamingProofs.append_nil_r. now destruct (code_of c =? 194)%Z.
  - split; [apply IH2|]. intros c.
    rewrite QueryEscape_cons, replace_dot_head, identWith_cons2.
    destruct (code_of c =? 194)%Z; cbn [andb]; [|now rewrite IH2].
    rewrite QueryEscape_cons, prefix_escape.
    destruct (code_of d =? 183)%Z eqn:Ed.
    + apply byte_183 in Ed. subst d. now rewrite replace_dot_skip, IH1.
    + now rewrite <- QueryEscape_cons, IH2.
Qed.

(** The second replacement: every percent sign becomes a dollar sign. *)
Lemma replace_percent_app s t :
  replaceFrom "%" "$" 0 (s ++ t) = replaceFrom "%" "$" 0 s ++ replaceFrom "%" "$" 0 t.
Proof.
  induction s as [|c s IH]; [reflexivity|].
  rewrite NamingProofs.append_cons. cbn [replaceFrom]. rewrite !prefix_cons.
  destruct (ascii_dec "%" c).
  - rewrite !prefix_empty. cbn [String.length Nat.sub].
    now rewrite IH, !NamingProofs.append_cons, !NamingProofs.append_nil_l.
  - now rewrite IH, NamingProofs.append_cons.
Qed.

Lemma replace_percent_escape c :
  replaceFrom "%" "$" 0 (escapeWith "%" c) = escapeWith "$" c.
Proof. each_byte c; reflexivity. Qed.

Lemma replace_percent_ident :
  forall s,
    replaceFrom "%" "$" 0 (identWith "%" s) = identWith "$" s /\
    forall c, replaceFrom "%" "$" 0 (identWith "%" (String c s)) = identWith "$" (String c s).
Proof.
  induction s as [|d s [IH1 IH2]].
  - split; [reflexivity|]. intros c. cbn [identWith]. apply replace_percent_escape.
  - split; [apply IH2|]. intros c. rewrite !identWith_cons2.
    destruct ((code_of c =? 194) && (code_of d =? 183))%Z.
    + now rewrite replace_percent_app, IH1.
    + now rewrite replace_percent_app, IH2, replace_percent_escape.
Qed.

Lemma encodeIdent_identWith name : encodeIdent name = identWith "$" name.
Proof.
  unfold encodeIdent, ReplaceAll.
  rewrite (proj1 (replace_dot_ident name)). apply (proj1 (replace_percent_ident name)).
Qed.

(** *** Reading the identifier back *)

Lemma nameOf_escape c t : nameOf (escapeWith "$" c ++ t) = String c (nameOf t).
Proof. each_byte c; reflexivity. Qed.

Lemma nameOf_midDot t :
  nameOf (midDot ++ t) = String (byte_of 194) (String (byte_of 183) (nameOf t)).
Proof. reflexivity. Qed.

Lemma byte_194 c : (code_of c =? 194)%Z = true -> c = byte_of 194.
Proof. each_byte c; intros H; try discriminate H; reflexivity. Qed.

Lemma nameOf_identWith :
  forall s,
    nameOf (identWith "$" s) = s /\
    forall c, nameOf (identWith "$" (String c s)) = String c s.
Proof.
  induction s as [|d s [IH1 IH2]].
  - split; [reflexivity|]. intros c. cbn [identWith].
    rewrite <- (NamingProofs.append_nil_r (escapeWith "$" c)). now rewrite nameOf_escape.
  - split; [apply IH2|]. intros c. rewrite identWith_cons2.
    destruct (code_of c =? 194)%Z eqn:Ec, (code_of d =? 183)%Z eqn:Ed; cbn [andb];
      try (now rewrite nameOf_escape, IH2).
    apply byte_194 in Ec. apply byte_183 in Ed. subst c d.
    now rewrite nameOf_midDot, IH1.
Qed.

Lemma nameOf_encodeIdent name : nameOf (encodeIdent name) = name.
Proof. rewrite encodeIdent_identWith. apply (proj1 (nameOf_identWith name)). Qed.

(** [encodeIdent] is injective: two names with the same identifier are the
    same name, byte by byte, so distinct Go names never share a sanitised
    identifier. *)
Theorem encodeIdent_injective (name1 name2 : string) :
  encodeIdent name1 = encodeIdent name2 -> name1 = name2.
Proof.
  intros E. rewrite <- (nameOf_encodeIdent name1), <- (nameOf_encodeIdent name2).
  now rewrite E.
Qed.

Lemma encodeIdent_injective_witness :
  encodeIdent "a b$" = encodeIdent (String "a" (String " " (String "b" (String "$" ""))))
  /\ "a b$" = String "a" (String " " (String "b" (String "$" ""))).
Proof.
  split; [reflexivity|]. apply (encodeIdent_injective _ _). reflexivity.
Defined.

(** ** objectName and importedPkgVar: names once given are kept *)

Lemma assignedObjectName_eq fc o :
  assignedObjectName fc o
  = match (match parent fc with None => None | Some p => assignedObjectName p o end) with
    | Some name => Some name
    | None => objectNames fc !! oid o
    end.
Proof. now destruct fc. Qed.

Lemma assignedObjectName_reserveUp k v o :
  forall c, assignedObjectName (reserveUp k v c) o = assignedObjectName c o.
Proof.
  fix IH 1. intros [vars loc names inst [p|]].
  - rewrite (assignedObjectName_eq (reserveUp _ _ _)), (assignedObjectName_eq (FuncContext _ _ _ _ _)).
    cbn [reserveUp parent objectNames]. now rewrite (IH p).
  - reflexivity.
Qed.

Lemma assignedObjectName_setRoot o name :
  forall c, assignedObjectName (setRootObjectName c o name) o = Some name.
Proof.
  fix IH 1. intros [vars loc names inst [p|]].
  - rewrite assignedObjectName_eq. cbn [setRootObjectName parent]. now rewrite (IH p).
  - rewrite assignedObjectName_eq. cbn [setRootObjectName parent objectNames].
    now rewrite lookup_insert_eq.
Qed.

Lemma assignedObjectName_set fc o name :
  assignedObjectName fc o = None -> assignedObjectName (setObjectName fc o name) o = Some name.
Proof.
  rewrite !assignedObjectName_eq. cbn [setObjectName parent objectNames].
  destruct (match parent fc with None => None | Some p => assignedObjectName p o end);
    [discriminate|]. intros _. now rewrite lookup_insert_eq.
Qed.

Lemma newVariable_objectNames pc fc p b v fc' o :
  newVariable pc fc p b = Ok (v, fc') -> assignedObjectName fc' o = assignedObjectName fc o.
Proof.
  unfold newVariable. destruct (String.eqb p ""); [discriminate|].
  destruct (if minify pc then _ else _) as [name| | | |]; try discriminate.
  cbn [mbind res_bind bind].
  destruct b; intros [= _ <-]; rewrite !(assignedObjectName_eq (FuncContext _ _ _ _ _)),
    (assignedObjectName_eq fc); cbn [parent objectNames]; [|reflexivity].
  destruct (parent fc) as [q|]; [|reflexivity]. now rewrite assignedObjectName_reserveUp.
Qed.

(** [objectName] is stable: when it has returned the expression [e] for an
    object, a second call on the state the first call left returns [e]
    again and leaves the function context as it is (no second variable is
    allocated); in the package context only the dependency graph grows. *)
Theorem objectName_stable (pc pc1 : pkgContext) (fc fc1 : funcContext) (o : object) (e : string) :
  objectName pc fc o = Ok (e, fc1, pc1) ->
  exists pc2,
    objectName pc1 fc1 o = Ok (e, fc1, pc2) /\
    minify pc2 = minify pc /\ Pkg pc2 = Pkg pc /\ pkgVars pc2 = pkgVars pc /\
    escapingVars pc2 = escapingVars pc.
Proof.
  unfold objectName at 1.
  set (pc0 := if isPkgLevel o then _ else pc).
  assert (Hpc0 : minify pc0 = minify pc /\ Pkg pc0 = Pkg pc /\ pkgVars pc0 = pkgVars pc
                 /\ escapingVars pc0 = escapingVars pc).
  { unfold pc0. destruct (isPkgLevel o); repeat split. }
  destruct Hpc0 as (Hm & HP & Hv & He).
  destruct (isPkgLevel o && _) eqn:Hout.
  - intros [= <- <- <-]. unfold objectName.
    rewrite HP, Hout. unfold pkgVar. rewrite HP, Hv.
    eexists. split; [reflexivity|].
    destruct (isPkgLevel o); cbn; rewrite ?Hm, ?HP, ?Hv, ?He; repeat split.
  - destruct (assignedObjectName fc o) as [name|] eqn:Hassigned.
    + cbn [mbind res_bind bind]. intros H.
      assert (Hfc : fc1 = fc /\ pc1 = pc0
                    /\ e = if oIsVar o && bool_decide (oid o ∈ escapingVars pc)
                           then (name ++ "[0]")%string else name).
      { destruct (oIsVar o && _); injection H as <- <- <-; auto. }
      destruct Hfc as (-> & -> & ->). unfold objectName.
      rewrite HP, Hout, Hassigned, He. cbn [mbind res_bind bind].
      destruct (oIsVar o && _); eexists; (split; [reflexivity|]);
        destruct (isPkgLevel o); cbn; rewrite ?Hm, ?HP, ?Hv, ?He; repeat split.
    + destruct (newVariable pc fc (oName o) (isPkgLevel o)) as [[name fc0]| | | |] eqn:Hnew;
        try discriminate.
      cbn [mbind res_bind bind]. intros H.
      pose proof (newVariable_objectNames pc fc (oName o) (isPkgLevel o) name fc0 o Hnew) as Hkeep.
      rewrite Hassigned in Hkeep.
      assert (Hfc : assignedObjectName fc1 o = Some name /\ pc1 = pc0
                    /\ e = if oIsVar o && bool_decide (oid o ∈ escapingVars pc)
                           then (name ++ "[0]")%string else name).
      { destruct (isPkgLevel o); cbn [mbind res_bind bind] in H;
          destruct (oIsVar o && _); injection H as <- <- <-;
          auto using assignedObjectName_setRoot, assignedObjectName_set. }
      destruct Hfc as (Hnow & -> & ->). unfold objectName.
      rewrite HP, Hout, Hnow, He. cbn [mbind res_bind bind].
      destruct (oIsVar o && _); eexists; (split; [reflexivity|]);
        destruct (isPkgLevel o); cbn; rewrite ?Hm, ?HP, ?Hv, ?He; repeat split.
Qed.

Lemma objectName_stable_witness :
  exists e fc1 pc1 pc2,
    objectName pcNatural freshScope funcF = Ok (e, fc1, pc1) /\
    objectName pc1 fc1 funcF = Ok (e, fc1, pc2).
Proof.
  eexists. eexists. eexists.
  assert (H : objectName pcNatural freshScope funcF
              = Ok ("f", setRootObjectName
                           {| allVars := {["f" := 1]}; localVars := []; objectNames := ∅;
                              instance := noInstance; parent := None |} funcF "f",
                    DeclareDCEDep pcNatural funcF [] [])) by (vm_compute; reflexivity).
  destruct (objectName_stable _ _ _ _ _ _ H) as (pc2 & H2 & _).
  exists pc2. split; [exact H | exact H2].
Defined.

Lemma newVariable_natural_table pc fc p (b : bool) v fc' :
  minify pc = false -> plainName p = true -> 0 <= lookupVar (allVars fc) p < 2 ^ 63 - 1 ->
  newVariable pc fc p b = Ok (v, fc') ->
  v = suffixed p (lookupVar (allVars fc) p) /\
  lookupVar (allVars fc') p = lookupVar (allVars fc) p + 1.
Proof.
  intros Hmin Hplain Hn Hnew.
  assert (Hp : p <> "") by (intros ->; discriminate Hnew).
  destruct (newVariable_natural pc fc p b Hmin Hp Hplain Hn) as (fc1 & Hnew1 & Hvars & _).
  rewrite Hnew in Hnew1. injection Hnew1 as -> <-. split; [reflexivity|].
  rewrite Hvars, lookupVar_insert. now destruct (decide (p = p)).
Qed.

Lemma newVariable_minified_table pc fc p (b : bool) v fc' :
  minify pc = true -> newVariable pc fc p b = Ok (v, fc') ->
  lookupVar (allVars fc) v = 0 /\ lookupVar (allVars fc') v = 1.
Proof.
  intros Hmin. unfold newVariable. destruct (String.eqb p ""); [discriminate|].
  rewrite Hmin. destruct (minifiedSearch _ _ _ _) as [name| | | |] eqn:Hs; try discriminate.
  cbn [mbind res_bind bind]. apply minifiedSearch_free in Hs. rewrite Hs.
  change (int64 (0 + 1)) with 1. cbn [Z.ltb Z.compare].
  destruct b; intros [= <- <-]; cbn [allVars]; (split; [assumption|]);
    rewrite lookupVar_insert; now destruct (decide (name = name)).
Qed.

(** ** The output buffer *)

Local Open Scope list_scope.
Local Open Scope Z_scope.

Lemma Write_emitted (fuel : nat) (st : outputState) (b : list ascii) :
  (2 <= fuel)%nat -> Write fuel st b = Ok (emitted st b).
Proof.
  intros Hfuel. destruct fuel as [|[|fuel]]; try lia.
  destruct st as [out del avail p ind]. unfold emitted, pending. cbn [Write posAvailable].
  destruct avail; cbn [mbind res_bind bind].
  - destruct fuel as [|fuel]; cbn; unfold marker; now rewrite <- !app_assoc.
  - reflexivity.
Qed.

Lemma writePos_emitted (fuel : nat) (st : outputState) :
  (1 <= fuel)%nat -> writePos fuel st = Ok (if posAvailable st then emitted st [] else st).
Proof.
  intros Hfuel. destruct fuel as [|fuel]; try lia.
  destruct st as [out del avail p ind]. unfold writePos, emitted, pending. cbn [posAvailable].
  destruct avail; [|reflexivity]. cbn. unfold marker.
  rewrite ?app_nil_r, <- ?app_assoc. reflexivity.
Qed.

(** A position set by [SetPos] is written once: the first [Write] after it
    puts the marker, a backspace byte and the four bytes of the position,
    the most significant first, before its data, and the [Write] after that
    puts its data only.  Both calls return, at any depth of calls from two
    on. *)
Theorem Write_marks_position_once (fuel : nat) (st : outputState) (p : Z) (b1 b2 : list ascii) :
  (2 <= fuel)%nat ->
  exists st1 st2,
    Write fuel (SetPos st p) b1 = Ok st1 /\
    Write fuel st1 b2 = Ok st2 /\
    output st1 = output st ++ chBackspace :: bigEndian32 p ++ b1 /\
    output st2 = output st ++ chBackspace :: bigEndian32 p ++ b1 ++ b2 /\
    posAvailable st1 = false /\ posAvailable st2 = false.
Proof.
  intros Hfuel. exists (emitted (SetPos st p) b1), (emitted (emitted (SetPos st p) b1) b2).
  rewrite !Write_emitted by assumption. repeat split.
  cbn. unfold marker. now rewrite <- !app_assoc.
Qed.

Lemma Write_marks_position_once_witness :
  exists st1 st2,
    Write 2 (SetPos {| output := lit "a"; delayedOutput := []; posAvailable := false;
                       pos := 0; indentation := 0 |} 258) (lit "b") = Ok st1 /\
    Write 2 st1 (lit "c") = Ok st2 /\
    output st2 = lit "a" ++ [chBackspace; byte_of 0; byte_of 0; byte_of 1; byte_of 2] ++ lit "bc".
Proof.
  destruct (Write_marks_position_once 2
              {| output := lit "a"; delayedOutput := []; posAvailable := false;
                 pos := 0; indentation := 0 |} 258 (lit "b") (lit "c"))
    as (st1 & st2 & H1 & H2 & _ & Hout & _); [lia|].
  exists st1, st2. split; [exact H1|]. split; [exact H2|]. rewrite Hout. reflexivity.
Defined.

Lemma Printf_line (st : outputState) (text : list ascii) :
  0 <= indentation st ->
  exists st',
    Printf st text = Ok st' /\
    output st' = output st ++ pending st ++ repeat chTab (Z.to_nat (indentation st))
                 ++ text ++ [chNewline] ++ delayedOutput st /\
    delayedOutput st' = [] /\ posAvailable st' = false /\
    indentation st' = indentation st /\ pos st' = pos st.
Proof.
  unfold Printf, Indentation. rewrite Z.add_0_r. intros Hind.
  destruct (Z.ltb_spec (indentation st) 0); [lia|]. cbn [mbind res_bind bind].
  unfold depth. rewrite !Write_emitted by lia. cbn [mbind res_bind bind].
  rewrite !Write_emitted by lia. cbn [mbind res_bind bind].
  eexists. split; [reflexivity|]. cbn. rewrite ?app_nil_r, <- ?app_assoc. repeat split.
Qed.

Lemma CatchOutput_caught (st st3 : outputState) (indent : Z)
    (f : outputState -> res outputState) :
  f (setIndentation (setOutput st []) (indentation st + indent)) = Ok st3 ->
  exists st',
    CatchOutput st indent f = Ok (output st3 ++ pending st3, st') /\
    output st' = output st /\
    indentation st' = indentation st3 - indent /\
    delayedOutput st' = delayedOutput st3 /\
    posAvailable st' = false.
Proof.
  unfold CatchOutput. cbn [indentation setOutput].
  intros ->. cbn [mbind res_bind bind]. unfold depth.
  rewrite writePos_emitted by lia. cbn [mbind res_bind bind].
  destruct st3 as [out del avail p ind]. unfold pending. cbn [posAvailable].
  destruct avail; eexists; (split; [cbn; rewrite ?app_nil_r; reflexivity|]); repeat split.
Qed.

(** [Printf] writes one line and then the delayed output, which it clears:
    after the pending position marker come the tabs of the indentation, the
    formatted text, a newline and the delayed output.  With a negative
    indentation it panics in [strings.Repeat]. *)
Theorem Printf_flushes_delayed (st : outputState) (text : list ascii) :
  (0 <= indentation st ->
   exists st',
     Printf st text = Ok st' /\
     output st' = output st ++ pending st ++ repeat chTab (Z.to_nat (indentation st))
                  ++ text ++ [chNewline] ++ delayedOutput st /\
     delayedOutput st' = [] /\ posAvailable st' = false /\
     indentation st' = indentation st /\ pos st' = pos st) /\
  (indentation st < 0 -> Printf st text = Panic "strings: negative Repeat count").
Proof.
  split; [apply Printf_line|].
  unfold Printf, Indentation. rewrite Z.add_0_r. intros Hind.
  destruct (Z.ltb_spec (indentation st) 0); [reflexivity | lia].
Qed.

Lemma Printf_flushes_delayed_witness :
  exists st',
    Printf {| output := []; delayedOutput := lit "later"; posAvailable := false;
              pos := 0; indentation := 2 |} (lit "x = 1;") = Ok st' /\
    output st' = [chTab; chTab] ++ lit "x = 1;" ++ [chNewline] ++ lit "later" /\
    delayedOutput st' = [].
Proof.
  destruct (proj1 (Printf_flushes_delayed
                     {| output := []; delayedOutput := lit "later"; posAvailable := false;
                        pos := 0; indentation := 2 |} (lit "x = 1;")))
    as (st' & H & Hout & Hdel & _); [cbn; lia|].
  exists st'. split; [exact H|]. split; [rewrite Hout; reflexivity | exact Hdel].
Defined.

(** [CatchOutput] hands back what the callback wrote and leaves the output
    buffer as it found it: the callback starts on an empty buffer with the
    indentation raised by [indent]; what it wrote, with the marker of a
    position still pending, is returned; the buffer holds its former bytes
    again and the indentation is the one the callback left, lowered by
    [indent], so it is restored when the callback leaves it as it got it.
    A callback that does not return normally stops [CatchOutput] as
    well. *)
Theorem CatchOutput_restores_output
    (st : outputState) (indent : Z) (f : outputState -> res outputState) :
  (forall st3,
      f (setIndentation (setOutput st []) (indentation st + indent)) = Ok st3 ->
      exists st',
        CatchOutput st indent f = Ok (output st3 ++ pending st3, st') /\
        output st' = output st /\
        indentation st' = indentation st3 - indent /\
        delayedOutput st' = delayedOutput st3 /\
        posAvailable st' = false) /\
  (forall e,
      f (setIndentation (setOutput st []) (indentation st + indent)) = Panic e ->
      CatchOutput st indent f = Panic e).
Proof.
  split.
  - intros st3 Hf. now apply CatchOutput_caught.
  - unfold CatchOutput. cbn [indentation setOutput]. now intros e ->.
Qed.

Lemma CatchOutput_restores_output_witness :
  exists st',
    CatchOutput {| output := lit "before"; delayedOutput := []; posAvailable := false;
                   pos := 0; indentation := 1 |} 1 (fun st => Printf st (lit "inner"))
    = Ok ([chTab; chTab] ++ lit "inner" ++ [chNewline], st') /\
    output st' = lit "before" /\ indentation st' = 1.
Proof.
  destruct (proj1 (CatchOutput_restores_output
                     {| output := lit "before"; delayedOutput := []; posAvailable := false;
                        pos := 0; indentation := 1 |} 1 (fun st => Printf st (lit "inner")))
                  {| output := [chTab; chTab] ++ lit "inner" ++ [chNewline];
                     delayedOutput := []; posAvailable := false; pos := 0; indentation := 2 |})
    as (st' & H & Hout & Hind & _); [reflexivity|].
  exists st'. split; [exact H|]. split; [exact Hout | exact Hind].
Defined.

(** What [Delayed] catches is written by the next [Printf], after its line:
    the output buffer is untouched by [Delayed] itself, and the next
    [Printf] puts the tabs, its text and a newline, and then the bytes the
    callback wrote, after which nothing is left delayed. *)
Theorem Delayed_follows_next_line
    (st st3 : outputState) (f : outputState -> res outputState) (text : list ascii) :
  f (setIndentation (setOutput st []) (indentation st + 0)) = Ok st3 ->
  0 <= indentation st3 ->
  exists st1 st2,
    Delayed st f = Ok st1 /\
    output st1 = output st /\
    delayedOutput st1 = output st3 ++ pending st3 /\
    Printf st1 text = Ok st2 /\
    output st2 = output st ++ repeat chTab (Z.to_nat (indentation st3))
                 ++ text ++ [chNewline] ++ output st3 ++ pending st3 /\
    delayedOutput st2 = [].
Proof.
  intros Hf Hind.
  destruct (CatchOutput_caught st st3 0 f Hf)
    as (st' & Hcatch & Hout & Hind' & _ & Hpos).
  destruct (Printf_line (setDelayed st' (output st3 ++ pending st3)) text)
    as (st2 & Hprint & Hout2 & Hdel2 & _).
  { cbn [indentation setDelayed]. lia. }
  exists (setDelayed st' (output st3 ++ pending st3)), st2.
  unfold Delayed. rewrite Hcatch. cbn [mbind res_bind bind].
  split; [reflexivity|]. split; [exact Hout|]. split; [reflexivity|].
  split; [exact Hprint|]. split; [|exact Hdel2]. rewrite Hout2. unfold pending.
  cbn [setDelayed output posAvailable indentation delayedOutput]. rewrite Hpos, Hout, Hind'.
  cbn [app]. now rewrite Z.sub_0_r.
Qed.

Lemma Delayed_follows_next_line_witness :
  exists st1 st2,
    Delayed {| output := lit "a"; delayedOutput := []; posAvailable := false;
               pos := 0; indentation := 0 |} (fun st => Printf st (lit "d")) = Ok st1 /\
    Printf st1 (lit "b") = Ok st2 /\
    output st2 = lit "a" ++ lit "b" ++ [chNewline] ++ lit "d" ++ [chNewline].
Proof.
  destruct (Delayed_follows_next_line
              {| output := lit "a"; delayedOutput := []; posAvailable := false;
                 pos := 0; indentation := 0 |}
              {| output := lit "d" ++ [chNewline]; delayedOutput := []; posAvailable := false;
                 pos := 0; indentation := 0 |}
              (fun st => Printf st (lit "d")) (lit "b"))
    as (st1 & st2 & H1 & _ & _ & H2 & Hout & _); [reflexivity | cbn; lia |].
  exists st1, st2. split; [exact H1|]. split; [exact H2|]. rewrite Hout. reflexivity.
Defined.

(** *** PrintCond: the comment cannot end early *)

Lemma hasPrefix_nil b : hasPrefix b [] = true.
Proof. now destruct b. Qed.

Lemma hasPrefix_two c b :
  hasPrefix (c :: b) [chStar; chSlash]
  = bool_decide (c = chStar) && bool_decide (head b = Some chSlash).
Proof.
  destruct b as [|d b]; cbn [hasPrefix head].
  - now rewrite (bool_decide_eq_false_2 (None = Some chSlash)).
  - f_equal. rewrite hasPrefix_nil, andb_true_r. destruct (decide (d = chSlash)) as [->|Hne].
    + now rewrite !bool_decide_eq_true_2.
    + rewrite !bool_decide_eq_false_2; [reflexivity | congruence | assumption].
Qed.

Lemma index_cons c b :
  index (c :: b) [chStar; chSlash]
  = if bool_decide (c = chStar) && bool_decide (head b = Some chSlash) then 0
    else let i := index b [chStar; chSlash] in if i <? 0 then -1 else i + 1.
Proof. rewrite <- hasPrefix_two. reflexivity. Qed.

Lemma hasPrefix_close s :
  hasPrefix s (lit "*/") = true -> exists s', s = chStar :: chSlash :: s'.
Proof.
  destruct s as [|c s]; [discriminate|]. change (lit "*/") with [chStar; chSlash].
  rewrite hasPrefix_two. intros H. apply andb_true_iff in H as [H1 H2].
  apply bool_decide_eq_true in H1, H2. destruct s as [|d s]; [discriminate H2|].
  injection H2 as ->. subst. eauto.
Qed.

(** The first byte of the replaced text is no slash unless the text itself
    starts with one. *)
Lemma head_replaced s t :
  head s <> Some chSlash -> head t <> Some chSlash ->
  head (replaceBytes (lit "*/") (lit "<star>/") 0 s ++ t) <> Some chSlash.
Proof.
  destruct s as [|c s]; intros Hs Ht; [exact Ht|]. cbn [replaceBytes].
  destruct (hasPrefix (c :: s) (lit "*/")); [discriminate|exact Hs].
Qed.

Lemma index_other c b :
  c <> chStar ->
  index (c :: b) [chStar; chSlash]
  = let i := index b [chStar; chSlash] in if i <? 0 then -1 else i + 1.
Proof. intros Hc. now rewrite index_cons, (bool_decide_eq_false_2 _ Hc). Qed.

Lemma index_ge b sep : -1 <= index b sep.
Proof.
  induction b as [|c b IH].
  - cbn [index]. destruct (hasPrefix [] sep); lia.
  - cbn [index]. destruct (hasPrefix (c :: b) sep); [lia|]. cbn zeta.
    destruct (Z.ltb_spec (index b sep) 0); lia.
Qed.

Lemma index_skip l Y :
  Forall (fun c => c <> chStar) l ->
  index (l ++ Y) [chStar; chSlash]
  = let i := index Y [chStar; chSlash] in if i <? 0 then -1 else i + Z.of_nat (length l).
Proof.
  pose proof (index_ge Y [chStar; chSlash]) as Hge.
  induction 1 as [|c l Hc _ IH]; cbn [app length].
  - cbn zeta. destruct (Z.ltb_spec (index Y [chStar; chSlash]) 0); lia.
  - rewrite index_other, IH by assumption. cbn zeta.
    destruct (Z.ltb_spec (index Y [chStar; chSlash]) 0) as [Hneg|Hpos]; [reflexivity|].
    destruct (Z.ltb_spec (index Y [chStar; chSlash] + Z.of_nat (length l)) 0); lia.
Qed.

Lemma index_star_text Y :
  index (lit "<star>/" ++ Y) [chStar; chSlash]
  = let i := index Y [chStar; chSlash] in if i <? 0 then -1 else i + 7.
Proof.
  apply (index_skip (lit "<star>/")).
  repeat constructor; intros E; vm_compute in E; discriminate E.
Qed.

Lemma replaceBytes_cons old new c s :
  replaceBytes old new 0 (c :: s)
  = if hasPrefix (c :: s) old
    then new ++ replaceBytes old new (length old - 1) s
    else c :: replaceBytes old new 0 s.
Proof. reflexivity. Qed.

Lemma replaceBytes_skip new d s :
  replaceBytes (lit "*/") new (length (lit "*/") - 1) (d :: s) = replaceBytes (lit "*/") new 0 s.
Proof. reflexivity. Qed.

Lemma index_replaced t :
  head t <> Some chSlash -> 0 <= index t [chStar; chSlash] ->
  forall s,
    (index (replaceBytes (lit "*/") (lit "<star>/") 0 s ++ t) [chStar; chSlash]
     = Z.of_nat (length (replaceBytes (lit "*/") (lit "<star>/") 0 s))
       + index t [chStar; chSlash]) /\
    forall c,
      index (replaceBytes (lit "*/") (lit "<star>/") 0 (c :: s) ++ t) [chStar; chSlash]
      = Z.of_nat (length (replaceBytes (lit "*/") (lit "<star>/") 0 (c :: s)))
        + index t [chStar; chSlash].
Proof.
  intros Ht Hi. induction s as [|d s [IH1 IH2]].
  - split; [cbn; lia|]. intros c. cbn [replaceBytes].
    replace (hasPrefix [c] (lit "*/")) with false
      by (change (lit "*/") with [chStar; chSlash]; rewrite hasPrefix_two;
          cbn [head]; rewrite (bool_decide_eq_false_2 (None = Some chSlash)) by discriminate;
          now rewrite andb_false_r).
    cbn [app replaceBytes length]. rewrite index_cons.
    replace (bool_decide (head t = Some chSlash)) with false
      by (symmetry; now apply bool_decide_eq_false_2).
    rewrite andb_false_r. cbn zeta. destruct (Z.ltb_spec (index t [chStar; chSlash]) 0); lia.
  - split; [apply IH2|]. intros c. rewrite (replaceBytes_cons _ _ c).
    destruct (hasPrefix (c :: d :: s) (lit "*/")) eqn:Hpre.
    + apply hasPrefix_close in Hpre as (s' & [= -> -> ->]).
      rewrite replaceBytes_skip.
      rewrite <- app_assoc, index_star_text, IH1, length_app.
      change (length (lit "<star>/")) with 7%nat. cbn zeta.
      match goal with |- context [?a <? 0] => destruct (Z.ltb_spec a 0); lia end.
    + cbn [app length]. rewrite index_cons.
      assert (Hno : bool_decide (c = chStar)
                    && bool_decide (head (replaceBytes (lit "*/") (lit "<star>/") 0 (d :: s) ++ t)
                                    = Some chSlash) = false).
      { destruct (decide (c = chStar)) as [->|Hc];
          [|now rewrite (bool_decide_eq_false_2 _ Hc)].
        rewrite bool_decide_eq_true_2 by reflexivity. cbn [andb].
        apply bool_decide_eq_false_2. apply head_replaced; [|assumption].
        cbn [head]. intros [= ->]. change (lit "*/") with [chStar; chSlash] in Hpre.
        rewrite hasPrefix_two in Hpre. cbn [head] in Hpre.
        rewrite !bool_decide_eq_true_2 in Hpre by reflexivity. discriminate Hpre. }
      rewrite Hno, IH2. cbn zeta.
      match goal with |- context [?a <? 0] => destruct (Z.ltb_spec a 0); lia end.
Qed.

(** With a false condition [PrintCond] writes [onTrue] as a comment before
    [onFalse], and the comment cannot end early: in the line it writes,
    after the opening of the comment, the first end of a comment is the one
    [PrintCond] puts itself, whatever [onTrue] holds. *)
Theorem PrintCond_comment_closes_last (st : outputState) (onTrue onFalse : list ascii) :
  exists body,
    PrintCond st false onTrue onFalse
      = Printf st (lit "/*" ++ body ++ lit "*/ " ++ onFalse) /\
    body = lit " " ++ replaceBytes (lit "*/") (lit "<star>/") 0 onTrue ++ lit " " /\
    index (body ++ lit "*/ " ++ onFalse) (lit "*/") = Z.of_nat (length body).
Proof.
  eexists. split; [|split; [reflexivity|]].
  - unfold PrintCond. cbn [negb]. f_equal. cbn [lit list_ascii_of_string app].
    rewrite <- !app_assoc. reflexivity.
  - change (lit "*/") with [chStar; chSlash].
    change (lit " ") with [chSpace]. cbn [app]. rewrite index_cons.
    rewrite (bool_decide_eq_false_2 (chSpace = chStar)) by discriminate. cbn [andb].
    rewrite <- app_assoc.
    change (replaceBytes [chStar; chSlash]) with (replaceBytes (lit "*/")).
    rewrite (proj1 (index_replaced ([chSpace] ++ lit "*/ " ++ onFalse) ltac:(discriminate)
                     ltac:(cbn; discriminate) onTrue)).
    cbn zeta. rewrite length_cons, length_app.
    replace (index ([chSpace] ++ lit "*/ " ++ onFalse) [chStar; chSlash]) with 1
      by reflexivity.
    cbn [length].
    match goal with |- context [?a <? 0] => destruct (Z.ltb_spec a 0); lia end.
Qed.

(** ** removeWhitespace *)

Lemma bind_Ok {A B} (a : A) (k : A -> res B) : (x ← Ok a; k x) = k a.
Proof. reflexivity. Qed.




(** More fuel does not change a result. *)
Lemma removeLoop_more fuel out previous b r :
  removeLoop fuel out previous b = Ok r -> removeLoop (S fuel) out previous b = Ok r.
Proof.
  revert out previous b. induction fuel as [|fuel IH]; intros out previous [|c rest] H;
    try exact H; try discriminate H.
  cbn [removeLoop] in H. remember (S fuel) as fuel1 eqn:E. cbn [removeLoop]. subst fuel1.
  destruct (decide (c = chBackspace)).
  { destruct (length (c :: rest) <? 5)%nat; [discriminate H|]. now apply IH. }
  destruct (isBlankByte c).
  { destruct (dropsBlank previous (c :: rest)) as [[]| | | |]; try discriminate H;
      cbn [mbind res_bind bind] in *; now apply IH. }
  destruct (decide (c = chQuote)).
  { destruct (copyLiteral (S (length rest)) (out ++ [chQuote]) rest) as [[o b1]| | | |];
      try discriminate H.
    cbn [mbind res_bind bind] in *. destruct b1 as [|q b2]; [discriminate H|]. now apply IH. }
  destruct (decide (c = chSlash)).
  { destruct (at_ (c :: rest) 1) as [c1| | | |]; try discriminate H.
    cbn [mbind res_bind bind] in *. destruct (decide (c1 = chStar)).
    - destruct (Z.of_nat (length (c :: rest)) <? _); [discriminate H|]. now apply IH.
    - now apply IH. }
  now apply IH.
Qed.

Lemma removeLoop_fuel fuel fuel' out previous b r :
  (fuel <= fuel')%nat ->
  removeLoop fuel out previous b = Ok r -> removeLoop fuel' out previous b = Ok r.
Proof.
  induction 1 as [|fuel' _ IH]; [auto|]. intros H. apply removeLoop_more. now apply IH.
Qed.



Lemma plainByte_cases c :
  plainByte c = true ->
  c <> chBackspace /\ isBlankByte c = false /\ c <> chQuote /\ c <> chSlash.
Proof.
  unfold plainByte. intros H. repeat (apply andb_true_iff in H as [H ?]).
  repeat match goal with
         | H : negb (bool_decide _) = true |- _ =>
             apply negb_true_iff, bool_decide_eq_false in H
         | H : negb _ = true |- _ => apply negb_true_iff in H
         end.
  auto.
Qed.

Lemma removeLoop_plain_step fuel out previous c rest :
  plainByte c = true ->
  removeLoop (S fuel) out previous (c :: rest) = removeLoop fuel (out ++ [c]) c rest.
Proof.
  intros H. destruct (plainByte_cases c H) as (H1 & H2 & H3 & H4). cbn [removeLoop].
  destruct (decide (c = chBackspace)); [contradiction|]. rewrite H2.
  destruct (decide (c = chQuote)); [contradiction|].
  now destruct (decide (c = chSlash)).
Qed.

Lemma last_default (a : ascii) l d1 d2 : List.last (a :: l) d1 = List.last (a :: l) d2.
Proof. revert a. induction l as [|b l IH]; intros a; [reflexivity|]. exact (IH b). Qed.

Lemma removeLoop_plain_prefix pre :
  forallb plainByte pre = true ->
  forall fuel out previous b,
    removeLoop (length pre + fuel) out previous (pre ++ b)
    = removeLoop fuel (out ++ pre) (List.last pre previous) b.
Proof.
  induction pre as [|c pre IH]; intros Hpre fuel out previous b.
  - now rewrite app_nil_r.
  - cbn [forallb] in Hpre. apply andb_true_iff in Hpre as [Hc Hpre].
    cbn [length Nat.add app]. rewrite removeLoop_plain_step by assumption.
    rewrite (IH Hpre), <- app_assoc. cbn [app]. f_equal.
    destruct pre as [|a pre]; [reflexivity|]. cbn [List.last]. apply last_default.
Qed.

(** Text without position markers, blanks, quotes and slashes is returned
    byte for byte, and so is every text when no minification is asked for. *)
Theorem removeWhitespace_plain (b : list ascii) (minify : bool) :
  minify = false \/ forallb plainByte b = true -> removeWhitespace b minify = Ok b.
Proof.
  unfold removeWhitespace. destruct minify; [|reflexivity]. intros [H|H]; [discriminate H|].
  cbn [negb]. rewrite <- (app_nil_r b) at 2.
  replace (length b) with (length b + 0)%nat by lia.
  now rewrite removeLoop_plain_prefix.
Qed.

Lemma removeWhitespace_plain_witness :
  removeWhitespace (lit "a=b+1;") true = Ok (lit "a=b+1;").
Proof. apply (removeWhitespace_plain (lit "a=b+1;") true). right. reflexivity. Defined.

(** *** Position markers and string literals *)

Lemma indexAny_cons c b chars :
  indexAny (c :: b) chars
  = if bool_decide (c ∈ chars) then 0
    else let i := indexAny b chars in if i <? 0 then -1 else i + 1.
Proof. reflexivity. Qed.


Lemma not_mark c :
  c <> chQuote -> c <> chBackslash -> bool_decide (c ∈ [chQuote; chBackslash]) = false.
Proof.
  intros H1 H2. apply bool_decide_eq_false_2. intros Hin.
  apply elem_of_cons in Hin as [->|Hin]; [contradiction|].
  apply elem_of_cons in Hin as [->|Hin]; [contradiction|]. now apply elem_of_nil in Hin.
Qed.








(** *** Comments *)

Lemma head_app_cons {A} (l rest : list A) : l <> [] -> head (l ++ rest) = head l.
Proof. now destruct l. Qed.

Lemma index_app_found b1 rest :
  0 <= index b1 [chStar; chSlash] ->
  index (b1 ++ rest) [chStar; chSlash] = index b1 [chStar; chSlash].
Proof.
  induction b1 as [|c b1 IH]; [cbn; lia|]. cbn [app]. rewrite !index_cons.
  destruct (bool_decide (c = chStar) && bool_decide (head b1 = Some chSlash)) eqn:E.
  - intros _. apply andb_true_iff in E as [E1 E2]. apply bool_decide_eq_true in E2.
    rewrite head_app_cons by (intros ->; discriminate E2).
    now rewrite E1, (bool_decide_eq_true_2 _ E2).
  - cbn zeta. intros H. pose proof (index_ge b1 [chStar; chSlash]) as Hge.
    destruct (Z.ltb_spec (index b1 [chStar; chSlash]) 0) as [Hneg|Hpos]; [lia|].
    rewrite head_app_cons by (intros ->; cbn in Hpos; lia).
    rewrite E, IH by assumption.
    destruct (Z.ltb_spec (index b1 [chStar; chSlash]) 0); [lia | reflexivity].
Qed.

Lemma removeLoop_comment fuel out previous b :
  removeLoop (S fuel) out previous (chSlash :: chStar :: b)
  = let i := index b [chStar; chSlash] in
    if Z.of_nat (S (S (length b))) <? i + 4 then Panic "slice bounds out of range"
    else removeLoop fuel out previous (drop (Z.to_nat (i + 4)) (chSlash :: chStar :: b)).
Proof. reflexivity. Qed.

(** A comment is dropped: when the text [rest] is minified to [r], so is the
    text that has a comment before [rest], the comment being the opening
    mark, a body whose first end of a comment is the one after it, and that
    end. *)
Theorem removeWhitespace_drops_comment (body rest r : list ascii) :
  removeWhitespace rest true = Ok r ->
  index (body ++ lit "*/") (lit "*/") = Z.of_nat (length body) ->
  removeWhitespace (lit "/*" ++ body ++ lit "*/" ++ rest) true = Ok r.
Proof.
  unfold removeWhitespace. cbn [negb]. intros Hrest Hbody.
  change (lit "/*") with [chSlash; chStar]. change (lit "*/") with [chStar; chSlash] in *.
  cbn [app length]. rewrite removeLoop_comment.
  assert (Hi : index (body ++ chStar :: chSlash :: rest) [chStar; chSlash]
               = Z.of_nat (length body)).
  { change (chStar :: chSlash :: rest) with ([chStar; chSlash] ++ rest).
    rewrite app_assoc, index_app_found; [exact Hbody | rewrite Hbody; lia]. }
  rewrite Hi. cbn zeta.
  replace (Z.of_nat (S (S (length (body ++ chStar :: chSlash :: rest))))
           <? Z.of_nat (length body) + 4) with false
    by (symmetry; apply Z.ltb_ge; rewrite length_app; cbn [length]; lia).
  replace (Z.to_nat (Z.of_nat (length body) + 4)) with (S (S (length body + 2))) by lia.
  cbn [drop]. rewrite <- drop_drop, drop_app_length. cbn [drop].
  refine (removeLoop_fuel (length rest) _ [] _ rest r _ Hrest).
  rewrite length_app. cbn [length]. lia.
Qed.

Lemma removeWhitespace_drops_comment_witness :
  removeWhitespace (lit "/*" ++ lit " note * " ++ lit "*/" ++ lit "a") true = Ok (lit "a").
Proof.
  apply (removeWhitespace_drops_comment (lit " note * ") (lit "a") (lit "a")); reflexivity.
Defined.

(** *** Texts [removeWhitespace] panics on *)

(** [removeWhitespace] reads the byte after a blank without looking at the
    length first: a text that ends in a blank right after a run of plain
    bytes whose last one is an identifier byte or a minus sign panics with
    an index out of range.  A text that opens a string literal after plain
    bytes and never closes it panics with slice bounds out of range. *)
Theorem removeWhitespace_panics (pre : list ascii) (p : ascii) :
  forallb plainByte (pre ++ [p]) = true ->
  (forall w, needsSpace p = true \/ p = chMinus -> isBlankByte w = true ->
     removeWhitespace (pre ++ [p] ++ [w]) true = Panic "index out of range") /\
  (forall body, Forall (fun c => c <> chQuote /\ c <> chBackslash) body ->
     removeWhitespace (pre ++ [p] ++ chQuote :: body) true
     = Panic "slice bounds out of range").
Proof.
  intros Hpre. unfold removeWhitespace. cbn [negb]. split.
  - intros w Hp Hw. rewrite app_assoc, length_app.
    rewrite removeLoop_plain_prefix by assumption. rewrite last_last.
    cbn [length removeLoop].
    assert (Hnb : w <> chBackspace).
    { intros ->. discriminate Hw. }
    destruct (decide (w = chBackspace)); [contradiction|]. rewrite Hw.
    unfold dropsBlank. destruct Hp as [Hp| ->].
    + now rewrite Hp.
    + reflexivity.
  - intros body Hbody. rewrite app_assoc, length_app.
    rewrite removeLoop_plain_prefix by assumption.
    cbn [length removeLoop].
    destruct (decide (chQuote = chBackspace)) as [E|_]; [discriminate E|].
    replace (isBlankByte chQuote) with false by reflexivity.
    destruct (decide (chQuote = chQuote)); [|contradiction].
    assert (Hno : indexAny body [chQuote; chBackslash] = -1).
    { induction Hbody as [|c body [H1 H2] _ IH]; [reflexivity|].
      rewrite indexAny_cons, (not_mark c H1 H2), IH. reflexivity. }
    cbn [copyLiteral]. now rewrite Hno.
Qed.

Lemma removeWhitespace_panics_witness :
  removeWhitespace (lit "return" ++ [chNewline]) true = Panic "index out of range" /\
  removeWhitespace (lit "x=" ++ chQuote :: lit "abc") true = Panic "slice bounds out of range".
Proof.
  split.
  - apply (proj1 (removeWhitespace_panics (lit "retur") (byte_of 110) eq_refl) chNewline);
      [left|]; reflexivity.
  - apply (proj2 (removeWhitespace_panics (lit "x") (byte_of 61) eq_refl) (lit "abc")).
    repeat constructor; intros E; vm_compute in E; discriminate E.
Defined.

(** ** getJsTag *)

Section TagProofs.
Variable Unquote : list ascii -> list ascii.

Lemma skipSpaces_length tag : (length (skipSpaces tag) <= length tag)%nat.
Proof.
  induction tag as [|c tag IH]; cbn [skipSpaces length]; [lia|].
  destruct (decide (c = chSpace)); cbn [length]; lia.
Qed.

Lemma skipSpaces_suffix tag : exists sp, tag = sp ++ skipSpaces tag.
Proof.
  induction tag as [|c tag [sp IH]]; [now exists []|]. cbn [skipSpaces].
  destruct (decide (c = chSpace)).
  - exists (c :: sp). cbn [app]. now rewrite <- IH.
  - now exists [].
Qed.

(** [getJsTag] returns on every tag, well-formed or not: its loop ends, each
    turn dropping bytes of the tag.  What it returns is empty, or it is the
    unquoting of a piece of the tag that starts with a double quote and comes
    directly after the key js and its colon. *)
Theorem getJsTag_returns (tag : list ascii) :
  exists v,
    getJsTag Unquote tag = Ok v /\
    (v = [] \/
     exists pre q post,
       tag = pre ++ lit "js:" ++ q ++ post /\ head q = Some chQuote /\ v = Unquote q).
Proof.
  unfold getJsTag.
  enough (H : forall fuel t, (length t < fuel)%nat ->
            exists v, getJsTagLoop Unquote fuel t = Ok v /\
              (v = [] \/
               exists pre q post,
                 t = pre ++ lit "js:" ++ q ++ post /\ head q = Some chQuote /\ v = Unquote q))
    by (apply H; lia).
  induction fuel as [|fuel IH]; intros t Hfuel; [lia|]. cbn [getJsTagLoop].
  destruct t as [|c t]; [eauto|].
  pose proof (skipSpaces_length (c :: t)) as Hskip.
  destruct (skipSpaces_suffix (c :: t)) as [sp Hsp].
  destruct (skipSpaces (c :: t)) as [|d t1] eqn:Et1; [eauto|].
  set (tag1 := d :: t1) in *. set (i := scanName tag1).
  destruct (_ || _) eqn:Hcond; [eauto|].
  apply orb_false_iff in Hcond as [Hcond Hquote].
  apply orb_false_iff in Hcond as [_ Hcolon].
  apply negb_false_iff, bool_decide_eq_true in Hcolon, Hquote.
  set (tag2 := drop (i + 1) tag1) in *. set (i2 := scanQuoted (drop 1 tag2) 1).
  destruct (length tag2 <=? i2)%nat; [eauto|].
  assert (Hsplit : c :: t = sp ++ take i tag1 ++ chColon :: take (i2 + 1) tag2
                                ++ drop (i2 + 1) tag2).
  { rewrite Hsp at 1. f_equal. rewrite <- (take_drop i tag1) at 1. f_equal.
    rewrite (drop_S _ _ _ Hcolon). f_equal.
    rewrite take_drop. unfold tag2. now rewrite Nat.add_1_r. }
  destruct (bool_decide (take i tag1 = lit "js")) eqn:Hname.
  - apply bool_decide_eq_true in Hname. eexists. split; [reflexivity|]. right.
    exists sp, (take (i2 + 1) tag2), (drop (i2 + 1) tag2). split; [|split; [|reflexivity]].
    + rewrite Hsplit, Hname. reflexivity.
    + unfold tag2 at 1. rewrite (drop_S _ _ _ Hquote), Nat.add_1_r. reflexivity.
  - destruct (IH (drop (i2 + 1) tag2)) as (v & Hv & Hshape).
    { unfold tag2. rewrite !length_drop. subst tag1. cbn [length] in *. lia. }
    exists v. split; [exact Hv|]. destruct Hshape as [-> | (pre & q & post & E & Hq & ->)].
    + now left.
    + right. exists (sp ++ take i tag1 ++ chColon :: take (i2 + 1) tag2 ++ pre), q, post.
      split; [|split; [assumption | reflexivity]].
      rewrite Hsplit, E. rewrite <- !app_assoc. cbn [app]. now rewrite <- !app_assoc.
Qed.

Lemma getJsTagLoop_space fuel t :
  getJsTagLoop Unquote (S fuel) (chSpace :: t) = getJsTagLoop Unquote (S fuel) t.
Proof.
  cbn [getJsTagLoop skipSpaces]. destruct (decide (chSpace = chSpace)); [|contradiction].
  destruct t as [|c t]; reflexivity.
Qed.

Lemma scanName_key k t : tagKey k -> scanName (k ++ chColon :: t) = length k.
Proof.
  induction 1 as [|c k (H1 & H2 & H3) _ IH]; cbn [app scanName length].
  - destruct (decide (chColon = chSpace)) as [E|_]; [discriminate E|].
    now destruct (decide (chColon = chColon)).
  - destruct (decide (c = chSpace)); [contradiction|].
    destruct (decide (c = chColon)); [contradiction|].
    destruct (decide (c = chQuote)); [contradiction|]. now rewrite IH.
Qed.

Lemma skipSpaces_key k t : tagKey k -> skipSpaces (k ++ chColon :: t) = k ++ chColon :: t.
Proof.
  intros Hk. destruct Hk as [|c k (H1 & _) _]; cbn [app skipSpaces].
  - now destruct (decide (chColon = chSpace)).
  - now destruct (decide (c = chSpace)).
Qed.

Lemma scanQuoted_pieces ps :
  Forall pieceOk ps ->
  forall i rest,
    scanQuoted (flat_map pieceBytes ps ++ chQuote :: rest) i
    = (i + length (flat_map pieceBytes ps))%nat.
Proof.
  induction 1 as [|[c|c] ps Hp _ IH]; intros i rest; cbn [flat_map pieceBytes app scanQuoted].
  - destruct (decide (chQuote = chQuote)); [cbn; lia | contradiction].
  - destruct Hp as [H1 H2]. destruct (decide (c = chQuote)); [contradiction|].
    destruct (decide (c = chBackslash)); [contradiction|]. rewrite IH. cbn [length]. lia.
  - destruct (decide (chBackslash = chQuote)) as [E|_]; [discriminate E|].
    destruct (decide (chBackslash = chBackslash)); [|contradiction].
    rewrite IH. cbn [length]. lia.
Qed.

(** One turn of the loop on a tag that starts with a well-formed pair. *)
Lemma getJsTagLoop_pair fuel k ps rest :
  tagKey k -> Forall pieceOk ps ->
  getJsTagLoop Unquote (S fuel) (k ++ chColon :: literalOf ps ++ rest)
  = if bool_decide (k = lit "js") then Ok (Unquote (literalOf ps))
    else getJsTagLoop Unquote fuel rest.
Proof.
  intros Hk Hps. unfold literalOf. rewrite <- !app_assoc. cbn [app].
  set (body := flat_map pieceBytes ps).
  set (tag := k ++ chColon :: chQuote :: body ++ chQuote :: rest).
  assert (Hskip : skipSpaces tag = tag) by now apply skipSpaces_key.
  assert (Hscan : scanName tag = length k) by now apply scanName_key.
  assert (Hne : exists c t, tag = c :: t /\ skipSpaces (c :: t) = c :: t).
  { destruct tag as [|c t] eqn:E; [destruct k; discriminate E|]. eauto. }
  destruct Hne as (c & t & Etag & Hskip').
  cbn [getJsTagLoop]. rewrite Etag, Hskip', <- Etag, Hscan.
  assert (Hlen : (length tag <=? length k + 1)%nat = false).
  { apply Nat.leb_gt. unfold tag. rewrite length_app. cbn [length]. lia. }
  assert (Hcolon : tag !! length k = Some chColon).
  { unfold tag. now rewrite list_lookup_middle. }
  assert (Hquote : tag !! (length k + 1)%nat = Some chQuote).
  { unfold tag. rewrite lookup_app_r by lia.
    replace (length k + 1 - length k)%nat with 1%nat by lia. reflexivity. }
  rewrite Hlen, Hcolon, Hquote, !bool_decide_eq_true_2 by reflexivity. cbn [orb negb].
  assert (Htake : take (length k) tag = k) by (unfold tag; now rewrite take_app_length).
  assert (Hdrop : drop (length k + 1) tag = chQuote :: body ++ chQuote :: rest).
  { unfold tag. rewrite <- drop_drop, drop_app_length. reflexivity. }
  rewrite Htake, Hdrop. cbn [drop]. rewrite !drop_0.
  rewrite (scanQuoted_pieces ps Hps 1%nat rest
           : scanQuoted (body ++ chQuote :: rest) 1 = (1 + length body)%nat).
  replace (length (chQuote :: body ++ chQuote :: rest) <=? 1 + length body)%nat with false
    by (symmetry; apply Nat.leb_gt; cbn [length]; rewrite length_app; cbn [length]; lia).
  replace (1 + length body + 1)%nat with (S (length body + 1)) by lia.
  cbn [take drop].
  replace (body ++ chQuote :: rest) with ((body ++ [chQuote]) ++ rest)
    by now rewrite <- app_assoc.
  rewrite take_app_length', drop_app_length' by (rewrite length_app; cbn [length]; lia).
  reflexivity.
Qed.

Lemma tagPair_length kv : (3 <= length (tagPair kv))%nat.
Proof. unfold tagPair, literalOf. rewrite length_app. cbn [length app]. rewrite length_app. cbn [length]. lia. Qed.

Lemma getJsTagLoop_tagOf pairs :
  Forall (fun kv => tagKey (fst kv) /\ Forall pieceOk (snd kv)) pairs ->
  forall fuel,
    (length (tagOf pairs) < fuel)%nat ->
    getJsTagLoop Unquote fuel (tagOf pairs)
    = Ok (match find jsPair pairs with
          | Some kv => Unquote (literalOf (snd kv))
          | None => []
          end).
Proof.
  induction 1 as [|[k ps] pairs [Hk Hps] _ IH]; intros fuel Hfuel.
  - destruct fuel as [|fuel]; [lia | reflexivity].
  - cbn [fst snd] in *. cbn [find jsPair]. unfold jsPair at 1. cbn [fst snd].
    pose proof (tagPair_length (k, ps)) as H3.
    destruct pairs as [|kv2 pairs].
    + cbn [tagOf] in *. unfold tagPair in *. cbn [fst snd] in *.
      destruct fuel as [|[|fuel]]; try lia.
      rewrite <- (app_nil_r (literalOf ps)), getJsTagLoop_pair by assumption.
      now destruct (bool_decide (k = lit "js")).
    + change (tagOf ((k, ps) :: kv2 :: pairs))
        with (tagPair (k, ps) ++ chSpace :: tagOf (kv2 :: pairs)) in *.
      rewrite length_app in Hfuel. cbn [length] in Hfuel.
      unfold tagPair in *. cbn [fst snd] in *. rewrite <- app_assoc. cbn [app].
      destruct fuel as [|[|fuel]]; try lia.
      rewrite getJsTagLoop_pair by assumption.
      destruct (bool_decide (k = lit "js")); [reflexivity|].
      rewrite getJsTagLoop_space. apply IH. lia.
Qed.

(** On a tag made of well-formed pairs with one space between them,
    [getJsTag] returns the unquoted value of the first pair whose key is
    [js], and the empty string when no pair has that key.  A key is any run
    of bytes without space, colon and quote; a value is a string literal. *)
Theorem getJsTag_first_js (pairs : list (list ascii * list literalPiece)) :
  Forall (fun kv => tagKey (fst kv) /\ Forall pieceOk (snd kv)) pairs ->
  getJsTag Unquote (tagOf pairs)
  = Ok (match find jsPair pairs with
        | Some kv => Unquote (literalOf (snd kv))
        | None => []
        end).
Proof. intros H. unfold getJsTag. apply getJsTagLoop_tagOf; [assumption | lia]. Qed.

End TagProofs.

Lemma getJsTag_first_js_witness :
  getJsTag (fun q => q) (lit "json:" ++ literalOf [Plain (byte_of 97)] ++ lit " js:"
                         ++ literalOf [Plain (byte_of 98)])
  = Ok (literalOf [Plain (byte_of 98)]).
Proof.
  apply (getJsTag_first_js (fun q => q)
           [(lit "json", [Plain (byte_of 97)]); (lit "js", [Plain (byte_of 98)])]).
  repeat constructor; intros E; vm_compute in E; discriminate E.
Defined.

(** ** fieldName *)

Local Open Scope string_scope.

(** The JavaScript names of the fields of a struct are pairwise distinct:
    when the Go names of the fields are made of ASCII letters, digits and
    underscores and no two fields other than blank ones share a name,
    [fieldName] gives different names to different field indices, whatever
    the table of reserved words holds; a blank or reserved name gets the
    index as suffix. *)
Theorem fieldName_injective (reservedKeywords : string -> bool) (t : list string)
    (i j : nat) (x : string) :
  Forall (fun n => plainName n = true) t ->
  (forall a b n, t !! a = Some n -> t !! b = Some n -> n <> "_" -> a = b) ->
  fieldName reservedKeywords t i = Ok x ->
  fieldName reservedKeywords t j = Ok x ->
  i = j.
Proof.
  intros Hplain Hdistinct. unfold fieldName.
  destruct (t !! i) as [ni|] eqn:Ei; [|discriminate].
  destruct (t !! j) as [nj|] eqn:Ej; [|discriminate].
  pose proof (Forall_lookup_1 _ _ _ _ Hplain Ei) as Hi. cbn beta in Hi.
  pose proof (Forall_lookup_1 _ _ _ _ Hplain Ej) as Hj. cbn beta in Hj.
  destruct (String.eqb ni "_" || reservedKeywords ni) eqn:Ri,
           (String.eqb nj "_" || reservedKeywords nj) eqn:Rj; intros [= <-] [= E].
  - symmetry in E. apply split_at_dollar in E as [_ E]; try assumption.
    apply fmtInt_inj in E. lia.
  - rewrite E, plainName_no_dollar in Hj. discriminate Hj.
  - rewrite <- E, plainName_no_dollar in Hi. discriminate Hi.
  - subst nj. apply (Hdistinct i j ni Ei Ej). intros ->. discriminate Ri.
Qed.

Lemma fieldName_injective_witness :
  fieldName (fun n => String.eqb n "var") ["_"; "var"; "_"; "x"] 0 = Ok "_$0" /\
  fieldName (fun n => String.eqb n "var") ["_"; "var"; "_"; "x"] 2 = Ok "_$2" /\
  (forall j, fieldName (fun n => String.eqb n "var") ["_"; "var"; "_"; "x"] j = Ok "_$0" ->
             0%nat = j).
Proof.
  split; [reflexivity|]. split; [reflexivity|]. intros j Hj.
  apply (fieldName_injective (fun n => String.eqb n "var") ["_"; "var"; "_"; "x"] 0 j "_$0");
    [repeat constructor | | reflexivity | exact Hj].
  intros [|[|[|[|a]]]] [|[|[|[|b]]]] n Ha Hb Hn; cbn in Ha, Hb; try discriminate;
    try reflexivity; injection Ha as <-; try discriminate Hb; now elim Hn.
Defined.

End UtilsProofs.

(** * Part VIII: the names of one scope and of its ancestors *)

Module NamesProofs.
Import Naming Utils.
Local Open Scope string_scope.
Local Open Scope Z_scope.

(** ** Texts *)

Lemma append_inv_head (a x y : string) : a ++ x = a ++ y -> x = y.
Proof.
  induction a as [|c a IH]; [trivial|].
  rewrite !NamingProofs.append_cons. intros [= H]. now apply IH.
Qed.

Lemma length_append (a b : string) :
  String.length (a ++ b) = (String.length a + String.length b)%nat.
Proof.
  induction a as [|c a IH]; [reflexivity|].
  rewrite NamingProofs.append_cons. cbn [String.length]. now rewrite IH.
Qed.

Lemma lastByte_append (s t : string) :
  lastByte (s ++ t) = match lastByte t with Some d => Some d | None => lastByte s end.
Proof.
  induction s as [|c s IH]; cbn [lastByte].
  - rewrite NamingProofs.append_nil_l. now destruct (lastByte t).
  - rewrite NamingProofs.append_cons. cbn [lastByte]. rewrite IH.
    now destruct (lastByte t).
Qed.

Lemma lastByte_all P s d : allBytes P s = true -> lastByte s = Some d -> P d = true.
Proof.
  induction s as [|c s IH]; cbn [allBytes lastByte]; [discriminate|].
  intros H. apply andb_true_iff in H as [Hc Hs].
  destruct (lastByte s) as [e|]; intros [= <-]; auto.
Qed.

(** ** The decimal numerals of the counter suffix *)

Lemma string_of_uint_digits u : allBytes digitByte (NilEmpty.string_of_uint u) = true.
Proof. induction u; cbn [NilEmpty.string_of_uint allBytes]; auto. Qed.

Lemma fmtInt_digits n :
  0 < n -> allBytes digitByte (fmtInt n) = true /\ fmtInt n <> "".
Proof.
  intros Hn. destruct n as [|p|p]; try lia. unfold fmtInt. cbn [Z.to_int NilEmpty.string_of_int].
  split; [apply string_of_uint_digits|].
  pose proof (DecimalPos.Unsigned.to_uint_nonnil p) as Hnil.
  destruct (Pos.to_uint p); try contradiction; discriminate.
Qed.

Lemma nameOf_digits s : allBytes digitByte s = true -> nameOf s = s.
Proof.
  induction s as [|c s IH]; [reflexivity|]. cbn [allBytes nameOf]. intros H.
  apply andb_true_iff in H as [Hc Hs]. rewrite (IH Hs).
  unfold digitByte in Hc. apply andb_true_iff in Hc as [H1 H2].
  apply Z.leb_le in H1, H2.
  destruct (Z.eqb_spec (code_of c) 36); [lia|]. destruct (Z.eqb_spec (code_of c) 43); [lia|].
  reflexivity.
Qed.

(** ** Reading an identifier back, piece by piece *)

Lemma nameOf_app :
  forall s,
    (forall t, nameOf (identWith "$" s ++ t) = s ++ nameOf t) /\
    forall c t, nameOf (identWith "$" (String c s) ++ t) = String c s ++ nameOf t.
Proof.
  induction s as [|d s [IH1 IH2]].
  - split; [reflexivity|]. intros c t. cbn [identWith].
    now rewrite UtilsProofs.nameOf_escape.
  - split; [apply IH2|]. intros c t. rewrite UtilsProofs.identWith_cons2.
    destruct (code_of c =? 194)%Z eqn:Ec, (code_of d =? 183)%Z eqn:Ed; cbn [andb];
      rewrite NamingProofs.append_assoc;
      try (now rewrite UtilsProofs.nameOf_escape, IH2).
    apply UtilsProofs.byte_194 in Ec. apply UtilsProofs.byte_183 in Ed. subst c d.
    now rewrite UtilsProofs.nameOf_midDot, IH1.
Qed.

Lemma identWith_app b r :
  code_of b <> 183 ->
  forall s,
    identWith "$" (s ++ String b r) = identWith "$" s ++ identWith "$" (String b r) /\
    forall c, identWith "$" (String c s ++ String b r)
              = identWith "$" (String c s) ++ identWith "$" (String b r).
Proof.
  intros Hb. induction s as [|d s [IH1 IH2]].
  - split; [reflexivity|]. intros c.
    rewrite NamingProofs.append_cons, NamingProofs.append_nil_l, UtilsProofs.identWith_cons2.
    destruct (Z.eqb_spec (code_of b) 183); [contradiction|].
    now rewrite andb_false_r.
  - split; [apply IH2|]. intros c.
    rewrite !NamingProofs.append_cons, !UtilsProofs.identWith_cons2.
    destruct ((code_of c =? 194) && (code_of d =? 183))%Z.
    + now rewrite IH1, NamingProofs.append_assoc.
    + rewrite <- NamingProofs.append_cons, IH2. now rewrite NamingProofs.append_assoc.
Qed.

Lemma escapeWith_dollar b t x :
  escapeWith "$" b ++ t = String "$" x -> shouldEscape b = true.
Proof. UtilsProofs.each_byte b; intros H; try discriminate H; reflexivity. Qed.

Lemma identWith_dollar b r x :
  identWith "$" (String b r) = String "$" x -> shouldEscape b = true.
Proof.
  destruct r as [|d r].
  - cbn [identWith]. rewrite <- (NamingProofs.append_nil_r (escapeWith "$" b)).
    apply escapeWith_dollar.
  - rewrite UtilsProofs.identWith_cons2.
    destruct ((code_of b =? 194) && (code_of d =? 183))%Z.
    + intros H. vm_compute in H. discriminate H.
    + apply escapeWith_dollar.
Qed.

(** When the identifier of [p] is the identifier of [p'] followed by a
    counter suffix, [p] is [p'] followed by one escaped byte, whose two
    hexadecimal digits are decimal, and by decimal digits. *)
Lemma numeric_extension p p' n :
  0 < n -> encodeIdent p = encodeIdent p' ++ "$" ++ fmtInt n ->
  exists b rest,
    p = p' ++ String b rest /\ allBytes digitByte rest = true /\
    shouldEscape b = true /\ code_of b < 160.
Proof.
  intros Hn H. rewrite !UtilsProofs.encodeIdent_identWith in H.
  destruct (fmtInt_digits n Hn) as [Hdig Hne].
  pose proof (f_equal nameOf H) as Hname.
  rewrite (proj1 (UtilsProofs.nameOf_identWith p)), (proj1 (nameOf_app p')) in Hname.
  destruct (fmtInt n) as [|h1 [|h2 ds]]; [contradiction| |].
  - cbn in Hname. rewrite NamingProofs.append_nil_r in Hname. subst p'.
    apply (f_equal String.length) in H. rewrite length_append in H.
    change (String.length ("$" ++ String h1 "")) with 2%nat in H. lia.
  - cbn [allBytes] in Hdig. apply andb_true_iff in Hdig as [H1 Hdig].
    apply andb_true_iff in Hdig as [H2 Hds].
    change ("$" ++ String h1 (String h2 ds)) with (String "$" (String h1 (String h2 ds)))
      in Hname.
    cbn [nameOf] in Hname. change (code_of "$" =? 36) with true in Hname. cbn iota in Hname.
    rewrite (nameOf_digits ds Hds) in Hname.
    set (b := byte_of (16 * hexValue h1 + hexValue h2)) in *.
    assert (Hb : 0 <= code_of b < 160).
    { unfold b, hexValue, digitByte in *.
      apply andb_true_iff in H1 as [H1a H1b]. apply andb_true_iff in H2 as [H2a H2b].
      apply Z.leb_le in H1a, H1b, H2a, H2b.
      destruct (Z.ltb_spec (code_of h1) 58), (Z.ltb_spec (code_of h2) 58); try lia.
      rewrite NamingProofs.code_of_byte_of; lia. }
    exists b, ds. split; [exact Hname|]. split; [exact Hds|]. split; [|lia].
    rewrite Hname in H. rewrite (proj1 (identWith_app b ds ltac:(lia) p')) in H.
    apply append_inv_head in H. now apply identWith_dollar in H.
Qed.

(** ** Identifiers *)

Lemma utf8Ident_app t :
  forall s k, utf8Ident k s = true -> utf8Ident k (s ++ t) = utf8Ident 0 t.
Proof.
  induction s as [|c s IH]; intros k H.
  - cbn [utf8Ident] in H. apply Nat.eqb_eq in H. now subst k.
  - rewrite NamingProofs.append_cons. cbn [utf8Ident] in *. destruct k as [|k].
    + destruct (code_of c <? 128).
      * apply andb_true_iff in H as [-> H]. now rewrite (IH _ H).
      * destruct ((194 <=? code_of c) && (code_of c <=? 223)); [now apply IH|].
        destruct ((224 <=? code_of c) && (code_of c <=? 239)); [now apply IH|].
        destruct ((240 <=? code_of c) && (code_of c <=? 244)); [now apply IH|].
        discriminate H.
    + apply andb_true_iff in H as [-> H]. now rewrite (IH _ H).
Qed.

Lemma utf8Ident_head b r :
  utf8Ident 0 (String b r) = true ->
  (isAlnum b || (code_of b =? 95)) = true \/ 194 <= code_of b.
Proof.
  cbn [utf8Ident]. destruct (code_of b <? 128).
  - intros H. apply andb_true_iff in H as [H _]. now left.
  - intros H. right.
    destruct (Z.leb_spec 194 (code_of b)); [assumption|]. cbn [andb] in H.
    destruct (Z.leb_spec 224 (code_of b)); [lia|]. cbn [andb] in H.
    destruct (Z.leb_spec 240 (code_of b)); [lia|]. discriminate H.
Qed.

Lemma plain_byte_unescaped b :
  (isAlnum b || (code_of b =? 95)) = true ->
  shouldEscape b = false /\ (code_of b =? 36) = false.
Proof. UtilsProofs.each_byte b; intros H; try discriminate H; split; reflexivity. Qed.

Lemma utf8Ident_no_dollar :
  forall s k, utf8Ident k s = true ->
    allBytes (fun c => negb (code_of c =? 36)) s = true.
Proof.
  induction s as [|c s IH]; intros k H; [reflexivity|].
  cbn [utf8Ident allBytes] in *. destruct k as [|k].
  - destruct (Z.ltb_spec (code_of c) 128).
    + apply andb_true_iff in H as [Hc H].
      destruct (plain_byte_unescaped c Hc) as [_ ->]. cbn [negb andb]. now apply (IH 0%nat).
    + destruct (Z.eqb_spec (code_of c) 36); [lia|]. cbn [negb andb].
      destruct ((194 <=? code_of c) && (code_of c <=? 223)); [now apply (IH 1%nat)|].
      destruct ((224 <=? code_of c) && (code_of c <=? 239)); [now apply (IH 2%nat)|].
      destruct ((240 <=? code_of c) && (code_of c <=? 244)); [now apply (IH 3%nat)|].
      discriminate H.
  - apply andb_true_iff in H as [Hc H]. apply andb_true_iff in Hc as [Hc _].
    apply Z.leb_le in Hc. destruct (Z.eqb_spec (code_of c) 36); [lia|].
    cbn [negb andb]. now apply (IH k).
Qed.

Lemma goIdentifier_utf8 p : goIdentifier p = true -> p <> "" /\ utf8Ident 0 p = true.
Proof.
  unfold goIdentifier. intros H. apply andb_true_iff in H as [H1 H2]. split; [|assumption].
  intros ->. discriminate H1.
Qed.

Lemma callerName_nonempty p : callerName p -> p <> "".
Proof.
  intros [H | (q & H & ->)].
  - now apply goIdentifier_utf8 in H.
  - destruct q; discriminate.
Qed.

(** No name of a caller is another one followed by an escaped byte and
    decimal digits. *)
Lemma callerName_no_extension p p' b rest :
  callerName p -> callerName p' ->
  p = p' ++ String b rest -> allBytes digitByte rest = true ->
  shouldEscape b = true -> code_of b < 160 -> False.
Proof.
  intros Hp Hp' E Hrest Hesc Hb.
  assert (Hlast : forall q, p <> q ++ "$ptr").
  { intros q Eq. pose proof (f_equal lastByte E) as Hl.
    rewrite Eq, !lastByte_append in Hl. cbn [lastByte] in Hl.
    destruct (lastByte rest) as [d|] eqn:Hd.
    - injection Hl as <-. apply (lastByte_all _ _ _ Hrest) in Hd. discriminate Hd.
    - injection Hl as <-. discriminate Hesc. }
  destruct Hp as [Hp | (q & _ & Eq)]; [|now apply (Hlast q)].
  apply goIdentifier_utf8 in Hp as [_ Hp]. rewrite E in Hp.
  destruct Hp' as [Hp' | (q' & _ & ->)].
  - apply goIdentifier_utf8 in Hp' as [_ Hp'].
    rewrite (utf8Ident_app _ _ _ Hp') in Hp. apply utf8Ident_head in Hp as [Hplain | Hlead].
    + apply plain_byte_unescaped in Hplain as [Hplain _]. congruence.
    + lia.
  - apply utf8Ident_no_dollar in Hp.
    rewrite !UtilsProofs.allBytes_app in Hp. cbn in Hp.
    rewrite andb_false_r in Hp. discriminate Hp.
Qed.

(** ** The names of the natural mode determine the request *)

Lemma split_at_last_dollar a b x y :
  allBytes digitByte x = true -> allBytes digitByte y = true ->
  a ++ "$" ++ x = b ++ "$" ++ y -> a = b /\ x = y.
Proof.
  intros Hx Hy. revert b. induction a as [|c a IH]; intros [|d b] H.
  - injection H as H. auto.
  - rewrite NamingProofs.append_nil_l, NamingProofs.append_cons in H. injection H as <- H.
    rewrite ?NamingProofs.append_nil_l in H. subst x. rewrite UtilsProofs.allBytes_app in Hx. cbn in Hx.
    rewrite andb_false_r in Hx. discriminate Hx.
  - rewrite NamingProofs.append_nil_l, NamingProofs.append_cons in H. injection H as -> H.
    rewrite ?NamingProofs.append_nil_l in H. subst y. rewrite UtilsProofs.allBytes_app in Hy. cbn in Hy.
    rewrite andb_false_r in Hy. discriminate Hy.
  - rewrite !NamingProofs.append_cons in H. injection H as -> H.
    destruct (IH b H) as [-> ->]. auto.
Qed.

Lemma suffixed_key_name p q n m :
  callerName p -> callerName q ->
  suffixed (encodeIdent p) n = suffixed (encodeIdent q) m -> p = q.
Proof.
  intros Hp Hq. unfold suffixed.
  destruct (Z.ltb_spec 0 n) as [Hn'|Hn'], (Z.ltb_spec 0 m) as [Hm'|Hm']; intros E.
  - apply split_at_last_dollar in E as [E1 E2];
      [| now apply fmtInt_digits | now apply fmtInt_digits].
    rewrite <- (UtilsProofs.nameOf_encodeIdent p), <- (UtilsProofs.nameOf_encodeIdent q).
    now rewrite E1.
  - symmetry in E. destruct (numeric_extension q p n Hn' E) as (b & rest & E' & H1 & H2 & H3).
    exfalso. exact (callerName_no_extension q p b rest Hq Hp E' H1 H2 H3).
  - destruct (numeric_extension p q m Hm' E) as (b & rest & E' & H1 & H2 & H3).
    exfalso. exact (callerName_no_extension p q b rest Hp Hq E' H1 H2 H3).
  - rewrite <- (UtilsProofs.nameOf_encodeIdent p), <- (UtilsProofs.nameOf_encodeIdent q).
    now rewrite E.
Qed.

Lemma suffixed_count k n m :
  0 <= n -> 0 <= m -> suffixed k n = suffixed k m -> n = m.
Proof.
  intros Hn Hm. unfold suffixed.
  destruct (Z.ltb_spec 0 n) as [Hn'|Hn'], (Z.ltb_spec 0 m) as [Hm'|Hm']; intros E.
  - apply append_inv_head in E. injection E as E. now apply UtilsProofs.fmtInt_inj.
  - apply (f_equal String.length) in E. rewrite length_append in E.
    change ("$" ++ fmtInt n) with (String "$" (fmtInt n)) in E. cbn [String.length] in E. lia.
  - apply (f_equal String.length) in E. rewrite length_append in E.
    change ("$" ++ fmtInt m) with (String "$" (fmtInt m)) in E. cbn [String.length] in E. lia.
  - lia.
Qed.

Lemma suffixed_key_inj p q n m :
  callerName p -> callerName q -> 0 <= n -> 0 <= m ->
  suffixed (encodeIdent p) n = suffixed (encodeIdent q) m -> p = q /\ n = m.
Proof.
  intros Hp Hq Hn Hm E. pose proof (suffixed_key_name p q n m Hp Hq E) as ->.
  split; [reflexivity|]. exact (suffixed_count _ n m Hn Hm E).
Qed.

(** ** One allocation *)

Lemma newVariable_natural_key pc fc p (b : bool) :
  minify pc = false -> p <> "" ->
  0 <= lookupVar (allVars fc) (encodeIdent p) < 2 ^ 63 - 1 ->
  exists fc',
    newVariable pc fc p b
    = Ok (suffixed (encodeIdent p) (lookupVar (allVars fc) (encodeIdent p)), fc') /\
    allVars fc'
    = <[encodeIdent p := lookupVar (allVars fc) (encodeIdent p) + 1]> (allVars fc) /\
    localVars fc'
    = (if b then localVars fc
       else localVars fc
            ++ [suffixed (encodeIdent p) (lookupVar (allVars fc) (encodeIdent p))])%list /\
    parent fc'
    = (if b then reserveUp (encodeIdent p) (lookupVar (allVars fc) (encodeIdent p) + 1)
                 <$> parent fc
       else parent fc).
Proof.
  intros Hmin Hp Hn. unfold newVariable.
  rewrite (NamingProofs.eqb_nonempty p Hp), Hmin.
  cbn [mbind res_bind bind].
  rewrite NamingProofs.int64_small
    by (split; [transitivity 0; [now vm_compute | lia] | lia]).
  destruct b; eexists; (split; [reflexivity|]); cbn [allVars localVars parent];
    repeat split; now destruct (parent fc).
Qed.

Lemma newVariable_natural_name pc a q (b : bool) v a' :
  minify pc = false -> newVariable pc a q b = Ok (v, a') ->
  v = suffixed (encodeIdent q) (lookupVar (allVars a) (encodeIdent q)).
Proof.
  intros Hmin. unfold newVariable. destruct (String.eqb q ""); [discriminate|].
  rewrite Hmin. cbn [mbind res_bind bind].
  destruct b; now intros [= <- _].
Qed.

Lemma newVariable_minified_step pc fc p (b : bool) v fc' :
  minify pc = true -> newVariable pc fc p b = Ok (v, fc') ->
  lookupVar (allVars fc) v = 0 /\ allVars fc' = <[v := 1]> (allVars fc).
Proof.
  intros Hmin. unfold newVariable. destruct (String.eqb p ""); [discriminate|].
  rewrite Hmin. destruct (minifiedSearch _ _ _ _) as [name| | | |] eqn:Hs; try discriminate.
  cbn [mbind res_bind bind]. apply UtilsProofs.minifiedSearch_free in Hs. rewrite Hs.
  change (int64 (0 + 1)) with 1. cbn [Z.ltb Z.compare].
  destruct b; intros [= <- <-]; cbn [allVars]; split; auto.
Qed.

(** ** A run of allocations in one scope *)

Lemma allocate_natural_run (pc : pkgContext) (reqs : list (string * bool)) :
  minify pc = false ->
  Forall (fun r => callerName (fst r)) reqs ->
  forall (fc : funcContext) (B : Z),
    countsBelow B (allVars fc) -> 1 <= B -> B + Z.of_nat (length reqs) < 2 ^ 63 ->
    exists names fc',
      allocate pc fc reqs = Ok (names, fc') /\
      NoDup names /\
      answers fc reqs names /\
      localVars fc' = (localVars fc ++ localNames reqs names)%list.
Proof.
  intros Hmin Hreqs. unfold answers.
  induction Hreqs as [|[p b] reqs Hcaller Hreqs IH]; intros fc B Hm HB Hlen.
  - exists [], fc. split; [reflexivity|]. split; [constructor|]. split; [constructor|].
    now rewrite app_nil_r.
  - cbn [fst] in *. cbn [length] in Hlen.
    set (k := encodeIdent p).
    pose proof (UtilsProofs.lookupVar_below B (allVars fc) k Hm HB) as Hn.
    destruct (newVariable_natural_key pc fc p b Hmin (callerName_nonempty p Hcaller))
      as (fc1 & Hnew & Hvars & Hloc & _); [fold k; lia|]. fold k in Hnew, Hvars, Hloc.
    destruct (IH fc1 (B + 1)) as (names & fc' & Halloc & Hnodup & Hshape & Hloc');
      [rewrite Hvars; apply UtilsProofs.countsBelow_insert; [assumption | lia] | lia | lia |].
    exists (suffixed k (lookupVar (allVars fc) k) :: names), fc'.
    cbn [allocate]. rewrite Hnew. cbn [mbind res_bind bind]. rewrite Halloc.
    cbn [mbind res_bind bind]. split; [reflexivity|].
    split; [|split].
    + constructor; [|assumption]. intros Hin.
      apply list_elem_of_lookup in Hin as [i Hi].
      destruct (Forall2_lookup_r _ _ _ _ _ Hshape Hi) as ([q c] & Hq & n & Hn0 & Hle & E).
      cbn [fst] in *. rewrite Hvars, UtilsProofs.lookupVar_insert in Hle.
      assert (Hqc : callerName q).
      { apply (Forall_lookup_1 _ _ _ _ Hreqs) in Hq. exact Hq. }
      apply suffixed_key_inj in E as [-> E]; try assumption; [|lia].
      fold k in Hle. destruct (decide (k = k)); [lia | contradiction].
    + constructor.
      * exists (lookupVar (allVars fc) k). cbn [fst]. fold k. repeat split; lia.
      * eapply Forall2_impl; [exact Hshape|]. intros [q c] v (n & Hn0 & Hle & ->). exists n.
        split; [assumption|]. split; [|reflexivity].
        rewrite Hvars, UtilsProofs.lookupVar_insert in Hle. cbn [fst] in *.
        destruct (decide (k = encodeIdent q)) as [<-|_]; lia.
    + rewrite Hloc', Hloc. unfold localNames. cbn [zip zip_with omap fst snd].
      destruct b; cbn [fst snd]; [reflexivity|]. now rewrite <- app_assoc.
Qed.

Lemma allocate_minified_avoids pc v :
  minify pc = true ->
  forall reqs a names a',
    lookupVar (allVars a) v <> 0 ->
    allocate pc a reqs = Ok (names, a') -> v ∉ names.
Proof.
  intros Hmin. induction reqs as [|[q b] reqs IH]; intros a names a' Hv H.
  - injection H as <- _. apply not_elem_of_nil.
  - cbn [allocate] in H.
    destruct (newVariable pc a q b) as [[v1 a1]| | | |] eqn:Hnew; try discriminate H.
    cbn [mbind res_bind bind] in H.
    destruct (allocate pc a1 reqs) as [[vs a2]| | | |] eqn:Hrest; try discriminate H.
    cbn [mbind res_bind bind] in H. injection H as <- _.
    destruct (newVariable_minified_step pc a q b v1 a1 Hmin Hnew) as [Hfree Hvars].
    apply not_elem_of_cons. split; [congruence|].
    apply (IH a1 vs a2); [|assumption].
    rewrite Hvars, UtilsProofs.lookupVar_insert. destruct (decide (v1 = v)); [lia | assumption].
Qed.

(** ** The names of one scope are pairwise distinct *)



(** ** Package-level names and the enclosing contexts *)

(** A package-level name is reserved in the enclosing contexts: after
    [newVariable] has returned the name [v] for a package-level request in
    the context [fc], no run of allocations made in an ancestor of [fc], in
    the state the call left it in, returns [v] again.  In natural mode this
    is for names as the callers propose them (identifiers, also followed by
    [$ptr]) and for counts that are not negative and far enough from the
    largest [int]; in minified mode it holds for all requests.  A later
    reservation from another nested context overwrites the count of the
    ancestor and is not covered. *)
Theorem package_level_name_reserved (pc : pkgContext) (fc fc' : funcContext) (p v : string) :
  newVariable pc fc p true = Ok (v, fc') ->
  (minify pc = false ->
   callerName p /\ 0 <= lookupVar (allVars fc) (encodeIdent p) < 2 ^ 63 - 1) ->
  forall a, a ∈ ancestors fc' ->
  forall (reqs : list (string * bool)) (names : list string) (a' : funcContext) (B : Z),
    (minify pc = false ->
     Forall (fun r => callerName (fst r)) reqs /\
     countsBelow B (allVars a) /\ B + Z.of_nat (length reqs) < 2 ^ 63) ->
    allocate pc a reqs = Ok (names, a') ->
    v ∉ names.
Proof.
  intros Hnew Hnat a Ha reqs names a' B Hreqs Hrun.
  destruct (minify pc) eqn:Hmin.
  - destruct (UtilsProofs.newVariable_minified_inv pc fc p true v fc' Hmin Hnew) as [_ Hparent].
    apply (allocate_minified_avoids pc v Hmin reqs a names a'); [|assumption].
    unfold ancestors in Ha. destruct fc' as [vars loc nms inst par].
    cbn [parent] in *. subst par. destruct (parent fc) as [p0|]; cbn in Ha;
      [|now apply elem_of_nil in Ha].
    pose proof (UtilsProofs.reserveUp_chain v 1 p0) as Hchain.
    apply (proj1 (Forall_forall _ _) Hchain) in Ha.
    unfold lookupVar. rewrite Ha. discriminate.
  - destruct (Hnat eq_refl) as (Hp & Hn). destruct (Hreqs eq_refl) as (Hcallers & Hm & Hlen).
    set (k := encodeIdent p) in *. set (n := lookupVar (allVars fc) k) in *.
    destruct (newVariable_natural_key pc fc p true Hmin (callerName_nonempty p Hp) Hn)
      as (fc1 & Hnew1 & _ & _ & Hparent).
    rewrite Hnew in Hnew1. injection Hnew1 as -> <-.
    assert (Hcount : lookupVar (allVars a) k = n + 1).
    { destruct fc' as [vars loc nms inst par]. cbn [parent] in *. subst par.
      destruct (parent fc) as [p0|]; cbn in Ha; [|now apply elem_of_nil in Ha].
      pose proof (UtilsProofs.reserveUp_chain k (n + 1) p0) as Hchain.
      apply (proj1 (Forall_forall _ _) Hchain) in Ha.
      unfold lookupVar. now rewrite Ha. }
    assert (HB : 1 <= B).
    { unfold lookupVar in Hcount. destruct (allVars a !! k) as [c|] eqn:Hk; cbn in Hcount.
      - specialize (Hm k c Hk). cbn in Hm. lia.
      - lia. }
    destruct (allocate_natural_run pc reqs Hmin Hcallers a B Hm HB Hlen)
      as (names0 & a0 & Hrun0 & _ & Hshape & _).
    unfold answers in Hshape. rewrite Hrun in Hrun0. injection Hrun0 as <- _.
    intros Hin. apply list_elem_of_lookup in Hin as [i Hi].
    destruct (Forall2_lookup_r _ _ _ _ _ Hshape Hi) as ([q c] & Hq & m & Hm0 & Hle & E).
    cbn [fst] in *.
    assert (Hqc : callerName q).
    { apply (Forall_lookup_1 _ _ _ _ Hcallers) in Hq. exact Hq. }
    subst n k.
    apply suffixed_key_inj in E as [-> E]; try assumption; lia.
Qed.

Lemma package_level_name_reserved_witness :
  exists v fc',
    newVariable pcNatural nestedScope "x" true = Ok (v, fc') /\
    forall a, a ∈ ancestors fc' ->
    forall names a',
      allocate pcNatural a [("y", false); ("x", false); ("x", true)] = Ok (names, a') ->
      v ∉ names.
Proof.
  eexists. eexists. split; [vm_compute; reflexivity|].
  intros a Ha names a' Hrun.
  refine (package_level_name_reserved pcNatural nestedScope _ "x" _ _ _
            a Ha [("y", false); ("x", false); ("x", true)] names a' 2 _ Hrun).
  - vm_compute. reflexivity.
  - intros _. split; [now left|]. vm_compute. split; [discriminate | reflexivity].
  - intros _. split; [|split; [|vm_compute; reflexivity]].
    + apply Forall_cons_2; [now left|]. apply Forall_cons_2; [now left|].
      apply Forall_cons_2; [now left|]. apply Forall_nil_2.
    + cbn in Ha. apply list_elem_of_singleton in Ha. subst a.
      match goal with
      | |- countsBelow 2 ?m =>
          assert (E : m = <["x" := 1]> (∅ : gmap string Z)) by (vm_compute; reflexivity);
          rewrite E
      end.
      apply map_Forall_insert_2; [lia | apply map_Forall_empty].
Defined.

(** ** The variables of imported packages *)

(** [importedPkgVar] gives every imported package one variable: (1) a second
    call for the same path returns the variable of the first call and
    changes nothing, whatever package name it is given; (2) the variables of
    two packages with different paths, registered one after the other, are
    different, also when the two packages have the same name.  Package names
    are identifiers (well-formed UTF-8 whose ASCII bytes are letters, digits
    and underscores); in natural mode the count of the first name is not
    negative and not within two of the largest [int]. *)
Theorem importedPkgVar_one_variable_per_path
    (pc pc1 : pkgContext) (fc fc1 : funcContext) (path name v : string) :
  importedPkgVar pc fc path name = Ok (v, fc1, pc1) ->
  (forall name', importedPkgVar pc1 fc1 path name' = Ok (v, fc1, pc1)) /\
  (forall path2 name2 v2 fc2 pc2,
      pkgVars pc !! path = None ->
      path2 <> path ->
      pkgVars pc !! path2 = None ->
      goIdentifier name = true -> goIdentifier name2 = true ->
      (minify pc = false ->
       0 <= lookupVar (allVars fc) (encodeIdent name) < 2 ^ 63 - 2) ->
      importedPkgVar pc1 fc1 path2 name2 = Ok (v2, fc2, pc2) ->
      v2 <> v).
Proof.
  intros H. unfold importedPkgVar in H.
  destruct (pkgVars pc !! path) as [known|] eqn:Hknown.
  - injection H as <- <- <-. split.
    + intros name'. unfold importedPkgVar. now rewrite Hknown.
    + intros path2 name2 v2 fc2 pc2 Hnone. discriminate Hnone.
  - destruct (newVariable pc fc name true) as [[v0 fc0]| | | |] eqn:Hnew; try discriminate.
    cbn [mbind res_bind bind] in H. injection H as <- <- <-. split.
    + intros name'. unfold importedPkgVar. cbn [pkgVars]. now rewrite lookup_insert_eq.
    + intros path2 name2 v2 fc2 pc2 _ Hne Hnone2 Hid1 Hid2 Hnat H2.
      unfold importedPkgVar in H2. cbn [pkgVars minify Pkg escapingVars dceDeps] in H2.
      rewrite lookup_insert_ne, Hnone2 in H2 by congruence.
      set (pc' := {| minify := minify pc; Pkg := Pkg pc;
                     pkgVars := <[path := v0]> (pkgVars pc);
                     escapingVars := escapingVars pc; dceDeps := dceDeps pc |}) in *.
      destruct (newVariable pc' fc0 name2 true) as [[w fc3]| | | |] eqn:Hnew2; try discriminate.
      cbn [mbind res_bind bind] in H2. injection H2 as <- _ _.
      destruct (minify pc) eqn:Hmin.
      * destruct (UtilsProofs.newVariable_minified_table pc fc name true v0 fc0 Hmin Hnew)
          as [_ Hone].
        destruct (UtilsProofs.newVariable_minified_table pc' fc0 name2 true w fc3 eq_refl Hnew2)
          as [Hzero _].
        intros ->. rewrite Hone in Hzero. discriminate Hzero.
      * specialize (Hnat eq_refl).
        assert (Hc1 : callerName name) by now left.
        assert (Hc2 : callerName name2) by now left.
        destruct (newVariable_natural_key pc fc name true Hmin (callerName_nonempty _ Hc1))
          as (fc0' & Hnew' & Hvars & _); [lia|].
        rewrite Hnew in Hnew'. injection Hnew' as -> <-.
        rewrite (newVariable_natural_name pc' fc0 name2 true w fc3 eq_refl Hnew2).
        intros E. pose proof (suffixed_key_name _ _ _ _ Hc2 Hc1 E) as ->.
        rewrite Hvars, UtilsProofs.lookupVar_insert in E.
        destruct (decide (encodeIdent name = encodeIdent name)); [|contradiction].
        apply suffixed_count in E; lia.
Qed.

Lemma importedPkgVar_one_variable_per_path_witness :
  exists v fc1 pc1,
    importedPkgVar pcNatural freshScope "math/rand" "rand" = Ok (v, fc1, pc1) /\
    importedPkgVar pc1 fc1 "math/rand" "other" = Ok (v, fc1, pc1) /\
    forall v2 fc2 pc2,
      importedPkgVar pc1 fc1 "crypto/rand" "rand" = Ok (v2, fc2, pc2) -> v2 <> v.
Proof.
  eexists. eexists. eexists.
  assert (H : importedPkgVar pcNatural freshScope "math/rand" "rand"
              = Ok ("rand",
                    {| allVars := {["rand" := 1]}; localVars := []; objectNames := ∅;
                       instance := noInstance; parent := None |},
                    {| minify := false; Pkg := 0%nat; pkgVars := {["math/rand" := "rand"]};
                       escapingVars := ∅; dceDeps := [] |})) by (vm_compute; reflexivity).
  destruct (importedPkgVar_one_variable_per_path _ _ _ _ _ _ _ H) as [Hsame Hother].
  split; [exact H|]. split; [apply Hsame|].
  intros v2 fc2 pc2 H2. apply (Hother "crypto/rand" "rand" v2 fc2 pc2); try reflexivity;
    try discriminate; [|exact H2].
  intros _. vm_compute. split; [discriminate | reflexivity].
Defined.

End NamesProofs.

(** * Part IX: further properties of the value bridge *)

Module BridgeMoreProofs.
Import Bridge BridgeMore BridgeProofs.
Local Open Scope Z_scope.

(** ** Integers written in decimal and parsed back *)

Lemma uintDigits_range u : Forall decimalDigit (uintDigits u).
Proof. induction u; cbn [uintDigits]; constructor; try assumption; unfold decimalDigit; lia. Qed.

Lemma of_uint_acc_value u :
  forall acc, Zpos (Pos.of_uint_acc u acc) = digitsFrom (Zpos acc) (uintDigits u).
Proof.
  unfold digitsFrom.
  induction u; intros acc; cbn [Pos.of_uint_acc uintDigits fold_left];
    try reflexivity; rewrite IHu; f_equal; lia.
Qed.

Lemma of_uint_value u : Z.of_N (Pos.of_uint u) = digitsFrom 0 (uintDigits u).
Proof.
  unfold digitsFrom.
  induction u; cbn [Pos.of_uint uintDigits fold_left]; try reflexivity; try exact IHu;
    cbn [Z.of_N]; rewrite of_uint_acc_value; reflexivity.
Qed.

Lemma digitsOf_value p : digitsFrom 0 (digitsOf (Zpos p)) = Zpos p.
Proof.
  cbn [digitsOf]. rewrite <- of_uint_value, DecimalPos.Unsigned.of_to. reflexivity.
Qed.

(** The first digit of a positive number is not 0. *)
Lemma to_uint_head p :
  exists d ds, digitsOf (Zpos p) = d :: ds /\ 1 <= d <= 9.
Proof.
  cbn [digitsOf].
  assert (Hnorm : Decimal.unorm (Pos.to_uint p) = Pos.to_uint p).
  { rewrite <- DecimalPos.Unsigned.to_of, DecimalPos.Unsigned.of_to. reflexivity. }
  pose proof (DecimalPos.Unsigned.to_uint_nonzero p) as Hnz.
  destruct (Pos.to_uint p) as [|u|u|u|u|u|u|u|u|u|u] eqn:E;
    try (eexists; eexists; split; [reflexivity | lia]).
  - discriminate Hnorm.
  - exfalso. unfold Decimal.unorm in Hnorm. cbn [Decimal.nzhead] in Hnorm.
    pose proof (DecimalFacts.nb_digits_nzhead u) as Hle.
    destruct (Decimal.nzhead u) eqn:En.
    + injection Hnorm as <-. now apply Hnz.
    + rewrite Hnorm in Hle. cbn [Decimal.nb_digits] in Hle. lia.
    + rewrite Hnorm in Hle. cbn [Decimal.nb_digits] in Hle. lia.
    + discriminate Hnorm.
    + discriminate Hnorm.
    + discriminate Hnorm.
    + discriminate Hnorm.
    + discriminate Hnorm.
    + discriminate Hnorm.
    + discriminate Hnorm.
    + discriminate Hnorm.
Qed.

Lemma digitsFrom_ge ds :
  Forall decimalDigit ds ->
  forall a, 0 <= a -> a * 10 ^ Z.of_nat (length ds) <= digitsFrom a ds.
Proof.
  unfold digitsFrom.
  induction 1 as [|d ds Hd _ IH]; intros a Ha; cbn [fold_left length].
  - cbn. lia.
  - unfold decimalDigit in Hd. specialize (IH (a * 10 + d) ltac:(lia)).
    rewrite Nat2Z.inj_succ, Z.pow_succ_r by lia. nia.
Qed.

Lemma digitsOf_length p : Zpos p < 10 ^ 21 -> (length (digitsOf (Zpos p)) <= 21)%nat.
Proof.
  intros Hp. destruct (to_uint_head p) as (d & ds & E & Hd).
  pose proof (digitsOf_value p) as Hv. pose proof (uintDigits_range (Pos.to_uint p)) as Hr.
  cbn [digitsOf] in *. rewrite E in *. apply Forall_cons in Hr as [_ Hr].
  unfold digitsFrom in Hv. cbn [fold_left] in Hv. cbn [length].
  pose proof (digitsFrom_ge ds Hr (0 * 10 + d) ltac:(lia)) as Hge.
  unfold digitsFrom in Hge. rewrite Hv in Hge.
  destruct (Nat.le_gt_cases (length ds) 20) as [Hle|Hgt]; [lia|].
  exfalso. assert (10 ^ 21 <= 10 ^ Z.of_nat (length ds)) by (apply Z.pow_le_mono_r; lia).
  nia.
Qed.

Lemma dropTrailingZeros_restores ds :
  (length (dropTrailingZeros ds) <= length ds)%nat /\
  dropTrailingZeros ds ++ repeat 0 (length ds - length (dropTrailingZeros ds)) = ds.
Proof.
  induction ds as [|d ds [IHl IH]]; [split; reflexivity|].
  cbn [dropTrailingZeros]. destruct (dropTrailingZeros ds) as [|x r] eqn:E.
  - cbn [length app] in *. rewrite Nat.sub_0_r in IH.
    destruct (Z.eqb_spec d 0) as [->|Hd]; cbn [length app].
    + split; [lia|]. cbn [Nat.sub repeat]. now rewrite IH.
    + split; [lia|]. cbn [Nat.sub]. rewrite Nat.sub_0_r. now rewrite IH.
  - cbn [length app] in *. split; [lia|]. f_equal. exact IH.
Qed.

Lemma digitChars_app a b : digitChars (a ++ b) = digitChars a ++ digitChars b.
Proof. unfold digitChars. apply map_app. Qed.

Lemma digitChars_zeros n : digitChars (repeat 0 n) = repeat 48 n.
Proof. induction n as [|n IH]; [reflexivity|]. cbn. f_equal. exact IH. Qed.

(** The decimal form of an integer below 10^21 is its digits, after a minus
    sign for a negative one. *)
Lemma numberToString_pos p :
  Zpos p < 10 ^ 21 -> numberToString (Fin (Zpos p) 0) = digitChars (digitsOf (Zpos p)).
Proof.
  intros Hp. pose proof (digitsOf_length p Hp) as Hlen.
  destruct (dropTrailingZeros_restores (digitsOf (Zpos p))) as [Hk Hall].
  unfold numberToString. change (Z.abs (Zpos p)) with (Zpos p).
  cbn [Z.eqb Z.ltb Z.compare app]. rewrite Z.sub_0_r.
  replace ((Z.of_nat (length (dropTrailingZeros (digitsOf (Zpos p))))
            <=? Z.of_nat (length (digitsOf (Zpos p))))
           && (Z.of_nat (length (digitsOf (Zpos p))) <=? 21)) with true
    by (symmetry; apply andb_true_iff; split; apply Z.leb_le; lia).
  rewrite <- digitChars_zeros, <- digitChars_app. f_equal.
  etransitivity; [|exact Hall]. f_equal. f_equal. lia.
Qed.

Lemma numberToString_neg p :
  Zpos p < 10 ^ 21 -> numberToString (Fin (Zneg p) 0) = 45 :: digitChars (digitsOf (Zpos p)).
Proof.
  intros Hp. pose proof (digitsOf_length p Hp) as Hlen.
  destruct (dropTrailingZeros_restores (digitsOf (Zpos p))) as [Hk Hall].
  unfold numberToString. change (Z.abs (Zneg p)) with (Zpos p).
  cbn [Z.eqb Z.ltb Z.compare app]. rewrite Z.sub_0_r.
  replace ((Z.of_nat (length (dropTrailingZeros (digitsOf (Zpos p))))
            <=? Z.of_nat (length (digitsOf (Zpos p))))
           && (Z.of_nat (length (digitsOf (Zpos p))) <=? 21)) with true
    by (symmetry; apply andb_true_iff; split; apply Z.leb_le; lia).
  change (str "-") with [45]. cbn [app]. f_equal.
  rewrite <- digitChars_zeros, <- digitChars_app. f_equal.
  etransitivity; [|exact Hall]. f_equal. f_equal. lia.
Qed.

Ltac digit_cases d :=
  let H := fresh in
  assert (H : d = 0 \/ d = 1 \/ d = 2 \/ d = 3 \/ d = 4 \/ d = 5 \/ d = 6 \/ d = 7
              \/ d = 8 \/ d = 9) by (unfold decimalDigit in *; lia);
  repeat (destruct H as [H|H]; [subst d|]); [.. | subst d].

Lemma digitValue_digit d : decimalDigit d -> digitValue 10 (48 + d) = Some d.
Proof. intros Hd. digit_cases d; reflexivity. Qed.

Lemma readDigits_digits ds :
  Forall decimalDigit ds ->
  forall a, readDigits 10 (Some a) (digitChars ds) = Some (digitsFrom a ds).
Proof.
  induction 1 as [|d ds Hd _ IH]; intros a; [reflexivity|].
  cbn [digitChars map readDigits]. rewrite (digitValue_digit d Hd). cbn [default].
  apply IH.
Qed.

Lemma parseIntString_head d X :
  1 <= d <= 9 ->
  parseIntString (48 + d :: X)
  = match readDigits 10 None (48 + d :: X) with
    | None => NaN
    | Some m => roundInt m
    end /\
  parseIntString (45 :: 48 + d :: X)
  = match readDigits 10 None (48 + d :: X) with
    | None => NaN
    | Some m => roundInt (- m)
    end.
Proof. intros Hd. assert (decimalDigit d) by (unfold decimalDigit; lia). digit_cases d; try lia; split; reflexivity. Qed.

Lemma roundInt_small z : Z.abs z < 2 ^ 53 -> roundInt z = Fin z 0.
Proof. intros Hz. unfold roundInt. now destruct (Z.ltb_spec (Z.abs z) (2 ^ 53)); [|lia]. Qed.

Lemma readDigits_number p :
  readDigits 10 None (digitChars (digitsOf (Zpos p))) = Some (Zpos p) /\
  exists d X, digitChars (digitsOf (Zpos p)) = 48 + d :: X /\ 1 <= d <= 9.
Proof.
  destruct (to_uint_head p) as (d & ds & E & Hd).
  pose proof (digitsOf_value p) as Hv. pose proof (uintDigits_range (Pos.to_uint p)) as Hr.
  cbn [digitsOf] in *. rewrite E in *. apply Forall_cons in Hr as [Hd' Hr]. split.
  - cbn [digitChars map readDigits]. rewrite (digitValue_digit d Hd'). cbn [default].
    fold (digitChars ds). rewrite readDigits_digits by assumption. f_equal. exact Hv.
  - exists d, (digitChars ds). split; [reflexivity | assumption].
Qed.

(** An integer that a Number holds exactly is written in decimal and parsed
    back by [parseInt] to itself. *)
Lemma parseInt_numberToString z :
  Z.abs z < 2 ^ 53 -> parseIntString (numberToString (Fin z 0)) = Fin z 0.
Proof.
  intros Hz. assert (H21 : 2 ^ 53 < 10 ^ 21) by reflexivity.
  destruct z as [|p|p].
  - reflexivity.
  - rewrite numberToString_pos by lia.
    destruct (readDigits_number p) as (Hread & d & X & E & Hd).
    rewrite E in *. rewrite (proj1 (parseIntString_head d X Hd)), Hread.
    now apply roundInt_small.
  - rewrite numberToString_neg by lia.
    destruct (readDigits_number p) as (Hread & d & X & E & Hd).
    rewrite E in *. rewrite (proj2 (parseIntString_head d X Hd)), Hread.
    now apply roundInt_small.
Qed.

(** ** Integers through the bridge *)

Lemma wrap_in_range k lo hi f z :
  intRange k = Some (lo, hi) -> bitRule k = Some f -> lo <= z <= hi -> f z = z.
Proof.
  intros Hr Hf Hz.
  destruct k; try discriminate; injection Hr as <- <-; injection Hf as <-;
    unfold wrapS, wrapU;
    repeat match goal with
           | |- context [2 ^ ?n] => let v := eval cbv in (2 ^ n) in change (2 ^ n) with v
           end;
    try match goal with |- context [?a <? ?b] => destruct (Z.ltb_spec a b) end;
    Z.div_mod_to_equations; lia.
Qed.

Lemma intRange_small k lo hi z :
  intRange k = Some (lo, hi) -> lo <= z <= hi -> Z.abs z < 2 ^ 53.
Proof.
  intros Hr Hz. change (2 ^ 53) with 9007199254740992.
  destruct k; try discriminate; injection Hr as <- <-; lia.
Qed.

Lemma intRange_rule k lo hi :
  intRange k = Some (lo, hi) ->
  (exists f, bitRule k = Some f) \/ k = kindInt \/ k = kindUint.
Proof.
  destruct k; try discriminate; intros _;
    first [ left; eexists; reflexivity | right; left; reflexivity | right; right; reflexivity ].
Qed.

(** An integer in the range of its kind (int8 to uint32, int, uint, uintptr)
    is handed to the host as it is and read back from the host as the same
    integer. *)
Theorem integer_round_trip (rt : runtime) (t : tid) (lo hi z : Z) (fuel : nat)
    (recv mk : jsval) (seen : option seenMap) (h : heap) :
  intRange (kind (ty rt t)) = Some (lo, hi) ->
  lo <= z <= hi ->
  reachesSwitch rt h (JNum (ofInt z)) t seen ->
  externalize rt (S fuel) (JNum (ofInt z)) t mk h = Ok (JNum (ofInt z), h) /\
  internalize rt (S fuel) (JNum (ofInt z)) t recv seen mk h
  = Ok (JNum (ofInt z), default [] seen, h).
Proof.
  intros Hr Hz Hreach. split.
  - rewrite externalize_S. unfold externalize_body.
    destruct (Nat.eqb t (jsObjectPtr rt)); [reflexivity|].
    destruct (kind (ty rt t)); try discriminate; reflexivity.
  - assert (Hparse : parseInt h (JNum (ofInt z)) = Ok (ofInt z)).
    { unfold parseInt, toString, ofInt. cbn [mbind res_bind bind].
      f_equal. apply parseInt_numberToString. eapply intRange_small; eassumption. }
    destruct (intRange_rule _ _ _ Hr) as [[f Hf] | Hk].
    + rewrite (internalize_bit_rule rt t f fuel _ recv mk seen h Hf Hreach), Hparse.
      cbn [mbind res_bind bind]. unfold ofInt. cbn [integerPart].
      rewrite truncate_0. now rewrite (wrap_in_range _ _ _ _ _ Hr Hf Hz).
    + rewrite (internalize_int_unwrapped rt t fuel _ recv mk seen h Hk Hreach), Hparse.
      reflexivity.
Qed.

Lemma integer_round_trip_witness :
  externalize sampleRuntime 1 (JNum (ofInt (-128))) tInt8 JUndefined []
  = Ok (JNum (ofInt (-128)), []) /\
  internalize sampleRuntime 1 (JNum (ofInt (-128))) tInt8 JUndefined None JUndefined []
  = Ok (JNum (ofInt (-128)), [], []).
Proof.
  refine (integer_round_trip sampleRuntime tInt8 (-128) 127 (-128) 0 JUndefined JUndefined
            None [] eq_refl _ _).
  - lia.
  - apply reachesSwitch_sample_number; discriminate.
Defined.

(** ** Values that cross unchanged *)

(** When [$needsExternalization] answers no for a descriptor, [$externalize]
    with that descriptor returns the value itself and leaves the heap as it
    is, for every value and wrapper factory. *)
Theorem externalize_identity_when_not_needed (rt : runtime) (t : tid) (v mk : jsval)
    (fuel : nat) (h : heap) :
  needsExternalization rt t = false ->
  externalize rt (S fuel) v t mk h = Ok (v, h).
Proof.
  intros Hn. rewrite externalize_S. unfold externalize_body.
  unfold needsExternalization in Hn.
  destruct (Nat.eqb t (jsObjectPtr rt)); [reflexivity|].
  destruct (kind (ty rt t)); try discriminate Hn; reflexivity.
Qed.

Lemma externalize_identity_when_not_needed_witness :
  externalize sampleRuntime 1 (JNum (Fin 35 1)) tFloat64 JUndefined []
  = Ok (JNum (Fin 35 1), []).
Proof.
  apply (externalize_identity_when_not_needed sampleRuntime tFloat64). reflexivity.
Defined.

(** ** Booleans *)

(** For a host value that carries no back reference to a compiled value,
    internalizing into a bool descriptor gives the truthiness of the value
    (the host string false is true); a compiled boolean goes to the host as
    it is and comes back as itself.  The call gets as far as the switch:
    the descriptor is none of the handle pointer type, its element type and
    time.Time, and the seen-set has no entry for it and the value. *)
Theorem bool_truthiness (rt : runtime) (t : tid) (v recv mk : jsval) (b : bool)
    (seen : option seenMap) (fuel : nat) (h : heap) :
  kind (ty rt t) = kindBool ->
  reachesSwitch rt h v t seen ->
  internalize rt (S fuel) v t recv seen mk h = Ok (JBool (truthy v), default [] seen, h) /\
  externalize rt (S fuel) (JBool b) t mk h = Ok (JBool b, h) /\
  (v = JBool b -> internalize rt (S fuel) v t recv seen mk h
                  = Ok (JBool b, default [] seen, h)).
Proof.
  intros Hk Hreach.
  assert (Hin : internalize rt (S fuel) v t recv seen mk h
                = Ok (JBool (truthy v), default [] seen, h)).
  { rewrite internalize_reaches_switch by assumption.
    unfold internalize_switch. now rewrite Hk. }
  split; [exact Hin|]. split.
  - rewrite externalize_S. unfold externalize_body.
    destruct (Nat.eqb t (jsObjectPtr rt)); [reflexivity|]. now rewrite Hk.
  - intros ->. exact Hin.
Qed.

Lemma bool_truthiness_witness :
  internalize sampleRuntime 1 (JStr (str "false")) tBool JUndefined None JUndefined []
  = Ok (JBool true, [], []).
Proof.
  refine (proj1 (bool_truthiness sampleRuntime tBool (JStr (str "false")) JUndefined
                   JUndefined true None 0 [] eq_refl _)).
  repeat split; first [discriminate | apply internalObject_string].
Defined.

(** ** Nil values *)

(** For a slice type, a pointer type whose element is no struct and an
    interface type without methods, the nil value is handed to the host as
    null, and null is read back as the nil value. *)
Theorem nil_round_trip (rt : runtime) (t : tid) (recv mk : jsval)
    (seen : option seenMap) (fuel : nat) (h : heap) :
  nilable rt t = true ->
  reachesSwitch rt h JNull t seen ->
  externalize rt (S fuel) (zero rt t) t mk h = Ok (JNull, h) /\
  internalize rt (S fuel) JNull t recv seen mk h = Ok (zero rt t, default [] seen, h).
Proof.
  intros Hn Hreach. pose proof Hreach as (Hp & _).
  rewrite internalize_reaches_switch by assumption.
  rewrite externalize_S. unfold externalize_body, internalize_switch, zero, nilable in *.
  rewrite (eqb_ne _ _ Hp).
  destruct (kind (ty rt t)) eqn:Hk; try discriminate Hn.
  - apply bool_decide_eq_true in Hn. rewrite Hn.
    rewrite decide_True by reflexivity. split; reflexivity.
  - apply negb_true_iff in Hn. rewrite Hn.
    rewrite decide_True by reflexivity.
    rewrite bool_decide_eq_true_2 by reflexivity. split; reflexivity.
  - rewrite bool_decide_eq_false_2 by discriminate. split; reflexivity.
Qed.

Lemma nil_round_trip_witness :
  externalize moreRuntime 1 (JNil tIntPtr) tIntPtr JUndefined [] = Ok (JNull, []) /\
  internalize moreRuntime 1 JNull tIntPtr JUndefined None JUndefined []
  = Ok (JNil tIntPtr, [], []).
Proof.
  refine (nil_round_trip moreRuntime tIntPtr JUndefined JUndefined None 0 [] eq_refl _).
  repeat split; discriminate.
Defined.

(** ** Arrays *)

(** Internalizing into an array type, on a call without seen-set, is a fatal
    runtime error for null, for undefined, and for a host array that carries
    no back reference to a compiled value and whose length differs from the
    length of the array type.  The array type is none of the handle pointer
    type, its element type and time.Time. *)
Theorem internalize_array_rejects (rt : runtime) (t : tid) (a : addr) (o : object)
    (recv mk : jsval) (fuel : nat) (h : heap) :
  kind (ty rt t) = kindArray ->
  t <> jsObjectPtr rt -> t <> elem (ty rt (jsObjectPtr rt)) -> timePkg rt <> Some t ->
  h !! a = Some o -> isArrayClass (cls o) = true ->
  assocGet (props o) (str "__internal_object__") = None ->
  Z.of_nat (length (elems o)) <> len (ty rt t) ->
  internalize rt (S fuel) JNull t recv None mk h
  = Panic ("cannot internalize null as a " ++ tstring (ty rt t)) /\
  internalize rt (S fuel) JUndefined t recv None mk h
  = Panic ("cannot internalize undefined as a " ++ tstring (ty rt t)) /\
  internalize rt (S fuel) (JRef a) t recv None mk h
  = Panic "got array with wrong size from JavaScript native".
Proof.
  intros Hk Hp He Ht Ha Hc Hback Hlen. repeat split.
  - rewrite internalize_reaches_switch by (repeat split; assumption).
    unfold internalize_switch. now rewrite Hk.
  - rewrite internalize_reaches_switch by (repeat split; assumption).
    unfold internalize_switch. now rewrite Hk.
  - assert (Hio : internalObject h (JRef a) = Ok JUndefined).
    { unfold internalObject. cbn [truthy getProp]. rewrite Ha, Hc.
      destruct (decide (_ = str "length")) as [E|_]; [discriminate E|].
      unfold indexKeys.
      rewrite assocGet_indexKeys by (cbn; lia). now rewrite Hback. }
    rewrite internalize_reaches_switch by (repeat split; assumption).
    unfold internalize_switch. rewrite Hk. cbn [getProp]. rewrite Ha, Hc.
    rewrite decide_True by reflexivity. cbn [mbind res_bind bind].
    rewrite bool_decide_eq_false_2; [reflexivity|].
    intros E. injection E as E. contradiction.
Qed.

Lemma internalize_array_rejects_witness :
  internalize moreRuntime 1 JNull tArray2 JUndefined None JUndefined
    [hostArray [JNum (Fin 1 0)]]
  = Panic "cannot internalize null as a [2]int" /\
  internalize moreRuntime 1 JUndefined tArray2 JUndefined None JUndefined
    [hostArray [JNum (Fin 1 0)]]
  = Panic "cannot internalize undefined as a [2]int" /\
  internalize moreRuntime 1 (JRef 0%nat) tArray2 JUndefined None JUndefined
    [hostArray [JNum (Fin 1 0)]]
  = Panic "got array with wrong size from JavaScript native".
Proof.
  refine (internalize_array_rejects moreRuntime tArray2 0%nat (hostArray [JNum (Fin 1 0)])
            JUndefined JUndefined 0 [hostArray [JNum (Fin 1 0)]]
            eq_refl _ _ _ eq_refl eq_refl eq_refl _); vm_compute; discriminate.
Defined.

(** ** time.Time *)

(** Internalizing into the time.Time descriptor a host value that carries
    no back reference to a compiled value and is null, undefined or no Date
    object is a fatal runtime error that names the host type of the value,
    whatever the seen-set holds. *)
Theorem internalize_time_requires_date (rt : runtime) (t : tid) (v recv mk : jsval)
    (seen : option seenMap) (fuel : nat) (h : heap) :
  timePkg rt = Some t ->
  t <> jsObjectPtr rt -> t <> elem (ty rt (jsObjectPtr rt)) ->
  internalObject h v = Ok JUndefined ->
  (v = JNull \/ v = JUndefined \/
   exists c, constructorOf rt h v = Ok c /\ c <> KClass CDate) ->
  internalize rt (S fuel) v t recv seen mk h
  = Panic ("cannot internalize time.Time from " ++ typeOf h v ++ ", must be Date").
Proof.
  intros Ht Hp He Hio Hv. rewrite internalize_S. unfold internalize_body.
  rewrite (eqb_ne _ _ Hp), (eqb_ne _ _ He), Hio. cbn [mbind res_bind bind].
  rewrite bool_decide_eq_true_2 by reflexivity. cbn [negb].
  rewrite bool_decide_eq_true_2 by assumption.
  unfold internalizeTime.
  destruct Hv as [-> | [-> | (c & Hc & Hne)]]; [reflexivity | reflexivity |].
  destruct v; try discriminate Hc; rewrite Hc; cbn [mbind res_bind bind];
    now rewrite bool_decide_eq_false_2 by assumption.
Qed.

Lemma internalize_time_requires_date_witness :
  internalize sampleRuntime 1 (JNum (Fin 0 0)) tTime JUndefined None JUndefined []
  = Panic "cannot internalize time.Time from number, must be Date".
Proof.
  refine (internalize_time_requires_date sampleRuntime tTime (JNum (Fin 0 0)) JUndefined
            JUndefined None 0 [] eq_refl _ _ eq_refl _); try discriminate.
  right; right. exists KNumber. split; [reflexivity | discriminate].
Defined.

(** ** Function wrappers *)

Lemma assocGet_assocSet {K V} `{EqDecision K} (l : list (K * V)) (k : K) (v : V) :
  assocGet (assocSet l k v) k = Some v.
Proof.
  induction l as [|[k' v'] l IH]; cbn [assocSet assocGet].
  - now rewrite decide_True.
  - destruct (decide (k' = k)) as [->|Hne]; cbn [assocGet].
    + now rewrite decide_True.
    + now rewrite decide_False.
Qed.

(** The first call of [$externalizeFunction] on a function object builds a
    wrapper and stores it on the function; every later call returns that
    same wrapper and changes nothing, also when it is made with another
    function type, receiver flag or wrapper factory. *)
Theorem externalizeFunction_wrapper_cached (a : addr) (o : object) (t t' : tid)
    (p p' : bool) (mk mk' : jsval) (h : heap) :
  h !! a = Some o ->
  isArrayClass (cls o) = false ->
  assocGet (props o) (str "$externalizeWrapper") = None ->
  exists h',
    externalizeFunction (JRef a) t p mk h = Ok (JRef (length h), h') /\
    h' !! length h = Some (withBody (emptyObject CFunction) (WrapperCode (JRef a) t p mk)) /\
    externalizeFunction (JRef a) t' p' mk' h' = Ok (JRef (length h), h').
Proof.
  intros Ha Hc Hw.
  set (w := withBody (emptyObject CFunction) (WrapperCode (JRef a) t p mk)).
  set (o' := withProps o (assocSet (props o) (str "$externalizeWrapper") (JRef (length h)))).
  pose proof (lookup_lt_Some _ _ _ Ha) as Hlt.
  exists (<[a := o']> (h ++ [w])).
  assert (Ha1 : (h ++ [w]) !! a = Some o) by now rewrite lookup_app_l.
  split; [|split].
  - unfold externalizeFunction. rewrite decide_False by discriminate.
    cbn [getProp]. rewrite Ha, Hc, Hw. cbn [default mbind res_bind bind].
    rewrite decide_True by reflexivity. cbn [alloc].
    unfold setProp. fold w. now rewrite Ha1.
  - rewrite list_lookup_insert_ne by lia.
    now rewrite lookup_app_r, Nat.sub_diag by lia.
  - unfold externalizeFunction. rewrite decide_False by discriminate.
    cbn [getProp]. rewrite list_lookup_insert_eq by (rewrite length_app; cbn; lia).
    change (cls o') with (cls o). rewrite Hc. change (props o') with
      (assocSet (props o) (str "$externalizeWrapper") (JRef (length h))).
    rewrite assocGet_assocSet. cbn [default mbind res_bind bind].
    now rewrite decide_False by discriminate.
Qed.

Lemma externalizeFunction_wrapper_cached_witness :
  exists h',
    externalizeFunction (JRef 0%nat) tFuncVariadic false JUndefined [compiledFunction]
    = Ok (JRef 1%nat, h') /\
    h' !! 1%nat = Some (withBody (emptyObject CFunction)
                          (WrapperCode (JRef 0%nat) tFuncVariadic false JUndefined)) /\
    externalizeFunction (JRef 0%nat) tInt true JNull h' = Ok (JRef 1%nat, h').
Proof.
  exact (externalizeFunction_wrapper_cached 0%nat compiledFunction tFuncVariadic tInt
           false true JUndefined JNull [compiledFunction] eq_refl eq_refl eq_refl).
Defined.

(** ** Host values held in an empty interface *)

(** A host boolean and a host string of Unicode scalar values, internalized
    into the empty interface, are boxed as the compiled bool and string, and
    externalizing the boxed value gives the host value back. *)
Theorem empty_interface_round_trip (rt : runtime) (b : bool) (rs : list Z)
    (recv mk : jsval) (fuel : nat) (h : heap) :
  basicDescriptors rt ->
  forallb isScalar rs = true ->
  (internalize rt (S (S fuel)) (JBool b) (emptyInterface rt) recv None mk h
   = Ok (JNew (dBool rt) (JBool b), [], h) /\
   externalize rt (S (S fuel)) (JNew (dBool rt) (JBool b)) (emptyInterface rt) mk h
   = Ok (JBool b, h)) /\
  (internalize rt (S (S fuel)) (JStr (utf16 rs)) (emptyInterface rt) recv None mk h
   = Ok (JNew (dString rt) (JStr (utf8 rs)), [], h) /\
   externalize rt (S (S fuel)) (JNew (dString rt) (JStr (utf8 rs))) (emptyInterface rt) mk h
   = Ok (JStr (utf16 rs), h)).
Proof.
  intros (Hki & Hm & Hkb & Hks & Hall) Hrs. apply forallb_isScalar in Hrs.
  apply Forall_cons in Hall as [(Hi1 & Hi2 & Hi3) Hall].
  apply Forall_cons in Hall as [(Hb1 & Hb2 & Hb3) Hall].
  apply Forall_cons in Hall as [(Hs1 & Hs2 & Hs3) _].
  assert (Hext : forall x t', t' <> jsObjectPtr rt ->
            externalize rt (S (S fuel)) (JNew t' x) (emptyInterface rt) mk h
            = externalize rt (S fuel) x t' mk h).
  { intros x t' Hne. rewrite (externalize_S rt (S fuel)). unfold externalize_body.
    rewrite (eqb_ne _ _ Hi1), Hki. rewrite decide_False by discriminate.
    cbn [constructorOf mbind res_bind bind dollarVal]. now rewrite (eqb_ne _ _ Hne). }
  split; split.
  - rewrite internalize_reaches_switch
      by (repeat split; first [assumption | now destruct b]).
    unfold internalize_switch. rewrite Hki, Hm. unfold internalizeInterface.
    cbn [constructorOf mbind res_bind bind truthy default]. reflexivity.
  - rewrite Hext by assumption. rewrite externalize_S. unfold externalize_body.
    now rewrite (eqb_ne _ _ Hb1), Hkb.
  - rewrite internalize_reaches_switch
      by (repeat split; auto using internalObject_string).
    unfold internalize_switch. rewrite Hki, Hm. unfold internalizeInterface.
    cbn [constructorOf mbind res_bind bind default]. unfold self3.
    rewrite internalize_reaches_switch
      by (repeat split; auto using internalObject_string).
    unfold internalize_switch. rewrite Hks. cbn [toString mbind res_bind bind].
    now rewrite internalizeString_utf16.
  - rewrite Hext by assumption. rewrite externalize_S. unfold externalize_body.
    rewrite (eqb_ne _ _ Hs1), Hks, externalizeString_utf8 by assumption. reflexivity.
Qed.

Lemma empty_interface_round_trip_witness :
  (internalize sampleRuntime 2 (JBool true) tEmptyInterface JUndefined None JUndefined []
   = Ok (JNew tBool (JBool true), [], []) /\
   externalize sampleRuntime 2 (JNew tBool (JBool true)) tEmptyInterface JUndefined []
   = Ok (JBool true, [])) /\
  (internalize sampleRuntime 2 (JStr [55357; 56832; 65]) tEmptyInterface JUndefined None
     JUndefined []
   = Ok (JNew tString (JStr [240; 159; 152; 128; 65]), [], []) /\
   externalize sampleRuntime 2 (JNew tString (JStr [240; 159; 152; 128; 65]))
     tEmptyInterface JUndefined []
   = Ok (JStr [55357; 56832; 65], [])).
Proof.
  refine (empty_interface_round_trip sampleRuntime true [128512; 65] JUndefined JUndefined
            0 [] _ eq_refl).
  repeat split; try reflexivity; repeat constructor; vm_compute; discriminate.
Defined.

End BridgeMoreProofs.
